(** * Porymusic: the MIDI project model, decoder, encoder, initialisation
      injector and drum remapper of [midi_editor], embedded in Rocq.

    Python integers are unbounded, so every integer field is a [Z].
    Dictionaries that the code only reads through [get], [in], [pop] and
    item assignment are finite maps ([gmap]); equality of two such maps
    is Python's [==] on dictionaries (same keys, same values).  A
    dictionary the code iterates over (the decoder's table of pending
    note-ons, the target drumset, the dictionary literals of the drum
    remapper) is the list of its items in insertion order.  Code that
    mutates its argument in place is written as a function that returns
    the new value; a function that can raise returns a [Py.result].
    Lists of notes hold one object per position, as the decoder builds
    them.  A string is a sequence of 8-bit characters: mido decodes the
    text of a meta message as Latin-1, one character per byte. *)

From Stdlib Require Import ZArith List String Ascii Bool Lia Sorted Permutation DecimalString.
From stdpp Require Import base decidable option numbers list gmap sets strings fin_maps sorting.

Local Open Scope Z_scope.

(* ===================================================================== *)
(** ** Python helpers shared by the modules *)
(* ===================================================================== *)

Module Py.

(** Exceptions the modelled code can raise. *)
Inductive exn := ValueError | ZeroDivisionError | OverflowError | StructError.

Definition result (A : Type) : Type := exn + A.

Definition ret {A} (x : A) : result A := inr x.
Definition raise {A} (e : exn) : result A := inl e.
Definition bind {A B} (m : result A) (k : A -> result B) : result B :=
  match m with
  | inl e => inl e
  | inr x => k x
  end.

(** [max(lo, min(hi, x))] *)
Definition clamp (lo hi x : Z) : Z := Z.max lo (Z.min hi x).

(** Stable sort by a key, as [list.sort(key=...)] and [sorted] are: the
    result of a stable sort is determined by the input and the order on
    keys, so insertion from the right computes what Timsort computes. *)
Section Sort.
Context {A : Type} (leb : A -> A -> bool).

Fixpoint insert_sorted (x : A) (l : list A) : list A :=
  match l with
  | [] => [x]
  | y :: l' => if leb x y then x :: y :: l' else y :: insert_sorted x l'
  end.

Fixpoint sort_by (l : list A) : list A :=
  match l with
  | [] => []
  | x :: l' => insert_sorted x (sort_by l')
  end.

End Sort.

(** Order of Python tuples [(int, int)]. *)
Definition pair_leb (x y : Z * Z) : bool :=
  (x.1 <? y.1) || ((x.1 =? y.1) && (x.2 <=? y.2)).

Definition sorted_ints (l : list Z) : list Z := sort_by Z.leb l.

(** [sorted(s)] for a set of integers [s]. *)
Definition sorted_set (s : gset Z) : list Z := sorted_ints (elements s).

(** [str(z)] for an integer. *)
Definition str_of_int (z : Z) : string :=
  DecimalString.NilZero.string_of_int (Z.to_int z).

Fixpoint join (sep : string) (l : list string) : string :=
  match l with
  | [] => EmptyString
  | [s] => s
  | s :: l' => s +:+ sep +:+ join sep l'
  end.

(** [str(l)] for a list of integers, as an f-string prints it. *)
Definition str_of_int_list (l : list Z) : string :=
  "[" +:+ join ", " (map str_of_int l) +:+ "]".

(** [str.isspace] on a Latin-1 character, the characters [str.strip]
    removes: U+0009..U+000D, U+001C..U+0020, U+0085 and U+00A0. *)
Definition is_space (c : ascii) : bool :=
  let n := nat_of_ascii c in
  ((9 <=? n)%nat && (n <=? 13)%nat) || ((28 <=? n)%nat && (n <=? 32)%nat)
  || (n =? 133)%nat || (n =? 160)%nat.

Fixpoint lstrip (s : string) : string :=
  match s with
  | String c s' => if is_space c then lstrip s' else s
  | EmptyString => EmptyString
  end.

Fixpoint rstrip (s : string) : string :=
  match s with
  | String c s' =>
      match rstrip s' with
      | EmptyString => if is_space c then EmptyString else String c EmptyString
      | r => String c r
      end
  | EmptyString => EmptyString
  end.

(** [s.strip()] *)
Definition strip (s : string) : string := rstrip (lstrip s).

(** Truth value of a string. *)
Definition nonempty (s : string) : bool :=
  match s with EmptyString => false | _ => true end.

(** [int(round(n / d))] for integers [n] and [d <> 0]: Python rounds a
    float half to even.  For [n = 60000000], which is how the two tempo
    conversions below use it, the double nearest to the quotient rounds to
    the same integer as the exact quotient: for [d] below 2^53 in
    magnitude the quotient is further from a half-integer than the
    rounding error of the division, and for a larger [d] both round to
    0. *)
Definition round_div (n d : Z) : Z :=
  let n' := if d <? 0 then - n else n in
  let d' := Z.abs d in
  let q := n' / d' in
  let r := n' mod d' in
  if 2 * r <? d' then q
  else if d' <? 2 * r then q + 1
  else if Z.even q then q else q + 1.

End Py.

Declare Scope py_scope.
Notation "'let*' x := m 'in' k" := (Py.bind m (fun x => k))
  (at level 10, x name, m at level 100, k at level 200) : py_scope.
Local Open Scope py_scope.

(* ===================================================================== *)
(** ** models.py *)
(* ===================================================================== *)

Module Models.

Record NoteEvent := mkNote {
  start_tick : Z;
  end_tick : Z;
  pitch : Z;
  velocity : Z;
  channel : Z;
  track_index : Z
}.

#[global] Instance NoteEvent_eq_dec : EqDecision NoteEvent.
Proof. solve_decision. Defined.

(** [NoteEvent.duration] *)
Definition duration (n : NoteEvent) : Z := Z.max 0 (end_tick n - start_tick n).

Definition set_channel (n : NoteEvent) (c : Z) : NoteEvent :=
  mkNote (start_tick n) (end_tick n) (pitch n) (velocity n) c (track_index n).

Definition set_pitch (n : NoteEvent) (p : Z) : NoteEvent :=
  mkNote (start_tick n) (end_tick n) p (velocity n) (channel n) (track_index n).

Record MidiProject := mkProject {
  ticks_per_beat : Z;
  notes : list NoteEvent;
  channel_instrument_id : gmap Z Z;
  tempo_bpm : Z;
  channel_track_name : gmap Z string;
  muted_channels : gset Z
}.

(** [dict.pop(k, None)] used as a statement. *)
Definition pop {V} (k : Z) (m : gmap Z V) : gmap Z V := delete k m.

(** [if v is None: d.pop(k, None) else: d[k] = v] *)
Definition put_or_pop {V} (k : Z) (v : option V) (m : gmap Z V) : gmap Z V :=
  match v with
  | None => pop k m
  | Some x => <[k := x]> m
  end.

Definition delete_channel (ch : Z) (p : MidiProject) : MidiProject :=
  mkProject (ticks_per_beat p)
            (filter (fun n => channel n ≠ ch) (notes p))
            (pop ch (channel_instrument_id p))
            (tempo_bpm p)
            (pop ch (channel_track_name p))
            (muted_channels p).

Definition merge_note (src dst : Z) (n : NoteEvent) : NoteEvent :=
  if decide (channel n = src) then set_channel n dst else n.

Definition merge_labels (src dst : Z) (names : gmap Z string) : gmap Z string :=
  let carried :=
    match names !! src, names !! dst with
    | Some l, None => <[dst := l]> names
    | _, _ => names
    end in
  pop src carried.

Definition merge_channel_into (src dst : Z) (p : MidiProject) : MidiProject :=
  if decide (src = dst) then p
  else mkProject (ticks_per_beat p)
                 (map (merge_note src dst) (notes p))
                 (pop src (channel_instrument_id p))
                 (tempo_bpm p)
                 (merge_labels src dst (channel_track_name p))
                 (muted_channels p).

Definition swap_note (a b : Z) (n : NoteEvent) : NoteEvent :=
  if decide (channel n = a) then set_channel n b
  else if decide (channel n = b) then set_channel n a
  else n.

(** The two reads happen before the two writes, as in the method body. *)
Definition swap_entries {V} (a b : Z) (m : gmap Z V) : gmap Z V :=
  let va := m !! a in
  let vb := m !! b in
  put_or_pop a vb (put_or_pop b va m).

Definition swap_channels (a b : Z) (p : MidiProject) : MidiProject :=
  if decide (a = b) then p
  else mkProject (ticks_per_beat p)
                 (map (swap_note a b) (notes p))
                 (swap_entries a b (channel_instrument_id p))
                 (tempo_bpm p)
                 (swap_entries a b (channel_track_name p))
                 (muted_channels p).

Definition used_channels (p : MidiProject) : list Z :=
  Py.sorted_set (list_to_set (map channel (notes p))).

Definition notes_for_channel (ch : Z) (p : MidiProject) : list NoteEvent :=
  filter (fun n => channel n = ch) (notes p).

End Models.

(* ===================================================================== *)
(** ** The part of the mido library the code relies on *)
(* ===================================================================== *)

Module Mido.
Import Py.

(** A message of a track.  [time] is the delta time to the previous
    message of the track.  [ChannelOther] stands for the remaining channel
    messages (control change, pitch wheel, ...), [ChannelPrefix] is the
    one meta message that has an attribute [channel], and [Other] stands
    for the remaining meta messages ([meta = true]) and for system
    messages, none of which has one. *)
Inductive Msg :=
| NoteOn (time channel note velocity : Z)
| NoteOff (time channel note velocity : Z)
| ProgramChange (time channel program : Z)
| SetTempo (time tempo : Z)
| TrackName (time : Z) (name : string)
| EndOfTrack (time : Z)
| ChannelOther (time channel : Z)
| Other (time : Z) (meta : bool)
| ChannelPrefix (time channel : Z).

#[global] Instance Msg_eq_dec : EqDecision Msg.
Proof. solve_decision. Defined.

Definition time (m : Msg) : Z :=
  match m with
  | NoteOn t _ _ _ | NoteOff t _ _ _ | ProgramChange t _ _ | SetTempo t _
  | TrackName t _ | EndOfTrack t | ChannelOther t _ | Other t _
  | ChannelPrefix t _ => t
  end.

(** [msg.time = t] *)
Definition set_time (t : Z) (m : Msg) : Msg :=
  match m with
  | NoteOn _ c n v => NoteOn t c n v
  | NoteOff _ c n v => NoteOff t c n v
  | ProgramChange _ c p => ProgramChange t c p
  | SetTempo _ x => SetTempo t x
  | TrackName _ s => TrackName t s
  | EndOfTrack _ => EndOfTrack t
  | ChannelOther _ c => ChannelOther t c
  | Other _ b => Other t b
  | ChannelPrefix _ c => ChannelPrefix t c
  end.

Definition is_meta (m : Msg) : bool :=
  match m with
  | SetTempo _ _ | TrackName _ _ | EndOfTrack _ | ChannelPrefix _ _ => true
  | Other _ b => b
  | _ => false
  end.

(** [getattr(msg, "channel", None)]: the attribute [channel] of a
    message, where it has one. *)
Definition channel_of (m : Msg) : option Z :=
  match m with
  | NoteOn _ c _ _ | NoteOff _ c _ _ | ProgramChange _ c _ | ChannelOther _ c
  | ChannelPrefix _ c => Some c
  | _ => None
  end.

Definition is_note_on (m : Msg) : bool :=
  match m with NoteOn _ _ _ _ => true | _ => false end.

Definition is_note_off (m : Msg) : bool :=
  match m with NoteOff _ _ _ _ => true | _ => false end.

Definition is_end_of_track (m : Msg) : bool :=
  match m with EndOfTrack _ => true | _ => false end.

Definition MidiTrack := list Msg.

Record MidiFile := mkMidiFile {
  ticks_per_beat : Z;
  tracks : list MidiTrack
}.

(** The checks of the message constructors: a channel is 0..15, a data
    byte (note, velocity, program) 0..127, a tempo fits three bytes. *)
Definition check (b : bool) : result unit :=
  if b then ret tt else raise ValueError.

Definition channel_ok (c : Z) : bool := (0 <=? c) && (c <=? 15).
Definition data_byte_ok (x : Z) : bool := (0 <=? x) && (x <=? 127).
Definition tempo_ok (x : Z) : bool := (0 <=? x) && (x <=? 16777215).

Definition new_note_on (channel note velocity time : Z) : result Msg :=
  let* _ := check (channel_ok channel) in
  let* _ := check (data_byte_ok note) in
  let* _ := check (data_byte_ok velocity) in
  ret (NoteOn time channel note velocity).

Definition new_note_off (channel note velocity time : Z) : result Msg :=
  let* _ := check (channel_ok channel) in
  let* _ := check (data_byte_ok note) in
  let* _ := check (data_byte_ok velocity) in
  ret (NoteOff time channel note velocity).

Definition new_program_change (channel program time : Z) : result Msg :=
  let* _ := check (channel_ok channel) in
  let* _ := check (data_byte_ok program) in
  ret (ProgramChange time channel program).

Definition new_set_tempo (tempo time : Z) : result Msg :=
  let* _ := check (tempo_ok tempo) in
  ret (SetTempo time tempo).

(** The least magnitude of an integer that Python converts to no float:
    from [2^1024 - 2^970] on the nearest double would be [2^1024], and the
    conversion raises [OverflowError]. *)
Definition float_limit : Z := 2 ^ 1024 - 2 ^ 970.

(** [int(round(60 * 1e6 / x))] for an integer [x]: the division converts
    [x] to a float. *)
Definition beat_div (x : Z) : result Z :=
  if x =? 0 then raise ZeroDivisionError
  else if float_limit <=? Z.abs x then raise OverflowError
  else ret (round_div 60000000 x).

(** [mido.bpm2tempo(bpm)] for an integer [bpm]:
    [int(round(60 * 1e6 / bpm))] microseconds per beat. *)
Definition bpm2tempo (bpm : Z) : result Z := beat_div bpm.

(** [int(round(mido.tempo2bpm(tempo)))], where [mido.tempo2bpm(tempo)] is
    [60 * 1e6 / tempo]. *)
Definition tempo2bpm_rounded (tempo : Z) : result Z := beat_div tempo.

(** [fix_end_of_track], through which [save] writes each track: every
    [end_of_track] is removed, its delta time is added to the next
    message that stays, and one [end_of_track] is put at the end.  The
    track of the file object is not changed. *)
Fixpoint fix_end_of_track (accum : Z) (tr : MidiTrack) : MidiTrack :=
  match tr with
  | [] => [EndOfTrack accum]
  | msg :: tr' =>
      match msg with
      | EndOfTrack t => fix_end_of_track (accum + t) tr'
      | _ => set_time (accum + time msg) msg :: fix_end_of_track 0 tr'
      end
  end.

(** The header of a saved file packs the number of tracks and
    [ticks_per_beat] as signed 16-bit fields. *)
Definition short_ok (x : Z) : bool := (-32768 <=? x) && (x <=? 32767).

Definition header_ok (mid : MidiFile) : bool :=
  short_ok (Z.of_nat (length (tracks mid))) && short_ok (ticks_per_beat mid).

(** A delta time is written as a variable-length quantity, which has no
    negative values. *)
Definition time_ok (m : Msg) : bool := 0 <=? time m.

(** [mid.save(path)]: the header is written first, then each track as
    [fix_end_of_track] gives it.  The result is the file that is on disk
    afterwards, as [mido.MidiFile(path)] reads it back: the messages that
    were written.  The file system is not modelled. *)
Definition save (mid : MidiFile) : result MidiFile :=
  if header_ok mid then
    let written := map (fix_end_of_track 0) (tracks mid) in
    let* _ := check (forallb (forallb time_ok) written) in
    ret (mkMidiFile (ticks_per_beat mid) written)
  else raise StructError.

(** Absolute tick of each message of a track: the running sum of the
    delta times, as every reader of a track computes it. *)
Fixpoint absolute_from (t : Z) (tr : MidiTrack) : list (Z * Msg) :=
  match tr with
  | [] => []
  | m :: tr' => (t + time m, m) :: absolute_from (t + time m) tr'
  end.

Definition absolute (tr : MidiTrack) : list (Z * Msg) := absolute_from 0 tr.

End Mido.

(* ===================================================================== *)
(** ** midi_io.py: the decoder *)
(* ===================================================================== *)

Module MidiIO.
Import Py Mido Models.

Fixpoint first_tempo (msgs : list Msg) : option Z :=
  match msgs with
  | [] => None
  | SetTempo _ tempo :: _ => Some tempo
  | _ :: msgs' => first_tempo msgs'
  end.

(** The nested loop over tracks and messages returns at the first
    [set_tempo]. *)
Definition _extract_tempo_bpm (mid : MidiFile) : result Z :=
  match first_tempo (concat (tracks mid)) with
  | Some tempo =>
      let* bpm := tempo2bpm_rounded tempo in
      ret (clamp 30 300 bpm)
  | None => ret 120
  end.

(** [d.setdefault(k, v)] used as a statement. *)
Definition setdefault {V} (k : Z) (v : V) (m : gmap Z V) : gmap Z V :=
  match m !! k with
  | Some _ => m
  | None => <[k := v]> m
  end.

(** One message of the label scan: the state is [track_name] and
    [channels_in_track]. *)
Definition label_step (st : option string * gset Z) (msg : Msg)
  : option string * gset Z :=
  match msg with
  | TrackName _ name =>
      match st.1 with
      | None =>
          let cleaned := strip name in
          (if nonempty cleaned then Some cleaned else None, st.2)
      | Some _ => st
      end
  | _ =>
      match channel_of msg with
      | Some ch => (st.1, {[ch]} ∪ st.2)
      | None => st
      end
  end.

Definition label_track (out : gmap Z string) (tr : MidiTrack) : gmap Z string :=
  let st := fold_left label_step tr (None, ∅) in
  match st.1 with
  | Some track_name =>
      fold_left (fun o ch => setdefault ch track_name o) (sorted_set st.2) out
  | None => out
  end.

Definition _extract_channel_track_names (mid : MidiFile) : gmap Z string :=
  fold_left label_track (tracks mid) ∅.

(** ** Note reconstruction *)

(** A pending note-on: [(start_tick, velocity)]. *)
Definition Pending : Type := Z * Z.

(** [active]: key [(channel, pitch)], in insertion order. *)
Definition Active : Type := list ((Z * Z) * list Pending).

Fixpoint active_get (key : Z * Z) (a : Active) : option (list Pending) :=
  match a with
  | [] => None
  | (k, l) :: a' => if decide (k = key) then Some l else active_get key a'
  end.

(** [active.setdefault(key, []).append(x)] *)
Fixpoint active_append (key : Z * Z) (x : Pending) (a : Active) : Active :=
  match a with
  | [] => [(key, [x])]
  | (k, l) :: a' =>
      if decide (k = key) then (k, l ++ [x]) :: a'
      else (k, l) :: active_append key x a'
  end.

(** [active[key] = l], for a key that is present. *)
Fixpoint active_set (key : Z * Z) (l : list Pending) (a : Active) : Active :=
  match a with
  | [] => []
  | (k, l0) :: a' =>
      if decide (k = key) then (k, l) :: a'
      else (k, l0) :: active_set key l a'
  end.

Record DecodeState := mkDecode {
  abs_tick : Z;
  active : Active;
  acc_notes : list NoteEvent
}.

(** The body of the branch for a note-off. *)
Definition close_note (t_idx now ch pitch : Z) (a : Active) (ns : list NoteEvent)
  : DecodeState :=
  match active_get (ch, pitch) a with
  | Some ((start, vel) :: rest) =>
      mkDecode now (active_set (ch, pitch) rest a)
        (if start <? now
         then ns ++ [mkNote start now pitch vel ch t_idx]
         else ns)
  | _ => mkDecode now a ns
  end.

(** The body of [for msg in track]. *)
Definition decode_msg (t_idx : Z) (st : DecodeState) (msg : Msg) : DecodeState :=
  let now := abs_tick st + time msg in
  match msg with
  | NoteOn _ ch note vel =>
      if 0 <? vel then
        mkDecode now (active_append (ch, note) (now, vel) (active st)) (acc_notes st)
      else if vel =? 0 then
        close_note t_idx now ch note (active st) (acc_notes st)
      else mkDecode now (active st) (acc_notes st)
  | NoteOff _ ch note _ =>
      close_note t_idx now ch note (active st) (acc_notes st)
  | _ => mkDecode now (active st) (acc_notes st)
  end.

(** The loop that closes any stuck notes at the end of a track. *)
Definition close_stuck (t_idx final : Z) (a : Active) : list NoteEvent :=
  flat_map (fun '((ch, pitch), stack) =>
              map (fun '(start, vel) =>
                     mkNote start (Z.max (start + 1) final) pitch vel ch t_idx)
                  stack)
           a.

(** One iteration of [for t_idx, track in enumerate(mid.tracks)]. *)
Definition decode_track (t_idx : Z) (tr : MidiTrack) (ns : list NoteEvent)
  : list NoteEvent :=
  let st := fold_left (decode_msg t_idx) tr (mkDecode 0 [] ns) in
  acc_notes st ++ close_stuck t_idx (abs_tick st) (active st).

Fixpoint decode_tracks (t_idx : Z) (trs : list MidiTrack) (ns : list NoteEvent)
  : list NoteEvent :=
  match trs with
  | [] => ns
  | tr :: trs' => decode_tracks (t_idx + 1) trs' (decode_track t_idx tr ns)
  end.

Definition load_midi_as_notes (mid : MidiFile) : result MidiProject :=
  let* tempo_bpm := _extract_tempo_bpm mid in
  let track_names := _extract_channel_track_names mid in
  let notes := decode_tracks 0 (tracks mid) [] in
  ret (mkProject (Mido.ticks_per_beat mid) notes ∅ tempo_bpm track_names ∅).

(** ** The encoder *)

(** The keyword arguments of [save_project_to_midi]. *)
Record ExportFlags := mkFlags {
  normalize_to_channels_0_9 : bool;
  drop_channels_over_9 : bool;
  force_programs_at_start : bool;
  write_tempo : bool
}.

Definition default_flags : ExportFlags := mkFlags true true false true.

(** [sorted({n.channel for n in notes if n.channel > 9})] *)
Definition channels_over_9 (ns : list NoteEvent) : list Z :=
  sorted_set (list_to_set (map channel (filter (fun n => 9 < channel n) ns))).

Definition warn_over (over : list Z) : string :=
  "Channels over 9 present: " +:+ str_of_int_list over
    +:+ ". Exportable channels are 0–9.".

Definition warn_dropped : string :=
  "Dropped notes on channels > 9 during export.".

(** The channel filter at the head of the function: the notes that are
    written and the warnings. *)
Definition filter_channels (flags : ExportFlags) (ns : list NoteEvent)
  : list NoteEvent * list string :=
  if normalize_to_channels_0_9 flags then
    match channels_over_9 ns with
    | [] => (ns, [])
    | over =>
        if drop_channels_over_9 flags
        then (filter (fun n => channel n <= 9) ns, [warn_over over; warn_dropped])
        else (ns, [warn_over over])
    end
  else (ns, []).

(** The tempo at tick 0. *)
Definition tempo_events (flags : ExportFlags) (p : MidiProject) : result (list Msg) :=
  if write_tempo flags then
    let bpm := clamp 30 300 (tempo_bpm p) in
    let* tempo := bpm2tempo bpm in
    let* msg := new_set_tempo tempo 0 in
    ret [msg]
  else ret [].

(** The program changes at tick 0, over the sorted items. *)
Fixpoint program_events_of (normalize : bool) (items : list (Z * Z))
  : result (list (Z * Msg)) :=
  match items with
  | [] => ret []
  | (ch, program) :: items' =>
      if normalize && (9 <? ch) then program_events_of normalize items'
      else
        let* msg := new_program_change ch program 0 in
        let* rest := program_events_of normalize items' in
        ret ((0, msg) :: rest)
  end.

Definition program_events (flags : ExportFlags) (p : MidiProject)
  : result (list (Z * Msg)) :=
  if force_programs_at_start flags then
    program_events_of (normalize_to_channels_0_9 flags)
      (sort_by pair_leb (map_to_list (channel_instrument_id p)))
  else ret [].

(** The notes: a note-on and a note-off per note, with their absolute
    tick. *)
Fixpoint note_events (ns : list NoteEvent) : result (list (Z * Msg)) :=
  match ns with
  | [] => ret []
  | n :: ns' =>
      let* on := new_note_on (channel n) (pitch n) (velocity n) 0 in
      let* off := new_note_off (channel n) (pitch n) 0 0 in
      let* rest := note_events ns' in
      ret ((start_tick n, on) :: (end_tick n, off) :: rest)
  end.

Definition sort_key (item : Z * Msg) : Z * Z :=
  (item.1, if is_note_off item.2 then -1 else 0).

Definition event_leb (x y : Z * Msg) : bool := pair_leb (sort_key x) (sort_key y).

(** [events.sort(key=sort_key)] *)
Definition sort_events (events : list (Z * Msg)) : list (Z * Msg) :=
  sort_by event_leb events.

(** The conversion of absolute ticks to delta times. *)
Fixpoint to_delta (last_tick : Z) (events : list (Z * Msg)) : list Msg :=
  match events with
  | [] => []
  | (tick, msg) :: events' =>
      set_time (Z.max 0 (tick - last_tick)) msg :: to_delta tick events'
  end.

(** The track that is written for the retained notes [ns]. *)
Definition build_track (flags : ExportFlags) (p : MidiProject) (ns : list NoteEvent)
  : result MidiTrack :=
  let* tempo := tempo_events flags p in
  let* programs := program_events flags p in
  let* played := note_events ns in
  ret (tempo ++ to_delta 0 (sort_events (programs ++ played)) ++ [EndOfTrack 0]).

(** The file that is written and the warnings that are returned. *)
Definition save_project_to_midi (p : MidiProject) (flags : ExportFlags)
  : result (MidiFile * list string) :=
  let '(ns, warnings) := filter_channels flags (notes p) in
  let* track0 := build_track flags p ns in
  let* mid := save (mkMidiFile (Models.ticks_per_beat p) [track0]) in
  ret (mid, warnings).

(** *** Vocabulary for the statements about the encoder *)

(** A note whose fields fit the two messages it is written to: channel
    0..15, pitch and velocity 0..127. *)
Definition note_ok (n : NoteEvent) : Prop :=
  0 <= channel n <= 15 /\ 0 <= pitch n <= 127 /\ 0 <= velocity n <= 127.

(** The values the encoder hands to mido fit the fields they are written
    to: the retained notes; where the instrument ids are written as
    program numbers, the entries of the instrument map that are not
    skipped; and the time base, a signed 16-bit field of the header.
    This is a property of the values and the flags, not the data model
    of the specification. *)
Definition values_fit (flags : ExportFlags) (p : MidiProject) : Prop :=
  Forall note_ok (filter_channels flags (notes p)).1
  /\ (force_programs_at_start flags = true ->
      forall ch program, channel_instrument_id p !! ch = Some program ->
        (normalize_to_channels_0_9 flags = true /\ 9 < ch)
        \/ (0 <= ch <= 15 /\ 0 <= program <= 127))
  /\ -32768 <= Models.ticks_per_beat p <= 32767.

(** The data model in the words of the specification: a note has
    [end_tick > start_tick], a pitch and a velocity 0..127 and a channel
    0..15; the tempo is from 30 to 300; the instrument map has channels
    0..15 as keys and none for channel 9.  An instrument identifier is an
    opaque key into the catalog, and the time base an integer. *)
Definition spec_note (n : NoteEvent) : Prop :=
  start_tick n < end_tick n
  /\ 0 <= pitch n <= 127 /\ 0 <= velocity n <= 127 /\ 0 <= channel n <= 15.

Definition in_data_model (p : MidiProject) : Prop :=
  Forall spec_note (notes p)
  /\ 30 <= tempo_bpm p <= 300
  /\ channel_instrument_id p !! 9 = None
  /\ forall ch id, channel_instrument_id p !! ch = Some id -> 0 <= ch <= 15.

(** The note messages of a track, without their delta times, and the two
    messages of a note. *)
Definition note_messages (tr : MidiTrack) : list Msg :=
  filter (fun m => is_note_on m || is_note_off m = true) (map (set_time 0) tr).

Definition messages_of_note (n : NoteEvent) : list Msg :=
  [NoteOn 0 (channel n) (pitch n) (velocity n); NoteOff 0 (channel n) (pitch n) 0].

(** A project of the data model with an instrument id that is no
    program number. *)
Definition project_large_id : MidiProject :=
  mkProject 480 [mkNote 0 10 60 90 3 0] {[ 3 := 200 ]} 140 ∅ ∅.

(** Order of two positions of a track by absolute tick, where a note-off
    at the tick of a note-on comes first. *)
Definition note_order (x y : Z * Msg) : Prop :=
  x.1 <= y.1 /\ (is_note_on x.2 = true -> is_note_off y.2 = true -> x.1 < y.1).

(** A position of the written track against the event it comes from:
    the same message up to its delta time, at a tick shifted by [c]. *)
Definition written_as (c : Z) (ev am : Z * Msg) : Prop :=
  am.1 = ev.1 + c /\ set_time 0 am.2 = set_time 0 ev.2.

(** Two notes on channel 3, pitch 60, the second starting at the tick
    where the first ends, listed in the other order, and a note on
    channel 12. *)
Definition project_back_to_back : MidiProject :=
  mkProject 480
    [mkNote 10 20 60 91 3 0; mkNote 0 10 60 90 3 0; mkNote 5 10 61 92 12 0]
    {[ 3 := 7 ]} 140 ∅ ∅.

(** *** Vocabulary for the statements about the decoder *)

(** The condition of the [elif] branch: the key a message closes. *)
Definition closing_key (msg : Msg) : option (Z * Z) :=
  match msg with
  | NoteOff _ ch note _ => Some (ch, note)
  | NoteOn _ ch note vel => if vel =? 0 then Some (ch, note) else None
  | _ => None
  end.

Definition positive_duration (n : NoteEvent) : Prop := start_tick n < end_tick n.

(** Three notes on channel 0, pitch 60, opened at ticks 0, 10, 20 and
    closed at ticks 5, 15, 25, in time order; the last one is closed by a
    note-on of velocity 0. *)
Definition three_notes_in_time_order : MidiTrack :=
  [NoteOn 0 0 60 100; NoteOff 5 0 60 0; NoteOn 5 0 60 101; NoteOff 5 0 60 0;
   NoteOn 5 0 60 102; NoteOn 5 0 60 0].

(** The three note-ons first and the three note-offs after them at the
    ticks 5, 15, 25, which takes a negative delta time. *)
Definition three_notes_offs_after : MidiTrack :=
  [NoteOn 0 0 60 100; NoteOn 10 0 60 101; NoteOn 10 0 60 102;
   NoteOff (-15) 0 60 0; NoteOff 10 0 60 0; NoteOff 10 0 60 0].

(** Three note-ons at ticks 0, 10, 20, then three note-offs at ticks
    25, 30, 35. *)
Definition three_notes_stacked : MidiTrack :=
  [NoteOn 0 0 60 100; NoteOn 10 0 60 101; NoteOn 10 0 60 102;
   NoteOff 5 0 60 0; NoteOff 5 0 60 0; NoteOff 5 0 60 0].

(** A file whose only track pairs a note-off with a note-on of the same
    tick and leaves a note on channel 1 open. *)
Definition file_with_stuck_note : MidiFile :=
  mkMidiFile 480
    [[SetTempo 0 500000; NoteOn 0 0 60 100; NoteOff 0 0 60 0; NoteOn 3 1 62 90]].

End MidiIO.

(* ===================================================================== *)
(** ** midi_init_injector.py *)
(* ===================================================================== *)

Module Injector.
Import Py Mido.

(** The keyword arguments of [inject_init_events]. *)
Record Params := mkParams {
  tempo_bpm : Z;
  program_base : Z;
  max_melodic_channels : Z;
  drum_midi_channel : option Z
}.

Definition default_params : Params := mkParams 120 1 9 (Some 9).

Definition is_set_tempo (m : Msg) : bool :=
  match m with SetTempo _ _ => true | _ => false end.

Definition is_program_change (m : Msg) : bool :=
  match m with ProgramChange _ _ _ => true | _ => false end.

(** The test reads [msg.time], the delta time of the message. *)
Definition has_meta_set_tempo_at_0 (track : MidiTrack) : bool :=
  existsb (fun msg => (time msg =? 0) && is_meta msg && is_set_tempo msg) track.

Definition has_program_change_at_0 (track : MidiTrack) (channel : Z) : bool :=
  existsb (fun msg => (time msg =? 0) && negb (is_meta msg) && is_program_change msg
                      && bool_decide (channel_of msg = Some channel))
          track.

(** [range(n)] *)
Definition range (n : Z) : list Z := map Z.of_nat (seq 0 (Z.to_nat n)).

(** The tempo at time 0, only if none exists at time 0. *)
Definition tempo_insert (params : Params) (t0 : MidiTrack) : result (list Msg) :=
  if has_meta_set_tempo_at_0 t0 then ret []
  else
    let* tempo := bpm2tempo (tempo_bpm params) in
    let* msg := new_set_tempo tempo 0 in
    ret [msg].

(** The melodic program changes at time 0. *)
Fixpoint melodic_inserts (params : Params) (t0 : MidiTrack) (chs : list Z)
  : result (list Msg) :=
  match chs with
  | [] => ret []
  | ch :: chs' =>
      if has_program_change_at_0 t0 ch then melodic_inserts params t0 chs'
      else
        let* msg := new_program_change ch (program_base params + ch) 0 in
        let* rest := melodic_inserts params t0 chs' in
        ret (msg :: rest)
  end.

(** The program change of the drum channel at time 0, to program 0. *)
Definition drum_insert (params : Params) (t0 : MidiTrack) : result (list Msg) :=
  match drum_midi_channel params with
  | None => ret []
  | Some drum_ch =>
      if (0 <=? drum_ch) && (drum_ch <=? 15) && negb (has_program_change_at_0 t0 drum_ch)
      then
        let* msg := new_program_change drum_ch 0 0 in
        ret [msg]
      else ret []
  end.

(** The list [inserts] once the three blocks have run. *)
Definition inserts (params : Params) (t0 : MidiTrack) : result (list Msg) :=
  let* tempo := tempo_insert params t0 in
  let* melodic := melodic_inserts params t0 (range (max_melodic_channels params)) in
  let* drum := drum_insert params t0 in
  ret (tempo ++ melodic ++ drum).

(** [l.insert(i, x)] for [0 <= i]. *)
Definition list_insert_at {A} (i : nat) (x : A) (l : list A) : list A :=
  take i l ++ x :: drop i l.

(** [for i, msg in enumerate(inserts): t0.insert(i, msg)], from index [i]. *)
Fixpoint insert_all (i : nat) (ins : list Msg) (t0 : MidiTrack) : MidiTrack :=
  match ins with
  | [] => t0
  | msg :: ins' => insert_all (S i) ins' (list_insert_at i msg t0)
  end.

(** [mid.tracks[0]], after an empty track was appended to a file without
    tracks. *)
Definition first_track (mid : MidiFile) : MidiTrack :=
  match tracks mid with
  | [] => []
  | t0 :: _ => t0
  end.

Definition other_tracks (mid : MidiFile) : list MidiTrack :=
  match tracks mid with
  | [] => []
  | _ :: others => others
  end.

(** The file that is written to [out_mid] for the file read from
    [in_mid]. *)
Definition inject_init_events (params : Params) (mid : MidiFile) : result MidiFile :=
  let t0 := first_track mid in
  let* ins := inserts params t0 in
  save (mkMidiFile (ticks_per_beat mid) (insert_all 0 ins t0 :: other_tracks mid)).

(** An inserted message that repeats nothing the track has at time 0. *)
Definition fresh_in (track : MidiTrack) (msg : Msg) : Prop :=
  match msg with
  | SetTempo _ _ => has_meta_set_tempo_at_0 track = false
  | ProgramChange _ ch _ => has_program_change_at_0 track ch = false
  | _ => False
  end.

(** The channels of the program changes among some messages, and the
    number of tempo events among them. *)
Definition program_channels (msgs : list Msg) : list Z :=
  omap (fun m => match m with ProgramChange _ ch _ => Some ch | _ => None end) msgs.

Definition tempo_count (msgs : list Msg) : nat :=
  length (filter (fun m => is_set_tempo m = true) msgs).

(** Parameters whose drum channel is not one of the melodic channels,
    as with the defaults. *)
Definition drum_apart (params : Params) : Prop :=
  match drum_midi_channel params with
  | Some d => ~ (0 <= d < max_melodic_channels params)
  | None => True
  end.

(** A [set_tempo] at absolute tick 0 of a track. *)
Definition has_set_tempo_at_tick_0 (track : MidiTrack) : bool :=
  existsb (fun x : Z * Msg => (x.1 =? 0) && is_set_tempo x.2) (absolute track).

(** A track with no [end_of_track] before its last message, as every
    track is that [save] has written. *)
Fixpoint end_of_track_last (track : MidiTrack) : bool :=
  match track with
  | [] => true
  | msg :: track' =>
      match track' with
      | [] => true
      | _ => negb (is_end_of_track msg) && end_of_track_last track'
      end
  end.

(** A track that has an [end_of_track] followed by a [set_tempo] of
    delta time 0. *)
Definition track_with_inner_end : MidiTrack :=
  [NoteOn 0 0 60 90; NoteOff 5 0 60 0; EndOfTrack 5; SetTempo 0 500000; EndOfTrack 0].

End Injector.

(* ===================================================================== *)
(** ** drum_remap.py *)
(* ===================================================================== *)

Module DrumRemap.
Import Py Models.

Definition GM_NOTE_TO_NAME : list (Z * string) :=
  [(27, "High Q"); (35, "Acoustic Bass Drum"); (36, "Bass Drum 1");
   (38, "Acoustic Snare"); (39, "Hand Clap"); (40, "Electric Snare");
   (42, "Closed Hi-Hat"); (46, "Open Hi-Hat"); (49, "Crash Cymbal 1");
   (55, "Splash/Crash (alt)"); (57, "Crash Cymbal 2")].

(** GM drum note to the category wanted in the target drumset, in the
    order of the dictionary display. *)
Definition GM_NOTE_TO_CATEGORY : list (Z * string) :=
  [(35, "kick"); (36, "kick"); (38, "snare"); (40, "snare"); (39, "clap");
   (42, "hihat"); (46, "hihat"); (49, "crash"); (55, "crash"); (57, "crash")].

(** The dictionary literal inside [_preferred_rs_note]. *)
Definition PREFERRED : list (string * Z) :=
  [("kick", 36); ("snare", 38); ("hihat", 42); ("crash", 55); ("clap", 39);
   ("tom", 45); ("bell", 53); ("shaker", 54)].

(** [d.get(k)] for a dictionary literal given by its items. *)
Fixpoint assoc {K V} `{EqDecision K} (k : K) (items : list (K * V)) : option V :=
  match items with
  | [] => None
  | (k', v) :: items' => if decide (k' = k) then Some v else assoc k items'
  end.

(** ASCII view of [str.lower]. *)
Definition lower_char (c : ascii) : ascii :=
  let n := nat_of_ascii c in
  if (65 <=? n)%nat && (n <=? 90)%nat then ascii_of_nat (n + 32) else c.

Fixpoint lower (s : string) : string :=
  match s with
  | EmptyString => EmptyString
  | String c s' => String (lower_char c) (lower s')
  end.

Definition is_close_paren (c : ascii) : bool := bool_decide (c = ")"%char).
Definition is_open_paren (c : ascii) : bool := bool_decide (c = "("%char).

Fixpoint has_close_paren (s : string) : bool :=
  match s with
  | EmptyString => false
  | String c s' => is_close_paren c || has_close_paren s'
  end.

(** The first [re.sub] of [_norm], which deletes every parenthesised
    group: an opening parenthesis that is followed by a closing one
    somewhere is dropped with everything up to the first closing one;
    [inside] is true between the two. *)
Fixpoint drop_parenthesised (inside : bool) (s : string) : string :=
  match s with
  | EmptyString => EmptyString
  | String c s' =>
      if inside then
        if is_close_paren c then drop_parenthesised false s'
        else drop_parenthesised true s'
      else if is_open_paren c && has_close_paren s' then drop_parenthesised true s'
      else String c (drop_parenthesised false s')
  end.

(** [[a-z0-9]] *)
Definition is_lower_alnum (c : ascii) : bool :=
  let n := nat_of_ascii c in
  ((97 <=? n)%nat && (n <=? 122)%nat) || ((48 <=? n)%nat && (n <=? 57)%nat).

(** The second [re.sub] of [_norm], which replaces every run of
    characters other than a-z and 0-9 by one space; [in_run] is true
    after a character of the run that is being replaced. *)
Fixpoint blank_runs (in_run : bool) (s : string) : string :=
  match s with
  | EmptyString => EmptyString
  | String c s' =>
      if is_lower_alnum c then String c (blank_runs false s')
      else if in_run then blank_runs true s'
      else String " " (blank_runs true s')
  end.

Definition starts_word (s : string) : bool :=
  match s with
  | String c _ => negb (is_space c)
  | EmptyString => false
  end.

(** [s.split()] *)
Fixpoint split (s : string) : list string :=
  match s with
  | EmptyString => []
  | String c s' =>
      if is_space c then split s'
      else if starts_word s' then
        match split s' with
        | w :: ws => String c w :: ws
        | [] => [String c EmptyString]
        end
      else String c EmptyString :: split s'
  end.

Definition _norm (s : string) : string :=
  let s := strip (lower s) in
  let s := drop_parenthesised false s in
  let s := blank_runs false s in
  join " " (split s).

(** [config.DrumDef] *)
Record DrumDef := mkDrum {
  midi_note : Z;
  name : string;
  category : option string;
  symbol : option string;
  index : option Z
}.

(** The target drumset: the items of [rs_drums_by_note] in insertion
    order, each key already an integer as in [AppConfig.drums_by_note]. *)
Definition Drumset : Type := list (Z * DrumDef).

(** The category under which an entry is collected, if it is. *)
Definition eligible (info : DrumDef) : option string :=
  let name := name info in
  let cat := default EmptyString (category info) in
  if negb (nonempty name) || negb (nonempty cat) then None
  else if bool_decide (cat = "empty") || bool_decide (_norm name = "empty slot") then None
  else Some cat.

Definition collect (m : gmap string (list Z)) (item : Z * DrumDef)
  : gmap string (list Z) :=
  match eligible item.2 with
  | Some cat => <[cat := default [] (m !! cat) ++ [item.1]]> m
  | None => m
  end.

Definition _build_rs_category_to_notes (rs_drums_by_note : Drumset)
  : gmap string (list Z) :=
  sorted_ints <$> fold_left collect rs_drums_by_note ∅.

Definition _preferred_rs_note (cat : string) (cat_to_notes : gmap string (list Z))
  : option Z :=
  match default [] (cat_to_notes !! cat) with
  | [] => None
  | first :: rest =>
      match assoc cat PREFERRED with
      | Some preferred =>
          if bool_decide (preferred ∈ first :: rest) then Some preferred
          else Some first
      | None => Some first
      end
  end.

Definition assign (cat_to_pref : gmap string Z) (m : gmap Z Z) (item : Z * string)
  : gmap Z Z :=
  match cat_to_pref !! item.2 with
  | Some rs_note => <[item.1 := rs_note]> m
  | None => m
  end.

Definition _build_gm_to_rs (rs_drums_by_note : Drumset) : gmap Z Z :=
  let cat_to_notes := _build_rs_category_to_notes rs_drums_by_note in
  let cat_to_pref : gmap string Z :=
    map_imap (fun cat _ => _preferred_rs_note cat cat_to_notes) cat_to_notes in
  fold_left (assign cat_to_pref) GM_NOTE_TO_CATEGORY ∅.

(** The note [n] as the current iteration leaves it, in front of what the
    rest of the loop returns. *)
Definition leave {R} (n : NoteEvent) (r : list NoteEvent * R) : list NoteEvent * R :=
  (n :: r.1, r.2).

(** The loop over [notes]: the notes after the loop, [changed] and
    [unmapped]. *)
Fixpoint remap_loop (gm_to_rs : gmap Z Z) (rs_valid : gset Z)
    (ns : list NoteEvent) (changed : Z) (unmapped : gset Z)
  : list NoteEvent * (Z * gset Z) :=
  match ns with
  | [] => ([], (changed, unmapped))
  | n :: ns' =>
      if decide (channel n ≠ 9) then
        leave n (remap_loop gm_to_rs rs_valid ns' changed unmapped)
      else
        match gm_to_rs !! pitch n with
        | Some new_pitch =>
            if decide (new_pitch ≠ pitch n) then
              leave (set_pitch n new_pitch)
                    (remap_loop gm_to_rs rs_valid ns' (changed + 1) unmapped)
            else leave n (remap_loop gm_to_rs rs_valid ns' changed unmapped)
        | None =>
            if decide (pitch n ∈ rs_valid) then
              leave n (remap_loop gm_to_rs rs_valid ns' changed unmapped)
            else
              leave n (remap_loop gm_to_rs rs_valid ns' changed ({[pitch n]} ∪ unmapped))
        end
  end.

(** The notes after the call and the returned pair; [keep_unmapped] has
    no effect in the function. *)
Definition remap_channel_9_notes_in_place (ns : list NoteEvent)
    (rs_drums_by_note : Drumset) (keep_unmapped : bool)
  : list NoteEvent * (Z * gset Z) :=
  let gm_to_rs := _build_gm_to_rs rs_drums_by_note in
  let rs_valid : gset Z := list_to_set (map fst rs_drums_by_note) in
  remap_loop gm_to_rs rs_valid ns 0 ∅.

(** *** Vocabulary for the statements about the remapper *)

(** The note one iteration of the loop leaves in the list. *)
Definition remapped (gm_to_rs : gmap Z Z) (n : NoteEvent) : NoteEvent :=
  if decide (channel n = 9) then
    match gm_to_rs !! pitch n with
    | Some new_pitch => set_pitch n new_pitch
    | None => n
    end
  else n.

(** Every note of a category list comes from a collected entry of that
    category of the drumset [all]. *)
Definition sound (all : Drumset) (m : gmap string (list Z)) : Prop :=
  forall cat l q, m !! cat = Some l -> In q l ->
    exists info, In (q, info) all /\ eligible info = Some cat.



(** A drumset in the GM layout, with an unused slot. *)
Definition plain_drumset : Drumset :=
  [(36, mkDrum 36 "Kick" (Some "kick"%string) None None);
   (38, mkDrum 38 "Snare" (Some "snare"%string) None None);
   (41, mkDrum 41 "Empty Slot" (Some "tom"%string) None None);
   (46, mkDrum 46 "Open Hat" (Some "hihat"%string) None None)].

End DrumRemap.

(* ===================================================================== *)
(** ** midi_editor/__init__.py: the unguarded injector of the package *)
(* ===================================================================== *)

Module Package.
Import Py Mido.

(** The keyword arguments of the package-level [inject_init_events]. *)
Record Params := mkParams {
  tempo_bpm : Z;
  program_base : Z;
  max_melodic_channels : Z
}.

Definition default_params : Params := mkParams 120 1 9.

(** The loop [for ch in range(max_melodic_channels)] with its
    [mid.tracks[0].insert(1 + ch, pc)]. *)
Fixpoint insert_programs (params : Params) (chs : list Z) (t0 : MidiTrack)
  : result MidiTrack :=
  match chs with
  | [] => ret t0
  | ch :: chs' =>
      let* pc := new_program_change ch (program_base params + ch) 0 in
      insert_programs params chs' (Injector.list_insert_at (Z.to_nat (1 + ch)) pc t0)
  end.

Definition inject_init_events (params : Params) (mid : MidiFile) : result MidiFile :=
  let t0 := Injector.first_track mid in
  let* tempo := bpm2tempo (tempo_bpm params) in
  let* tempo_msg := new_set_tempo tempo 0 in
  let t0 := Injector.list_insert_at 0 tempo_msg t0 in
  let* t0 := insert_programs params (Injector.range (max_melodic_channels params)) t0 in
  save (mkMidiFile (ticks_per_beat mid) (t0 :: Injector.other_tracks mid)).

End Package.

(* ===================================================================== *)
(** ** gui/ui_main.py: what the main window does to the project *)
(* ===================================================================== *)

Module Gui.
Import Py Mido Models MidiIO.


(** [MainWindow._filtered_project_copy], for the set [muted] that is read
    from the check boxes of the channel table: the project that is
    returned.  The method also stores [muted] in the project of the
    window, which no function of this development reads. *)
Definition _filtered_project_copy (muted : gset Z) (p : MidiProject) : MidiProject :=
  mkProject (Models.ticks_per_beat p)
            (filter (fun n => channel n ∉ muted) (notes p))
            (channel_instrument_id p)
            (Models.tempo_bpm p)
            (channel_track_name p)
            muted.

(** The flags [preview_full_song] and [export_assets_dialog] write with. *)
Definition preview_flags : ExportFlags := mkFlags true true false true.

(** The MIDI file [preview_full_song] hands to the converter, for the
    value [bpm] of the tempo spin box, when the user goes on after the
    warnings: the filtered copy is written and the written file is
    injected. *)
Definition preview_midi (bpm : Z) (muted : gset Z) (p : MidiProject)
  : result (MidiFile * list string) :=
  let proj_out := _filtered_project_copy muted p in
  let* written := save_project_to_midi proj_out preview_flags in
  let* injected :=
    Injector.inject_init_events (Injector.mkParams bpm 1 9 (Some 9)) written.1 in
  ret (injected, written.2).

End Gui.

(* ===================================================================== *)
(** ** Vocabulary for further statements about drum_remap.py *)
(* ===================================================================== *)

Module DrumRemapWords.
Import Py Models DrumRemap.

(** The note numbers of the drumset that are collected under a category,
    in the order of the drumset. *)
Definition collected (cat : string) (rs : Drumset) : list Z :=
  map fst (filter (fun it : Z * DrumDef => eligible it.2 = Some cat) rs).

End DrumRemapWords.

(* ===================================================================== *)
(** ** Vocabulary for further statements about midi_io.py *)
(* ===================================================================== *)

Module MidiIOWords.
Import Py Mido Models MidiIO.

(** The name a track gives to its channels: its first [track_name] that
    is not blank, stripped. *)
Fixpoint first_name (tr : MidiTrack) : option string :=
  match tr with
  | [] => None
  | TrackName _ name :: tr' =>
      if nonempty (strip name) then Some (strip name) else first_name tr'
  | _ :: tr' => first_name tr'
  end.

(** The channels the messages of a track carry. *)
Definition track_channels (tr : MidiTrack) : gset Z :=
  list_to_set (omap channel_of tr).

(** The label of a channel in a file: the name of the first track that
    has a name and uses the channel. *)
Fixpoint label_of (ch : Z) (trs : list MidiTrack) : option string :=
  match trs with
  | [] => None
  | tr :: trs' =>
      match (if decide (ch ∈ track_channels tr) then first_name tr else None) with
      | Some l => Some l
      | None => label_of ch trs'
      end
  end.

(** The pending note-ons of [active], each with its key. *)
Definition pendings (a : Active) : list ((Z * Z) * Pending) :=
  flat_map (fun '(k, l) => map (pair k) l) a.

(** The number of note-ons of positive velocity in a track. *)
Definition is_sounding_note_on (m : Msg) : bool :=
  match m with
  | NoteOn _ _ _ vel => 0 <? vel
  | _ => false
  end.

Definition note_on_count (tr : MidiTrack) : nat :=
  length (filter (fun m => is_sounding_note_on m = true) tr).

(** The tick at which a track ends. *)
Definition final_tick (tr : MidiTrack) : Z :=
  fold_left (fun t m => t + time m) tr 0.

(** A message that is neither a note-on nor a note-off and takes no
    time. *)
Definition silent (m : Msg) : Prop :=
  time m = 0 /\ is_note_on m = false /\ is_note_off m = false.

(** Notes among which, on one channel and pitch, a note that starts no
    later than another ends no later: notes that do not overlap, and
    notes that are stacked first in, first out. *)
Definition fifo_consistent (ns : list NoteEvent) : Prop :=
  forall a b, In a ns -> In b ns ->
    channel a = channel b -> pitch a = pitch b ->
    start_tick a <= start_tick b -> end_tick a <= end_tick b.

(** A note that is read back as it was written: of positive velocity (a
    note-on of velocity 0 closes a note), from tick 0 on and of positive
    length. *)
Definition sounding (n : NoteEvent) : Prop :=
  0 < velocity n /\ 0 <= start_tick n < end_tick n.

(** A decoded note on track [t]. *)
Definition on_track (t : Z) (n : NoteEvent) : NoteEvent :=
  mkNote (start_tick n) (end_tick n) (pitch n) (velocity n) (channel n) t.

(** The key of [active] for a note, the two events the encoder makes of
    it, and the entry the decoder keeps while it is open. *)
Definition note_key (n : NoteEvent) : Z * Z := (channel n, pitch n).

Definition note_on_event (n : NoteEvent) : Z * Msg :=
  (start_tick n, NoteOn 0 (channel n) (pitch n) (velocity n)).

Definition note_off_event (n : NoteEvent) : Z * Msg :=
  (end_tick n, NoteOff 0 (channel n) (pitch n) 0).

Definition pending_of (n : NoteEvent) : Pending := (start_tick n, velocity n).

(** [active] holds the open notes [opened], listed in the order they were
    opened: one entry per key, with the key's notes oldest first. *)
Definition stacks_agree (a : Active) (opened : list NoteEvent) : Prop :=
  NoDup (map fst a)
  /\ forall k, default [] (active_get k a)
               = map pending_of (filter (fun n => note_key n = k) opened).

(** An event that is neither a note-on nor a note-off. *)
Definition no_note (ev : Z * Msg) : Prop :=
  is_note_on ev.2 = false /\ is_note_off ev.2 = false.

End MidiIOWords.

(* ===================================================================== *)
(** * Properties *)
(* ===================================================================== *)

Module PyFacts.
Import Py.

Lemma bind_inr {A B} (m : result A) (k : A -> result B) (y : B) :
  bind m k = inr y -> exists x, m = inr x /\ k x = inr y.
Proof. destruct m as [e|x]; simpl; [done|]. intros H. by exists x. Qed.

Lemma range_ok lo hi x : lo <= x <= hi -> (lo <=? x) && (x <=? hi) = true.
Proof. intros H. apply andb_true_iff. split; apply Z.leb_le; lia. Qed.

Lemma range_ok_iff lo hi x : (lo <=? x) && (x <=? hi) = true <-> lo <= x <= hi.
Proof. rewrite andb_true_iff, !Z.leb_le. done. Qed.

Lemma round_div_tempo_range (bpm : Z) :
  30 <= bpm <= 300 -> 200000 <= round_div 60000000 bpm <= 2000001.
Proof.
  intros Hb. unfold round_div.
  replace (bpm <? 0) with false by (symmetry; apply Z.ltb_ge; lia).
  rewrite Z.abs_eq by lia.
  assert (H1 : 200000 <= 60000000 / bpm) by (apply Z.div_le_lower_bound; lia).
  assert (H2 : 60000000 / bpm <= 2000000) by (apply Z.div_le_upper_bound; lia).
  repeat match goal with |- context [if ?b then _ else _] => destruct b end; lia.
Qed.

Lemma bpm_round_trip (b : Z) :
  30 <= b <= 300 -> round_div 60000000 (round_div 60000000 b) = b.
Proof.
  intros Hb.
  assert (Hall : forallb (fun x => round_div 60000000 (round_div 60000000 x) =? x)
                   (map (fun i => 30 + Z.of_nat i) (seq 0 271)) = true)
    by (vm_compute; reflexivity).
  rewrite forallb_forall in Hall. apply Z.eqb_eq, Hall.
  apply in_map_iff. exists (Z.to_nat (b - 30)). split; [lia|].
  apply in_seq. lia.
Qed.

End PyFacts.

Module MidoFacts.
Import Py Mido PyFacts.

Lemma check_inr (b : bool) (u : unit) : check b = inr u -> b = true.
Proof. by destruct b. Qed.

Lemma time_set_time d m : time (set_time d m) = d.
Proof. by destruct m. Qed.

Lemma set_time_set_time d d' m : set_time d (set_time d' m) = set_time d m.
Proof. by destruct m. Qed.

Lemma set_time_time m : set_time (time m) m = m.
Proof. by destruct m. Qed.

Lemma is_note_on_set_time d m : is_note_on (set_time d m) = is_note_on m.
Proof. by destruct m. Qed.

Lemma is_note_off_set_time d m : is_note_off (set_time d m) = is_note_off m.
Proof. by destruct m. Qed.

Lemma is_end_of_track_set_time d m : is_end_of_track (set_time d m) = is_end_of_track m.
Proof. by destruct m. Qed.

(** *** The two tempo conversions *)

Lemma float_limit_large : 16777215 < float_limit.
Proof. by vm_compute. Qed.

Lemma beat_div_inv (x y : Z) :
  beat_div x = inr y -> x <> 0 /\ Z.abs x < float_limit /\ y = round_div 60000000 x.
Proof.
  unfold beat_div. destruct (Z.eqb_spec x 0) as [|Hx]; [done|].
  destruct (Z.leb_spec float_limit (Z.abs x)) as [|Hl]; [done|].
  intros [= <-]. done.
Qed.

Lemma beat_div_small (x : Z) :
  x <> 0 -> Z.abs x < float_limit -> beat_div x = inr (round_div 60000000 x).
Proof.
  intros Hx Hl. unfold beat_div.
  destruct (Z.eqb_spec x 0) as [|_]; [done|].
  destruct (Z.leb_spec float_limit (Z.abs x)) as [|_]; [lia|done].
Qed.

Lemma beat_div_returns (x : Z) :
  (exists y, beat_div x = inr y) <-> x <> 0 /\ Z.abs x < float_limit.
Proof.
  split.
  - intros [y (H1 & H2 & _)%beat_div_inv]. done.
  - intros [H1 H2]. rewrite beat_div_small by done. by eexists.
Qed.

(** The quotient that is returned is the integer nearest to
    [60000000 / x], the even one of two that are equally near. *)
Lemma round_div_nearest (n d : Z) :
  d <> 0 ->
  2 * Z.abs (round_div n d * d - n) <= Z.abs d
  /\ (2 * Z.abs (round_div n d * d - n) = Z.abs d -> Z.even (round_div n d) = true).
Proof.
  intros Hd. unfold round_div.
  set (n' := if d <? 0 then - n else n).
  assert (Hpos : 0 < Z.abs d) by lia.
  pose proof (Z.div_mod n' (Z.abs d) ltac:(lia)) as Hdm.
  pose proof (Z.mod_pos_bound n' (Z.abs d) Hpos) as Hr.
  set (q := n' / Z.abs d) in *. set (r := n' mod Z.abs d) in *.
  assert (Hn : forall b, Z.abs (b * d - n) = Z.abs (b * Z.abs d - n')).
  { intros b. unfold n'. destruct (Z.ltb_spec d 0); [|rewrite (Z.abs_eq d) by lia; done].
    rewrite (Z.abs_neq d) by lia.
    replace (b * - d - - n) with (- (b * d - n)) by lia. by rewrite Z.abs_opp. }
  destruct (Z.ltb_spec (2 * r) (Z.abs d)) as [H1|H1].
  { rewrite Hn. replace (q * Z.abs d - n') with (- r) by lia.
    rewrite Z.abs_opp, Z.abs_eq by lia. split; lia. }
  destruct (Z.ltb_spec (Z.abs d) (2 * r)) as [H2|H2].
  { rewrite Hn. replace ((q + 1) * Z.abs d - n') with (Z.abs d - r) by lia.
    rewrite (Z.abs_eq (Z.abs d - r)) by lia. split; lia. }
  destruct (Z.even q) eqn:Eq.
  - rewrite Hn. replace (q * Z.abs d - n') with (- r) by lia.
    rewrite Z.abs_opp, Z.abs_eq by lia. split; [lia|done].
  - rewrite Hn. replace ((q + 1) * Z.abs d - n') with (Z.abs d - r) by lia.
    rewrite (Z.abs_eq (Z.abs d - r)) by lia. split; [lia|].
    intros _. rewrite Z.even_add, Eq. done.
Qed.

(** There is one such integer. *)
Lemma nearest_unique (n d b b' : Z) :
  d <> 0 ->
  2 * Z.abs (b * d - n) <= Z.abs d ->
  (2 * Z.abs (b * d - n) = Z.abs d -> Z.even b = true) ->
  2 * Z.abs (b' * d - n) <= Z.abs d ->
  (2 * Z.abs (b' * d - n) = Z.abs d -> Z.even b' = true) ->
  b = b'.
Proof.
  intros Hd H1 E1 H2 E2.
  assert (Hclose : Z.abs (b - b') <= 1) by nia.
  destruct (Z.eq_dec b b') as [|Hne]; [done|exfalso].
  assert (Hb : b' = b + 1 \/ b' = b - 1) by lia.
  assert (Ht1 : 2 * Z.abs (b * d - n) = Z.abs d) by (destruct Hb; subst b'; nia).
  assert (Ht2 : 2 * Z.abs (b' * d - n) = Z.abs d) by (destruct Hb; subst b'; nia).
  specialize (E1 Ht1). specialize (E2 Ht2).
  destruct Hb; subst b'.
  - rewrite Z.even_add, E1 in E2. done.
  - rewrite Z.even_sub, E1 in E2. done.
Qed.

(** *** [fix_end_of_track] and [save] *)

Lemma fix_cons_keep (a : Z) (m : Msg) (tr : MidiTrack) :
  is_end_of_track m = false ->
  fix_end_of_track a (m :: tr) = set_time (a + time m) m :: fix_end_of_track 0 tr.
Proof. by destruct m. Qed.

(** Messages in front of the first [end_of_track] are written as they
    are. *)
Lemma fix_app_keep (pre : MidiTrack) : forall tr : MidiTrack,
  Forall (fun m => is_end_of_track m = false) pre ->
  fix_end_of_track 0 (pre ++ tr) = pre ++ fix_end_of_track 0 tr.
Proof.
  induction pre as [|m pre IH]; intros tr Hall; [done|].
  apply Forall_cons in Hall as [Hm Hall].
  rewrite <- app_comm_cons, fix_cons_keep by done.
  rewrite Z.add_0_l, set_time_time, IH by done. done.
Qed.

(** A track that ends with its only [end_of_track] is written as it
    is. *)
Lemma fix_ends_once (body : MidiTrack) (d : Z) :
  Forall (fun m => is_end_of_track m = false) body ->
  fix_end_of_track 0 (body ++ [EndOfTrack d]) = body ++ [EndOfTrack d].
Proof. intros Hall. rewrite fix_app_keep by done. done. Qed.

Lemma fix_fix (tr : MidiTrack) : forall a : Z,
  fix_end_of_track 0 (fix_end_of_track a tr) = fix_end_of_track a tr.
Proof.
  induction tr as [|m tr IH]; intros a; [done|].
  destruct (is_end_of_track m) eqn:E.
  - destruct m; try done. simpl. apply IH.
  - rewrite (fix_cons_keep a m tr E).
    rewrite fix_cons_keep by (by rewrite is_end_of_track_set_time).
    by rewrite time_set_time, set_time_set_time, Z.add_0_l, IH.
Qed.


Lemma times_ok_Forall (trs : list MidiTrack) :
  forallb (forallb time_ok) trs = true
  <-> Forall (Forall (fun m => 0 <= time m)) trs.
Proof.
  rewrite forallb_forall, List.Forall_forall.
  split; intros H tr Htr; specialize (H tr Htr).
  - rewrite forallb_forall in H. apply List.Forall_forall. intros m Hm.
    apply Z.leb_le. by apply H.
  - rewrite List.Forall_forall in H. apply forallb_forall. intros m Hm.
    apply Z.leb_le. by apply H.
Qed.

Lemma header_ok_iff (mid : MidiFile) :
  header_ok mid = true
  <-> Z.of_nat (length (tracks mid)) <= 32767 /\ -32768 <= ticks_per_beat mid <= 32767.
Proof.
  unfold header_ok, short_ok. rewrite !andb_true_iff, !Z.leb_le. lia.
Qed.

Lemma save_inv (mid out : MidiFile) :
  save mid = inr out ->
  header_ok mid = true
  /\ Forall (Forall (fun m => 0 <= time m)) (map (fix_end_of_track 0) (tracks mid))
  /\ out = mkMidiFile (ticks_per_beat mid) (map (fix_end_of_track 0) (tracks mid)).
Proof.
  unfold save. destruct (header_ok mid); [|done].
  intros H. apply bind_inr in H as (u & Hu%check_inr & H). injection H as <-.
  by apply times_ok_Forall in Hu.
Qed.

Lemma save_returns (mid : MidiFile) :
  header_ok mid = true ->
  Forall (Forall (fun m => 0 <= time m)) (map (fix_end_of_track 0) (tracks mid)) ->
  save mid = inr (mkMidiFile (ticks_per_beat mid) (map (fix_end_of_track 0) (tracks mid))).
Proof.
  intros Hh Ht. unfold save. rewrite Hh.
  apply times_ok_Forall in Ht. by rewrite Ht.
Qed.

(** Saving a file that was saved writes the same file. *)
Lemma save_saved (mid out : MidiFile) : save mid = inr out -> save out = inr out.
Proof.
  intros (Hh & Ht & ->)%save_inv.
  rewrite save_returns; simpl.
  - f_equal. f_equal. rewrite map_map. apply map_ext. intros tr. apply fix_fix.
  - apply header_ok_iff in Hh. apply header_ok_iff. simpl. by rewrite length_map.
  - rewrite map_map.
    erewrite map_ext; [exact Ht|]. intros tr. apply fix_fix.
Qed.

(** A file of one track that ends with its only [end_of_track] and has
    no negative delta time is written as it is. *)
Lemma save_one_track (tpb : Z) (body : MidiTrack) (d : Z) :
  Forall (fun m => is_end_of_track m = false) body ->
  Forall (fun m => 0 <= time m) body -> 0 <= d ->
  save (mkMidiFile tpb [body ++ [EndOfTrack d]])
  = if short_ok tpb then inr (mkMidiFile tpb [body ++ [EndOfTrack d]])
    else inl StructError.
Proof.
  intros Hb Ht Hd. unfold save, header_ok. simpl.
  destruct (short_ok tpb); [|done].
  rewrite fix_ends_once by done.
  assert (Hok : forallb time_ok (body ++ [EndOfTrack d]) = true).
  { apply forallb_forall. intros m Hm. apply Z.leb_le.
    apply in_app_iff in Hm as [Hm|[<-|[]]]; [|done].
    rewrite List.Forall_forall in Ht. by apply Ht. }
  rewrite Hok. done.
Qed.

End MidoFacts.

Module ModelsFacts.
Import Models.

Lemma swap_note_involutive (a b : Z) (n : NoteEvent) :
  a ≠ b -> swap_note a b (swap_note a b n) = n.
Proof.
  intros Hab. destruct n as [s e p v c t]. unfold swap_note, set_channel; simpl.
  repeat (case_decide; simpl in *; subst); try congruence.
Qed.

Lemma lookup_put_or_pop {V} (k j : Z) (v : option V) (m : gmap Z V) :
  put_or_pop k v m !! j = if decide (k = j) then v else m !! j.
Proof.
  unfold put_or_pop, pop. destruct v.
  - rewrite lookup_insert. by case_decide.
  - rewrite lookup_delete. by case_decide.
Qed.

Lemma lookup_swap_entries {V} (a b j : Z) (m : gmap Z V) :
  a ≠ b ->
  swap_entries a b m !! j =
    if decide (j = a) then m !! b else if decide (j = b) then m !! a else m !! j.
Proof.
  intros Hab. unfold swap_entries. rewrite !lookup_put_or_pop.
  repeat case_decide; subst; congruence.
Qed.

Lemma swap_entries_involutive {V} (a b : Z) (m : gmap Z V) :
  a ≠ b -> swap_entries a b (swap_entries a b m) = m.
Proof.
  intros Hab. apply map_eq. intros j.
  rewrite lookup_swap_entries by done.
  repeat case_decide; subst; rewrite lookup_swap_entries by done;
    repeat case_decide; congruence.
Qed.

End ModelsFacts.

Module ModelsSpec.
Import Models ModelsFacts.

(** C6. Swapping two channels twice gives the project back: the channel
    of every note, the instrument map and the label map are the ones the
    project started with, entries and missing entries alike.  After one
    swap of two distinct channels each map holds at [a] what it held at
    [b] and at [b] what it held at [a], an entry or none, and is
    unchanged elsewhere. *)
Theorem swap_channels_twice_restores (a b : Z) (p : MidiProject) :
  swap_channels a b (swap_channels a b p) = p
  /\ (a ≠ b ->
      forall j : Z,
        channel_instrument_id (swap_channels a b p) !! j =
          (if decide (j = a) then channel_instrument_id p !! b
           else if decide (j = b) then channel_instrument_id p !! a
           else channel_instrument_id p !! j)
        /\ channel_track_name (swap_channels a b p) !! j =
          (if decide (j = a) then channel_track_name p !! b
           else if decide (j = b) then channel_track_name p !! a
           else channel_track_name p !! j)).
Proof.
  split.
  - unfold swap_channels. destruct (decide (a = b)) as [->|Hab].
    + done.
    + destruct p as [tpb ns ids bpm names muted]; simpl.
      f_equal.
      * rewrite map_map. rewrite <- (map_id ns) at 2.
        apply map_ext. intros n. by apply swap_note_involutive.
      * by apply swap_entries_involutive.
      * by apply swap_entries_involutive.
  - intros Hab j. unfold swap_channels. rewrite decide_False by done. simpl.
    split; by apply lookup_swap_entries.
Qed.

Lemma swap_channels_twice_restores_witness :
  let p := mkProject 480 [mkNote 0 10 60 90 2 0; mkNote 0 10 62 90 5 0; mkNote 3 9 40 1 7 0]
                     {[ 2 := 11 ]} 120 {[ 5 := "lead"%string ]} {[ 2 ]} in
  swap_channels 2 5 (swap_channels 2 5 p) = p
  /\ channel_instrument_id (swap_channels 2 5 p) !! 2 = None
  /\ channel_instrument_id (swap_channels 2 5 p) !! 5 = Some 11.
Proof.
  intros p. destruct (swap_channels_twice_restores 2 5 p) as [H1 H2].
  split; [exact H1|].
  assert (Hne : (2:Z) ≠ 5) by lia.
  split.
  - destruct (H2 Hne 2) as [-> _]. vm_compute. reflexivity.
  - destruct (H2 Hne 5) as [-> _]. vm_compute. reflexivity.
Defined.

(** C10. [delete_channel], [merge_channel_into] and [swap_channels]
    leave [ticks_per_beat], [tempo_bpm] and [muted_channels] as they
    are; a deleted channel that was muted is still in [muted_channels]. *)
Theorem channel_operations_frame (p : MidiProject) (ch src dst a b : Z) :
  (ticks_per_beat (delete_channel ch p) = ticks_per_beat p
   /\ tempo_bpm (delete_channel ch p) = tempo_bpm p
   /\ muted_channels (delete_channel ch p) = muted_channels p)
  /\ (ticks_per_beat (merge_channel_into src dst p) = ticks_per_beat p
   /\ tempo_bpm (merge_channel_into src dst p) = tempo_bpm p
   /\ muted_channels (merge_channel_into src dst p) = muted_channels p)
  /\ (ticks_per_beat (swap_channels a b p) = ticks_per_beat p
   /\ tempo_bpm (swap_channels a b p) = tempo_bpm p
   /\ muted_channels (swap_channels a b p) = muted_channels p)
  /\ (ch ∈ muted_channels p <-> ch ∈ muted_channels (delete_channel ch p)).
Proof.
  repeat split; try done.
  all: unfold merge_channel_into, swap_channels; by case_decide.
Qed.

Lemma channel_operations_frame_witness :
  let p := mkProject 480 [mkNote 0 10 60 90 3 0] {[ 3 := 7 ]} 150 ∅ {[ 3 ]} in
  3 ∈ muted_channels (delete_channel 3 p)
  /\ tempo_bpm (swap_channels 3 4 p) = 150.
Proof.
  intros p.
  destruct (channel_operations_frame p 3 3 4 3 4) as (_ & _ & (_ & Hbpm & _) & Hmuted).
  split.
  - apply Hmuted. vm_compute. reflexivity.
  - rewrite Hbpm. reflexivity.
Defined.

End ModelsSpec.

Module DecoderFacts.
Import Py Mido Models MidiIO.

Lemma active_get_set (key : Z * Z) (l l0 : list Pending) (a : Active) :
  active_get key a = Some l0 -> active_get key (active_set key l a) = Some l.
Proof.
  induction a as [|[k l1] a IH]; simpl; [done|].
  destruct (decide (k = key)) as [->|Hk]; simpl.
  - intros _. by rewrite decide_True.
  - intros H. rewrite decide_False by done. auto.
Qed.

Lemma active_get_append (key : Z * Z) (x : Pending) (a : Active) :
  active_get key (active_append key x a) = Some (default [] (active_get key a) ++ [x]).
Proof.
  induction a as [|[k l1] a IH]; simpl.
  - by rewrite decide_True.
  - destruct (decide (k = key)) as [->|Hk]; simpl.
    + by rewrite decide_True.
    + by rewrite decide_False.
Qed.

Lemma close_note_positive t_idx now ch p a ns :
  Forall positive_duration ns ->
  Forall positive_duration (acc_notes (close_note t_idx now ch p a ns)).
Proof.
  intros Hns. unfold close_note.
  destruct (active_get (ch, p) a) as [[|[start vel] rest]|]; simpl; try done.
  destruct (start <? now) eqn:E; [|done].
  apply Forall_app. split; [done|]. constructor; [|constructor].
  unfold positive_duration; simpl. lia.
Qed.

Lemma decode_msg_positive t_idx st msg :
  Forall positive_duration (acc_notes st) ->
  Forall positive_duration (acc_notes (decode_msg t_idx st msg)).
Proof.
  intros H. unfold decode_msg.
  destruct msg as [t c n v|t c n v| | | | | | |]; simpl; try done.
  - destruct (0 <? v); [done|]. destruct (v =? 0); [|done].
    by apply close_note_positive.
  - by apply close_note_positive.
Qed.

Lemma decode_fold_positive t_idx tr st :
  Forall positive_duration (acc_notes st) ->
  Forall positive_duration (acc_notes (fold_left (decode_msg t_idx) tr st)).
Proof.
  revert st. induction tr as [|m tr IH]; intros st H; simpl; [done|].
  apply IH. by apply decode_msg_positive.
Qed.

Lemma close_stuck_end t_idx final a n :
  In n (close_stuck t_idx final a) ->
  end_tick n = Z.max (start_tick n + 1) final /\ track_index n = t_idx.
Proof.
  unfold close_stuck. rewrite in_flat_map.
  intros ([[ch p] stack] & _ & Hn). apply in_map_iff in Hn.
  destruct Hn as ([start vel] & <- & _). simpl. done.
Qed.

Lemma close_stuck_positive t_idx final a :
  Forall positive_duration (close_stuck t_idx final a).
Proof.
  apply List.Forall_forall. intros n Hn.
  apply close_stuck_end in Hn as [Hn _]. unfold positive_duration. lia.
Qed.

Lemma decode_track_positive t_idx tr ns :
  Forall positive_duration ns -> Forall positive_duration (decode_track t_idx tr ns).
Proof.
  intros H. unfold decode_track. apply Forall_app. split.
  - by apply decode_fold_positive.
  - apply close_stuck_positive.
Qed.

Lemma decode_tracks_positive trs : forall t_idx ns,
  Forall positive_duration ns -> Forall positive_duration (decode_tracks t_idx trs ns).
Proof.
  induction trs as [|tr trs IH]; intros t_idx ns H; simpl; [done|].
  apply IH. by apply decode_track_positive.
Qed.

Lemma load_notes mid p :
  load_midi_as_notes mid = inr p -> notes p = decode_tracks 0 (tracks mid) [].
Proof.
  unfold load_midi_as_notes. destruct (_extract_tempo_bpm mid); simpl; [done|].
  intros [= <-]. done.
Qed.

End DecoderFacts.

Module DecoderSpec.
Import Py Mido Models MidiIO DecoderFacts.

(** C1. A note-off, or a note-on of velocity 0, for a key with pending
    note-ons removes the oldest of them, the head of the list to whose
    end every note-on of the key is appended, and a note is emitted
    exactly when the removed start tick is below the current tick.
    Three note-ons at ticks 0, 10, 20 and three note-offs at ticks 5, 15,
    25 on one key decode to the notes (0,5), (10,15), (20,25), with the
    events in time order and with the three note-ons first; three
    note-ons followed by note-offs at ticks 25, 30, 35 are paired first
    in, first out. *)
Theorem note_off_pops_oldest_pending :
  (forall t_idx st msg ch pitch start vel rest,
     closing_key msg = Some (ch, pitch) ->
     active_get (ch, pitch) (active st) = Some ((start, vel) :: rest) ->
     let now := abs_tick st + time msg in
     let st' := decode_msg t_idx st msg in
     abs_tick st' = now
     /\ active_get (ch, pitch) (active st') = Some rest
     /\ acc_notes st' =
          (if start <? now
           then acc_notes st ++ [mkNote start now pitch vel ch t_idx]
           else acc_notes st))
  /\ (forall t_idx st t ch pitch vel,
        0 < vel ->
        active_get (ch, pitch) (active (decode_msg t_idx st (NoteOn t ch pitch vel))) =
          Some (default [] (active_get (ch, pitch) (active st)) ++ [(abs_tick st + t, vel)]))
  /\ decode_tracks 0 [three_notes_in_time_order] [] =
       [mkNote 0 5 60 100 0 0; mkNote 10 15 60 101 0 0; mkNote 20 25 60 102 0 0]
  /\ decode_tracks 0 [three_notes_offs_after] [] =
       [mkNote 0 5 60 100 0 0; mkNote 10 15 60 101 0 0; mkNote 20 25 60 102 0 0]
  /\ decode_tracks 0 [three_notes_stacked] [] =
       [mkNote 0 25 60 100 0 0; mkNote 10 30 60 101 0 0; mkNote 20 35 60 102 0 0].
Proof.
  split; [|split; [|repeat split; reflexivity]].
  - intros t_idx st msg ch pitch start vel rest Hkey Hget now st'.
    assert (Hst' : st' = close_note t_idx now ch pitch (active st) (acc_notes st)).
    { subst st' now. unfold decode_msg.
      destruct msg as [t c n v|t c n v| | | | | | |]; simpl in Hkey; try done.
      - destruct (v =? 0) eqn:E; [|done]. injection Hkey as -> ->.
        apply Z.eqb_eq in E as ->. done.
      - by injection Hkey as -> ->. }
    rewrite Hst'. unfold close_note. rewrite Hget. simpl.
    split; [done|]. split; [|done].
    by eapply active_get_set.
  - intros t_idx st t ch pitch vel Hvel. unfold decode_msg.
    apply Z.ltb_lt in Hvel. rewrite Hvel. simpl.
    apply active_get_append.
Qed.

Lemma note_off_pops_oldest_pending_witness :
  let st := mkDecode 20 [((0, 60), [(0, 100); (10, 101); (20, 102)])] [] in
  let st' := decode_msg 0 st (NoteOff 5 0 60 0) in
  active_get (0, 60) (active st') = Some [(10, 101); (20, 102)]
  /\ acc_notes st' = [mkNote 0 25 60 100 0 0].
Proof.
  intros st st'.
  destruct note_off_pops_oldest_pending as [H _].
  destruct (H 0 st (NoteOff 5 0 60 0) 0 60 0 100 [(10, 101); (20, 102)]
              eq_refl eq_refl) as (_ & Hact & Hns).
  split; [exact Hact | exact Hns].
Defined.

(** C2. Every note of a decoded file ends after it starts.  A pairing
    whose note-off is not after its note-on emits nothing, and each
    note-on that is still pending at the end of its track is closed at
    the larger of its start tick plus one and the final tick of the
    track. *)
Theorem decoded_notes_have_positive_duration (mid : MidiFile) :
  Forall positive_duration (decode_tracks 0 (tracks mid) [])
  /\ (forall p, load_midi_as_notes mid = inr p -> Forall positive_duration (notes p))
  /\ (forall t_idx now ch pitch a ns start vel rest,
        active_get (ch, pitch) a = Some ((start, vel) :: rest) ->
        now <= start ->
        acc_notes (close_note t_idx now ch pitch a ns) = ns)
  /\ (forall t_idx tr ns,
        let st := fold_left (decode_msg t_idx) tr (mkDecode 0 [] ns) in
        decode_track t_idx tr ns = acc_notes st ++ close_stuck t_idx (abs_tick st) (active st)
        /\ length (close_stuck t_idx (abs_tick st) (active st))
             = length (concat (map snd (active st)))
        /\ forall n, In n (close_stuck t_idx (abs_tick st) (active st)) ->
             end_tick n = Z.max (start_tick n + 1) (abs_tick st)).
Proof.
  split; [|split; [|split]].
  - apply decode_tracks_positive. constructor.
  - intros p Hp. rewrite (load_notes _ _ Hp). apply decode_tracks_positive. constructor.
  - intros t_idx now ch pitch a ns start vel rest Hget Hle.
    unfold close_note. rewrite Hget. simpl.
    destruct (start <? now) eqn:E; [|done]. apply Z.ltb_lt in E. lia.
  - intros t_idx tr ns st. split; [done|]. split.
    + unfold close_stuck. generalize (active st). intros a.
      induction a as [|[[ch p] stack] a IH]; simpl; [done|].
      rewrite !length_app, length_map. by rewrite IH.
    + intros n Hn. by apply close_stuck_end in Hn as [Hn _].
Qed.

Lemma decoded_notes_have_positive_duration_witness :
  exists p,
    load_midi_as_notes file_with_stuck_note = inr p
    /\ Forall positive_duration (notes p)
    /\ notes p = [mkNote 3 4 62 90 1 0].
Proof.
  eexists. split; [reflexivity|]. split.
  - apply (decoded_notes_have_positive_duration file_with_stuck_note). reflexivity.
  - reflexivity.
Defined.

End DecoderSpec.

Module SortFacts.
Import Py.

Section StableSort.
Context {A : Type} (leb : A -> A -> bool).
Hypothesis leb_total : forall x y, leb x y = true \/ leb y x = true.
Hypothesis leb_trans : forall x y z, leb x y = true -> leb y z = true -> leb x z = true.

Lemma insert_sorted_perm (x : A) (l : list A) :
  Permutation (insert_sorted leb x l) (x :: l).
Proof.
  induction l as [|y l IH]; simpl; [done|].
  destruct (leb x y); [done|].
  rewrite IH. apply perm_swap.
Qed.

Lemma sort_by_perm (l : list A) : Permutation (sort_by leb l) l.
Proof.
  induction l as [|x l IH]; simpl; [done|].
  rewrite insert_sorted_perm. by constructor.
Qed.

Lemma insert_sorted_sorted (x : A) (l : list A) :
  StronglySorted (fun a b => leb a b = true) l ->
  StronglySorted (fun a b => leb a b = true) (insert_sorted leb x l).
Proof.
  induction 1 as [|y l Hl IH Hy]; simpl.
  - repeat constructor.
  - destruct (leb x y) eqn:E.
    + constructor; [by constructor|].
      constructor; [exact E|].
      eapply Forall_impl; [exact Hy|]. intros z Hz. by eapply leb_trans.
    + constructor; [exact IH|].
      rewrite insert_sorted_perm. constructor; [|exact Hy].
      destruct (leb_total x y) as [H|H]; [congruence|exact H].
Qed.

Lemma sort_by_sorted (l : list A) :
  StronglySorted (fun a b => leb a b = true) (sort_by leb l).
Proof.
  induction l as [|x l IH]; simpl; [constructor|].
  by apply insert_sorted_sorted.
Qed.
End StableSort.

Lemma StronglySorted_app_intro {A} (R : A -> A -> Prop) (l1 l2 : list A) :
  StronglySorted R l1 -> StronglySorted R l2 ->
  (forall x y, In x l1 -> In y l2 -> R x y) ->
  StronglySorted R (l1 ++ l2).
Proof.
  induction 1 as [|x l1 Hl1 IH Hx]; intros H2 Hc; simpl; [done|].
  constructor.
  - apply IH; [done|]. intros a b Ha Hb. apply Hc; [by right|done].
  - apply Forall_app. split; [done|].
    apply List.Forall_forall. intros y Hy. apply Hc; [by left|done].
Qed.

Lemma StronglySorted_Forall2 {A B} (R : A -> A -> Prop) (R' : B -> B -> Prop)
    (Q : A -> B -> Prop) (l : list A) (l' : list B) :
  (forall x y x' y', R x y -> Q x x' -> Q y y' -> R' x' y') ->
  Forall2 Q l l' -> StronglySorted R l -> StronglySorted R' l'.
Proof.
  intros HR HQ. induction HQ as [|x x' l l' Hx HQ IH]; intros Hs; [constructor|].
  apply StronglySorted_inv in Hs as [Hs Hall].
  constructor; [by apply IH|].
  clear IH Hs. induction HQ as [|y y' l l' Hy HQ IH]; [constructor|].
  apply Forall_cons in Hall as [Hxy Hall].
  constructor; [by eapply HR|by apply IH].
Qed.

Lemma StronglySorted_and {A} (R1 R2 : A -> A -> Prop) (l : list A) :
  StronglySorted R1 l -> StronglySorted R2 l ->
  StronglySorted (fun x y => R1 x y /\ R2 x y) l.
Proof.
  induction 1 as [|x l Hl IH Hx]; intros H2; [constructor|].
  apply StronglySorted_inv in H2 as [H2 Hx2].
  constructor; [by apply IH|].
  rewrite List.Forall_forall in *. intros y Hy. split; [by apply Hx|by apply Hx2].
Qed.

(** In a sorted list, an element that may not follow another one
    precedes it. *)
Lemma sorted_split_before {A} (R : A -> A -> Prop) (l : list A) (x y : A) :
  StronglySorted R l -> In x l -> In y l -> x <> y -> ~ R y x ->
  exists l1 l2 l3, l = l1 ++ x :: l2 ++ y :: l3.
Proof.
  intros Hs Hx Hy Hne Hno.
  apply in_split in Hy as (k1 & k2 & ->).
  apply in_app_or in Hx as [Hx|[Hx|Hx]].
  - apply in_split in Hx as (l1 & l2 & ->).
    exists l1, l2, k2. by rewrite <- app_assoc.
  - congruence.
  - exfalso. apply Hno.
    apply StronglySorted_app_1_r in Hs.
    apply StronglySorted_inv in Hs as [_ Hall].
    rewrite List.Forall_forall in Hall. by apply Hall.
Qed.

Lemma Forall2_In_l {A B} (Q : A -> B -> Prop) (l : list A) (l' : list B) (x : A) :
  Forall2 Q l l' -> In x l -> exists y, In y l' /\ Q x y.
Proof.
  induction 1 as [|a b l l' Hab _ IH]; intros Hx; [done|].
  destruct Hx as [->|Hx].
  - exists b. split; [by left|done].
  - destruct (IH Hx) as (y & Hy & HQ). exists y. split; [by right|done].
Qed.

End SortFacts.

Module EncoderFacts.
Import Py Mido Models MidiIO MidiIOWords PyFacts MidoFacts SortFacts.

Lemma event_leb_total x y : event_leb x y = true \/ event_leb y x = true.
Proof.
  unfold event_leb, pair_leb, sort_key; simpl.
  destruct (is_note_off x.2), (is_note_off y.2); simpl;
    destruct (Z.ltb_spec x.1 y.1), (Z.ltb_spec y.1 x.1),
             (Z.eqb_spec x.1 y.1), (Z.eqb_spec y.1 x.1); simpl; auto; lia.
Qed.

Lemma event_leb_trans x y z :
  event_leb x y = true -> event_leb y z = true -> event_leb x z = true.
Proof.
  unfold event_leb, pair_leb, sort_key; simpl.
  destruct (is_note_off x.2), (is_note_off y.2), (is_note_off z.2); simpl;
    destruct (Z.ltb_spec x.1 y.1), (Z.ltb_spec y.1 z.1), (Z.ltb_spec x.1 z.1),
             (Z.eqb_spec x.1 y.1), (Z.eqb_spec y.1 z.1), (Z.eqb_spec x.1 z.1);
    simpl; auto; try lia; try discriminate.
Qed.

Lemma event_leb_spec x y :
  event_leb x y = true <->
  x.1 < y.1 \/ (x.1 = y.1 /\ (is_note_off y.2 = true -> is_note_off x.2 = true)).
Proof.
  unfold event_leb, pair_leb, sort_key; simpl.
  rewrite orb_true_iff, andb_true_iff, Z.ltb_lt, Z.eqb_eq, Z.leb_le.
  destruct (is_note_off x.2), (is_note_off y.2); split;
    (intros [H|[H1 H2]]; [by left|right; split; [done|]]);
    try done; try lia.
Qed.

Lemma sort_events_sorted evs :
  StronglySorted (fun x y => event_leb x y = true) (sort_events evs).
Proof. apply sort_by_sorted; [apply event_leb_total|apply event_leb_trans]. Qed.

Lemma sort_events_perm evs : Permutation (sort_events evs) evs.
Proof. apply sort_by_perm. Qed.

Lemma to_delta_shift_from (evs : list (Z * Msg)) : forall T last,
  StronglySorted (fun x y => x.1 <= y.1) evs ->
  Forall (fun ev => last <= ev.1) evs ->
  Forall2 (written_as (T - last)) evs (absolute_from T (to_delta last evs)).
Proof.
  induction evs as [|[t m] evs IH]; intros T last Hs Hl; simpl; [constructor|].
  apply StronglySorted_inv in Hs as [Hs Hall].
  apply Forall_cons in Hl as [Hl _]. simpl in Hl.
  rewrite time_set_time. constructor.
  - split; simpl; [lia|apply set_time_set_time].
  - replace (T - last) with ((T + Z.max 0 (t - last)) - t) by lia.
    apply IH; [done|]. exact Hall.
Qed.

Lemma to_delta_shift (evs : list (Z * Msg)) (T last : Z) :
  StronglySorted (fun x y => x.1 <= y.1) evs ->
  exists c, Forall2 (written_as c) evs (absolute_from T (to_delta last evs)).
Proof.
  destruct evs as [|[t m] evs]; intros Hs; simpl.
  - exists 0. constructor.
  - apply StronglySorted_inv in Hs as [Hs Hall].
    rewrite time_set_time.
    exists (T + Z.max 0 (t - last) - t). constructor.
    + split; simpl; [lia|apply set_time_set_time].
    + apply to_delta_shift_from; [done|exact Hall].
Qed.

Lemma to_delta_nonneg evs : forall last,
  Forall (fun m => 0 <= time m) (to_delta last evs).
Proof.
  induction evs as [|[t m] evs IH]; intros last; simpl; constructor.
  - rewrite time_set_time. lia.
  - apply IH.
Qed.

Lemma absolute_from_ascending tr : forall T,
  Forall (fun m => 0 <= time m) tr ->
  StronglySorted (fun x y : Z * Msg => x.1 <= y.1) (absolute_from T tr)
  /\ Forall (fun x : Z * Msg => T <= x.1) (absolute_from T tr).
Proof.
  induction tr as [|m tr IH]; intros T H; simpl.
  - split; constructor.
  - apply Forall_cons in H as [Hm H].
    destruct (IH (T + time m) H) as [Hs Hall]. split.
    + constructor; [done|]. exact Hall.
    + constructor; simpl; [lia|].
      eapply Forall_impl; [exact Hall|]. simpl. intros; lia.
Qed.

Lemma absolute_from_app tr1 : forall T tr2,
  exists T', absolute_from T (tr1 ++ tr2) = absolute_from T tr1 ++ absolute_from T' tr2.
Proof.
  induction tr1 as [|m tr1 IH]; intros T tr2; simpl.
  - by exists T.
  - destruct (IH (T + time m) tr2) as [T' ->]. by exists T'.
Qed.

Lemma set_time_note_off m c n v :
  set_time 0 m = NoteOff 0 c n v -> m = NoteOff (time m) c n v.
Proof. destruct m; simpl; intros [=]; by subst. Qed.

Lemma set_time_note_on m c n v :
  set_time 0 m = NoteOn 0 c n v -> m = NoteOn (time m) c n v.
Proof. destruct m; simpl; intros [=]; by subst. Qed.

Lemma written_as_kind c ev am :
  written_as c ev am ->
  is_note_on am.2 = is_note_on ev.2 /\ is_note_off am.2 = is_note_off ev.2.
Proof.
  intros [_ H]. split.
  - by rewrite <- (is_note_on_set_time 0 am.2), H, is_note_on_set_time.
  - by rewrite <- (is_note_off_set_time 0 am.2), H, is_note_off_set_time.
Qed.

Lemma tempo_events_shape flags p tempo :
  tempo_events flags p = inr tempo ->
  tempo = [] \/ exists x, tempo = [SetTempo 0 x].
Proof.
  unfold tempo_events. destruct (write_tempo flags); [|intros [= <-]; by left].
  intros H. apply bind_inr in H as (t & _ & H).
  apply bind_inr in H as (m & Hm & H). injection H as <-.
  unfold new_set_tempo in Hm. apply bind_inr in Hm as (_ & _ & Hm).
  injection Hm as <-. right. by eexists.
Qed.

Lemma note_events_in ns : forall played n,
  note_events ns = inr played -> In n ns ->
  In (start_tick n, NoteOn 0 (channel n) (pitch n) (velocity n)) played
  /\ In (end_tick n, NoteOff 0 (channel n) (pitch n) 0) played.
Proof.
  induction ns as [|n0 ns IH]; intros played n H Hin; [done|].
  simpl in H.
  apply bind_inr in H as (on & Hon & H).
  apply bind_inr in H as (off & Hoff & H).
  apply bind_inr in H as (rest & Hrest & H). injection H as <-.
  unfold new_note_on in Hon. unfold new_note_off in Hoff.
  repeat (apply bind_inr in Hon as (? & _ & Hon)).
  repeat (apply bind_inr in Hoff as (? & _ & Hoff)).
  injection Hon as <-. injection Hoff as <-.
  destruct Hin as [->|Hin].
  - split; [by left|right; by left].
  - destruct (IH rest n Hrest Hin) as [H1 H2].
    split; right; right; done.
Qed.

Lemma program_events_of_ticks normalize items : forall evs,
  program_events_of normalize items = inr evs -> Forall (fun ev => ev.1 = 0) evs.
Proof.
  induction items as [|[ch pr] items IH]; intros evs H; simpl in H.
  - injection H as <-. constructor.
  - destruct (normalize && (9 <? ch)); [by apply IH|].
    apply bind_inr in H as (msg & _ & H).
    apply bind_inr in H as (rest & Hrest & H). injection H as <-.
    constructor; [done|by apply IH].
Qed.

Lemma note_events_ticks ns : forall played,
  note_events ns = inr played ->
  Forall (fun ev => exists n, In n ns /\ (ev.1 = start_tick n \/ ev.1 = end_tick n)) played.
Proof.
  induction ns as [|n ns IH]; intros played H; simpl in H.
  - injection H as <-. constructor.
  - apply bind_inr in H as (on & _ & H).
    apply bind_inr in H as (off & _ & H).
    apply bind_inr in H as (rest & Hrest & H). injection H as <-.
    constructor; [exists n; split; [by left|by left]|].
    constructor; [exists n; split; [by left|by right]|].
    eapply Forall_impl; [by apply IH|].
    intros ev (m & Hm & Hev). exists m. split; [by right|done].
Qed.

(** The track that [build_track] returns. *)
Lemma build_track_shape flags p ns track :
  build_track flags p ns = inr track ->
  exists tempo programs played,
    (tempo = [] \/ exists x, tempo = [SetTempo 0 x])
    /\ Forall (fun ev => ev.1 = 0) programs
    /\ note_events ns = inr played
    /\ track = tempo ++ to_delta 0 (sort_events (programs ++ played)) ++ [EndOfTrack 0].
Proof.
  unfold build_track. intros H.
  apply bind_inr in H as (tempo & Htempo & H).
  apply bind_inr in H as (programs & Hprograms & H).
  apply bind_inr in H as (played & Hplayed & H). injection H as <-.
  exists tempo, programs, played. split; [by eapply tempo_events_shape|].
  split; [|done].
  unfold program_events in Hprograms.
  destruct (force_programs_at_start flags).
  - by eapply program_events_of_ticks.
  - injection Hprograms as <-. constructor.
Qed.

Lemma note_events_exact ns : forall played,
  note_events ns = inr played ->
  played = flat_map (fun n => [note_on_event n; note_off_event n]) ns.
Proof.
  induction ns as [|n ns IH]; intros played H; simpl in H.
  - by injection H as <-.
  - apply bind_inr in H as (on & Hon & H).
    apply bind_inr in H as (off & Hoff & H).
    apply bind_inr in H as (rest & Hrest & H). injection H as <-.
    unfold new_note_on in Hon. unfold new_note_off in Hoff.
    repeat (apply bind_inr in Hon as (? & _ & Hon)).
    repeat (apply bind_inr in Hoff as (? & _ & Hoff)).
    injection Hon as <-. injection Hoff as <-.
    simpl. by rewrite (IH rest Hrest).
Qed.

Lemma note_events_perm (ns : list NoteEvent) :
  Permutation (flat_map (fun n => [note_on_event n; note_off_event n]) ns)
              (map note_on_event ns ++ map note_off_event ns).
Proof.
  induction ns as [|n ns IH]; simpl; [done|].
  constructor. rewrite IH. apply Permutation_middle.
Qed.

Lemma program_events_of_shape normalize items : forall evs,
  program_events_of normalize items = inr evs ->
  Forall (fun ev => exists c pr, ev = (0, ProgramChange 0 c pr)) evs.
Proof.
  induction items as [|[ch pr] items IH]; intros evs H; simpl in H.
  - injection H as <-. constructor.
  - destruct (normalize && (9 <? ch)); [by apply IH|].
    apply bind_inr in H as (msg & Hmsg & H).
    apply bind_inr in H as (rest & Hrest & H). injection H as <-.
    unfold new_program_change in Hmsg.
    repeat (apply bind_inr in Hmsg as (? & _ & Hmsg)). injection Hmsg as <-.
    constructor; [by eexists _, _|by apply IH].
Qed.

Lemma program_events_shape flags p evs :
  program_events flags p = inr evs ->
  Forall (fun ev => exists c pr, ev = (0, ProgramChange 0 c pr)) evs.
Proof.
  unfold program_events. destruct (force_programs_at_start flags).
  - apply program_events_of_shape.
  - intros [= <-]. constructor.
Qed.

Lemma tempo_events_exact flags p tempo :
  tempo_events flags p = inr tempo ->
  tempo = if write_tempo flags
          then [SetTempo 0 (round_div 60000000 (clamp 30 300 (tempo_bpm p)))]
          else [].
Proof.
  unfold tempo_events. destruct (write_tempo flags); [|by intros [= <-]].
  intros H. apply bind_inr in H as (t & Ht & H).
  apply bind_inr in H as (m & Hm & H). injection H as <-.
  unfold new_set_tempo in Hm. apply bind_inr in Hm as (_ & _ & Hm).
  injection Hm as <-. by apply beat_div_inv in Ht as (_ & _ & ->).
Qed.

Lemma to_delta_Forall (P : Msg -> Prop) (evs : list (Z * Msg)) :
  (forall d m, P m -> P (set_time d m)) ->
  Forall (fun ev => P ev.2) evs -> forall last, Forall P (to_delta last evs).
Proof.
  intros HP Hall. induction Hall as [|[tick m] evs Hm _ IH]; intros last; simpl.
  - constructor.
  - constructor; [by apply HP|apply IH].
Qed.

(** The track that is built ends with its only [end_of_track] and has no
    negative delta time, so that [save] writes it as it is. *)
Lemma build_track_body flags p ns track :
  build_track flags p ns = inr track ->
  exists body,
    track = body ++ [EndOfTrack 0]
    /\ Forall (fun m => is_end_of_track m = false) body
    /\ Forall (fun m => 0 <= time m) body.
Proof.
  unfold build_track. intros H.
  apply bind_inr in H as (tempo & Htempo & H).
  apply bind_inr in H as (programs & Hprograms & H).
  apply bind_inr in H as (played & Hplayed & H). injection H as <-.
  exists (tempo ++ to_delta 0 (sort_events (programs ++ played))).
  split; [by rewrite <- app_assoc|].
  apply tempo_events_exact in Htempo. apply note_events_exact in Hplayed.
  apply program_events_shape in Hprograms.
  assert (Htempo' : Forall (fun m => is_end_of_track m = false /\ 0 <= time m) tempo).
  { subst tempo. destruct (write_tempo flags); repeat constructor; simpl; lia. }
  split; apply Forall_app; split.
  - eapply Forall_impl; [exact Htempo'|]. by intros m [? _].
  - apply to_delta_Forall with (P := fun m => is_end_of_track m = false).
    { intros d m Hm. by rewrite is_end_of_track_set_time. }
    apply List.Forall_forall. intros ev Hev.
    apply (Permutation_in _ (sort_events_perm _)) in Hev.
    apply in_app_iff in Hev as [Hev|Hev].
    + rewrite List.Forall_forall in Hprograms.
      by destruct (Hprograms ev Hev) as (c & pr & ->).
    + subst played. apply in_flat_map in Hev as (n & _ & [<-|[<-|[]]]); done.
  - eapply Forall_impl; [exact Htempo'|]. by intros m [_ ?].
  - apply to_delta_nonneg.
Qed.

(** What [save] does with the file of the encoder. *)
Lemma save_built_track flags p ns track (tpb : Z) :
  build_track flags p ns = inr track ->
  save (mkMidiFile tpb [track])
  = if short_ok tpb then inr (mkMidiFile tpb [track]) else inl StructError.
Proof.
  intros (body & -> & Hb & Ht)%build_track_body.
  by apply save_one_track.
Qed.

Lemma save_project_to_midi_inv p flags mid ws :
  save_project_to_midi p flags = inr (mid, ws) ->
  ws = (filter_channels flags (notes p)).2
  /\ exists track,
       build_track flags p (filter_channels flags (notes p)).1 = inr track
       /\ mid = mkMidiFile (Models.ticks_per_beat p) [track].
Proof.
  unfold save_project_to_midi.
  destruct (filter_channels flags (notes p)) as [ns w]; simpl.
  intros H. apply bind_inr in H as (track & Htrack & H).
  apply bind_inr in H as (mid' & Hmid & H). injection H as <- <-.
  split; [done|]. exists track. split; [done|].
  rewrite (save_built_track _ _ _ _ _ Htrack) in Hmid.
  destruct (short_ok _); [|done]. by injection Hmid as <-.
Qed.

Lemma sort_events_ascending evs :
  StronglySorted (fun x y : Z * Msg => x.1 <= y.1) (sort_events evs).
Proof.
  eapply StronglySorted_Forall2 with (Q := eq) (l := sort_events evs);
    [| |apply sort_events_sorted].
  - intros x y x' y' H -> ->. apply event_leb_spec in H. lia.
  - induction (sort_events evs); by constructor.
Qed.

(** Shape of the absolute view of a written track. *)
Lemma absolute_track_shape tempo body :
  (tempo = [] \/ exists x, tempo = [SetTempo 0 x]) ->
  exists T,
    absolute (tempo ++ body ++ [EndOfTrack 0]) =
      map (pair 0) tempo ++ absolute_from 0 body ++ [(T, EndOfTrack 0)].
Proof.
  intros Ht. unfold absolute.
  destruct (absolute_from_app body 0 [EndOfTrack 0]) as [T HT].
  exists (T + 0). destruct Ht as [->|[x ->]]; simpl; rewrite ?Z.add_0_l; by rewrite HT.
Qed.

Lemma sorted_track_order tempo evs :
  (tempo = [] \/ exists x, tempo = [SetTempo 0 x]) ->
  StronglySorted note_order (absolute (tempo ++ to_delta 0 (sort_events evs) ++ [EndOfTrack 0])).
Proof.
  intros Ht. apply StronglySorted_and.
  - apply absolute_from_ascending.
    apply Forall_app. split.
    + destruct Ht as [->|[x ->]]; repeat constructor. simpl. done.
    + apply Forall_app. split; [apply to_delta_nonneg|]. repeat constructor; done.
  - destruct (absolute_track_shape tempo (to_delta 0 (sort_events evs)) Ht) as [T ->].
    destruct (to_delta_shift (sort_events evs) 0 0 (sort_events_ascending evs)) as [c Hc].
    apply StronglySorted_app_intro; [|apply StronglySorted_app_intro|].
    + destruct Ht as [->|[x ->]]; repeat constructor.
    + eapply StronglySorted_Forall2; [|exact Hc|apply sort_events_sorted].
      intros x y x' y' H Hx Hy Hon Hoff.
      apply written_as_kind in Hx as Hkx. apply written_as_kind in Hy as Hky.
      destruct Hkx as [Hkx _]. destruct Hky as [_ Hky].
      rewrite Hkx in Hon. rewrite Hky in Hoff.
      destruct Hx as [-> _]. destruct Hy as [-> _].
      apply event_leb_spec in H as [H|[_ H]]; [lia|].
      specialize (H Hoff). destruct x.2; simpl in *; congruence.
    + repeat constructor.
    + intros x y _ [<-|[]] _ Hoff. simpl in Hoff. done.
    + intros x y Hx _ Hon _. destruct Ht as [->|[t ->]]; simpl in Hx; [done|].
      destruct Hx as [<-|[]]. simpl in Hon. done.
Qed.

Lemma sorted_track_off_before_on tempo evs e c1 n1 c2 n2 v2 :
  (tempo = [] \/ exists x, tempo = [SetTempo 0 x]) ->
  In (e, NoteOff 0 c1 n1 0) evs ->
  In (e, NoteOn 0 c2 n2 v2) evs ->
  exists l1 l2 l3 t d1 d2,
    absolute (tempo ++ to_delta 0 (sort_events evs) ++ [EndOfTrack 0]) =
      l1 ++ (t, NoteOff d1 c1 n1 0) :: l2 ++ (t, NoteOn d2 c2 n2 v2) :: l3.
Proof.
  intros Ht Hoff Hon.
  destruct (absolute_track_shape tempo (to_delta 0 (sort_events evs)) Ht) as [T ->].
  destruct (to_delta_shift (sort_events evs) 0 0 (sort_events_ascending evs)) as [c Hc].
  remember (absolute_from 0 (to_delta 0 (sort_events evs))) as ab eqn:Eab. clear Eab.
  destruct (sorted_split_before (fun x y => event_leb x y = true) (sort_events evs)
              (e, NoteOff 0 c1 n1 0) (e, NoteOn 0 c2 n2 v2)) as (k1 & k2 & k3 & Hk).
  - apply sort_events_sorted.
  - eapply Permutation_in; [symmetry; apply sort_events_perm|done].
  - eapply Permutation_in; [symmetry; apply sort_events_perm|done].
  - congruence.
  - rewrite event_leb_spec. simpl. intros [H|[_ H]]; [lia|]. by specialize (H eq_refl).
  - rewrite Hk in Hc.
    apply Forall2_app_inv_l in Hc as (a1 & r1 & Ha1 & Hr1 & Habs).
    apply Forall2_cons_inv_l in Hr1 as ([t1 m1] & r2 & Hx & Hr2 & ->).
    apply Forall2_app_inv_l in Hr2 as (a2 & r3 & Ha2 & Hr3 & ->).
    apply Forall2_cons_inv_l in Hr3 as ([t2 m2] & a3 & Hy & Ha3 & ->).
    destruct Hx as [Hx1 Hx2]. destruct Hy as [Hy1 Hy2]. simpl in *.
    apply set_time_note_off in Hx2. apply set_time_note_on in Hy2.
    exists (map (pair 0) tempo ++ a1), a2, (a3 ++ [(T, EndOfTrack 0)]), t1, (time m1), (time m2).
    rewrite Habs. rewrite <- Hx2, <- Hy2. subst t1 t2.
    rewrite <- !app_assoc. simpl. rewrite <- !app_assoc. simpl. done.
Qed.

(** Events at ticks from 0 on are written at their own tick. *)
Lemma sorted_track_exact tempo evs t m :
  (tempo = [] \/ exists x, tempo = [SetTempo 0 x]) ->
  Forall (fun ev => 0 <= ev.1) evs ->
  In (t, m) evs ->
  exists m',
    In (t, m') (absolute (tempo ++ to_delta 0 (sort_events evs) ++ [EndOfTrack 0]))
    /\ set_time 0 m' = set_time 0 m.
Proof.
  intros Ht Hpos Hin.
  destruct (absolute_track_shape tempo (to_delta 0 (sort_events evs)) Ht) as [T ->].
  assert (Hpos' : Forall (fun ev : Z * Msg => 0 <= ev.1) (sort_events evs)).
  { rewrite List.Forall_forall in *. intros ev Hev. apply Hpos.
    eapply Permutation_in; [apply sort_events_perm|done]. }
  pose proof (to_delta_shift_from (sort_events evs) 0 0 (sort_events_ascending evs) Hpos')
    as Hc.
  assert (Hin' : In (t, m) (sort_events evs))
    by (eapply Permutation_in; [symmetry; apply sort_events_perm|done]).
  destruct (Forall2_In_l _ _ _ _ Hc Hin') as ([t' m'] & Hm' & Ht' & Hsame).
  simpl in Ht', Hsame. exists m'. split; [|done].
  replace t with t' by lia.
  apply in_or_app. right. apply in_or_app. by left.
Qed.

Lemma channels_over_9_in (x : Z) (ns : list NoteEvent) :
  In x (channels_over_9 ns) <-> exists n, In n ns /\ 9 < channel n /\ channel n = x.
Proof.
  unfold channels_over_9, sorted_set, sorted_ints.
  rewrite <- list_elem_of_In, sort_by_perm, elem_of_elements, elem_of_list_to_set.
  rewrite list_elem_of_In, in_map_iff. split.
  - intros (n & <- & Hn). apply list_elem_of_In, list_elem_of_filter in Hn as [H9 Hn].
    exists n. by rewrite <- list_elem_of_In.
  - intros (n & Hn & H9 & <-). exists n. split; [done|].
    apply list_elem_of_In, list_elem_of_filter. by rewrite list_elem_of_In.
Qed.

Lemma channels_over_9_nil (ns : list NoteEvent) :
  channels_over_9 ns = [] <-> ~ Exists (fun n => 9 < channel n) ns.
Proof.
  rewrite List.Exists_exists. split.
  - intros H (n & Hn & H9).
    assert (Hin : In (channel n) (channels_over_9 ns)).
    { apply channels_over_9_in. by exists n. }
    by rewrite H in Hin.
  - intros H. destruct (channels_over_9 ns) as [|x l] eqn:E; [done|].
    exfalso. apply H.
    assert (Hin : In x (channels_over_9 ns)) by (rewrite E; by left).
    apply channels_over_9_in in Hin as (n & Hn & H9 & _). by exists n.
Qed.

Lemma tempo_events_ok flags p : exists tempo, tempo_events flags p = inr tempo.
Proof.
  unfold tempo_events. destruct (write_tempo flags); [|by eexists].
  assert (Hc : 30 <= clamp 30 300 (tempo_bpm p) <= 300) by (unfold clamp; lia).
  pose proof float_limit_large as Hl.
  unfold bpm2tempo. rewrite beat_div_small by lia.
  simpl. unfold new_set_tempo, check, tempo_ok.
  pose proof (round_div_tempo_range _ Hc) as Hr.
  rewrite range_ok by lia. simpl. by eexists.
Qed.

Lemma program_events_of_returns normalize items :
  Forall (fun it : Z * Z => (normalize = true /\ 9 < it.1)
                            \/ (0 <= it.1 <= 15 /\ 0 <= it.2 <= 127)) items ->
  exists evs, program_events_of normalize items = inr evs.
Proof.
  induction 1 as [|[ch pr] items Hit Hall [evs IH]]; simpl; [by eexists|].
  destruct (normalize && (9 <? ch)) eqn:E; [by eexists|].
  destruct Hit as [[-> H9]|[Hch Hpr]].
  - simpl in H9. apply Z.ltb_lt in H9. simpl in E. congruence.
  - unfold new_program_change, check, channel_ok, data_byte_ok.
    simpl in Hch, Hpr. rewrite !range_ok by done. simpl.
    rewrite IH. simpl. by eexists.
Qed.

Lemma program_events_ok flags p :
  values_fit flags p -> exists evs, program_events flags p = inr evs.
Proof.
  intros (_ & Hids & _). unfold program_events.
  destruct (force_programs_at_start flags); [|by eexists].
  specialize (Hids eq_refl).
  apply program_events_of_returns. apply List.Forall_forall. intros [ch pr] Hin.
  apply list_elem_of_In in Hin. rewrite sort_by_perm in Hin.
  apply elem_of_map_to_list in Hin. simpl. by apply Hids.
Qed.

Lemma note_events_ok ns :
  Forall note_ok ns -> exists evs, note_events ns = inr evs.
Proof.
  induction 1 as [|n ns (Hc & Hp & Hv) Hall [evs IH]]; simpl; [by eexists|].
  unfold new_note_on, new_note_off, check, channel_ok, data_byte_ok.
  rewrite !range_ok by (done || lia). simpl. rewrite IH. simpl. by eexists.
Qed.

Lemma build_track_ok flags p :
  values_fit flags p ->
  exists track, build_track flags p (filter_channels flags (notes p)).1 = inr track.
Proof.
  intros Hp. unfold build_track.
  destruct (tempo_events_ok flags p) as [tempo ->].
  destruct (program_events_ok flags p Hp) as [programs ->].
  destruct (note_events_ok _ (proj1 Hp)) as [played ->].
  simpl. by eexists.
Qed.

Lemma save_project_to_midi_ok p flags :
  values_fit flags p -> exists mid ws, save_project_to_midi p flags = inr (mid, ws).
Proof.
  intros Hp. destruct (build_track_ok flags p Hp) as [track Htrack].
  unfold save_project_to_midi.
  destruct (filter_channels flags (notes p)) as [ns w]; simpl in *.
  rewrite Htrack. simpl. rewrite (save_built_track _ _ _ _ _ Htrack).
  destruct Hp as (_ & _ & Htpb). unfold short_ok. rewrite range_ok by done.
  simpl. by eexists _, _.
Qed.

(** *** The note messages of the written track *)

Lemma to_delta_erase evs : forall last,
  map (set_time 0) (to_delta last evs) = map (fun ev : Z * Msg => set_time 0 ev.2) evs.
Proof.
  induction evs as [|[t m] evs IH]; intros last; simpl; [done|].
  by rewrite set_time_set_time, IH.
Qed.

Lemma note_filter_programs (programs : list (Z * Msg)) :
  Forall (fun ev => exists c pr, ev = (0, ProgramChange 0 c pr)) programs ->
  filter (fun m => is_note_on m || is_note_off m = true)
         (map (fun ev : Z * Msg => set_time 0 ev.2) programs) = [].
Proof.
  induction 1 as [|ev l (c & pr & ->) _ IH]; [done|].
  simpl. rewrite filter_cons_False by (simpl; discriminate). exact IH.
Qed.

Lemma note_filter_played (ns : list NoteEvent) :
  filter (fun m => is_note_on m || is_note_off m = true)
         (map (fun ev : Z * Msg => set_time 0 ev.2)
              (flat_map (fun n => [note_on_event n; note_off_event n]) ns))
  = flat_map messages_of_note ns.
Proof.
  induction ns as [|n ns IH]; [done|].
  simpl. rewrite filter_cons_True by done. rewrite filter_cons_True by done.
  by rewrite IH.
Qed.

(** The note messages of the track that is built are those of the notes
    it is built from. *)
Lemma note_messages_built flags p ns track :
  build_track flags p ns = inr track ->
  Permutation (note_messages track) (flat_map messages_of_note ns).
Proof.
  unfold build_track. intros H.
  apply bind_inr in H as (tempo & Htempo & H).
  apply bind_inr in H as (programs & Hprograms & H).
  apply bind_inr in H as (played & Hplayed & H). injection H as <-.
  apply tempo_events_exact in Htempo. apply note_events_exact in Hplayed.
  apply program_events_shape in Hprograms.
  unfold note_messages. unfold MidiTrack.
  rewrite !map_app, !filter_app, to_delta_erase.
  assert (Ht : filter (fun m => is_note_on m || is_note_off m = true)
                 (map (set_time 0) tempo) = []).
  { subst tempo. by destruct (write_tempo flags). }
  rewrite Ht. simpl. rewrite filter_cons_False by (simpl; discriminate).
  rewrite filter_nil, app_nil_r.
  rewrite (sort_events_perm (programs ++ played)).
  rewrite map_app, filter_app, note_filter_programs by done.
  subst played. simpl. by rewrite note_filter_played.
Qed.

Lemma program_events_of_channels items : forall evs,
  program_events_of true items = inr evs ->
  Forall (fun ev : Z * Msg => forall c, channel_of ev.2 = Some c -> c <= 9) evs.
Proof.
  induction items as [|[ch pr] items IH]; intros evs H; simpl in H.
  - injection H as <-. constructor.
  - destruct (Z.ltb_spec 9 ch) as [H9|H9]; simpl in H; [by apply IH|].
    apply bind_inr in H as (msg & Hmsg & H).
    apply bind_inr in H as (rest & Hrest & H). injection H as <-.
    unfold new_program_change in Hmsg.
    repeat (apply bind_inr in Hmsg as (? & _ & Hmsg)). injection Hmsg as <-.
    constructor; [|by apply IH]. simpl. intros c [= <-]. done.
Qed.

Lemma filter_channels_dropped flags ns :
  normalize_to_channels_0_9 flags = true -> drop_channels_over_9 flags = true ->
  (filter_channels flags ns).1 = filter (fun n => channel n <= 9) ns.
Proof.
  intros Hn Hd. unfold filter_channels. rewrite Hn, Hd.
  destruct (channels_over_9 ns) as [|x over] eqn:E; [|done]. simpl.
  apply channels_over_9_nil in E. symmetry.
  induction ns as [|n ns IH]; [done|].
  rewrite filter_cons. destruct (decide (channel n <= 9)) as [H9|H9].
  - f_equal. apply IH. intros Hex. apply E. by right.
  - exfalso. apply E. left. lia.
Qed.

(** With normalisation and dropping, no message that is written is on a
    channel over 9. *)
Lemma dropped_track_channels p flags mid ws :
  save_project_to_midi p flags = inr (mid, ws) ->
  normalize_to_channels_0_9 flags = true -> drop_channels_over_9 flags = true ->
  Forall (Forall (fun m => forall c, channel_of m = Some c -> c <= 9)) (tracks mid).
Proof.
  intros Hsave Hn Hd.
  apply save_project_to_midi_inv in Hsave as (_ & track & Htrack & ->).
  rewrite (filter_channels_dropped _ _ Hn Hd) in Htrack.
  unfold build_track in Htrack.
  apply bind_inr in Htrack as (tempo & Htempo & H).
  apply bind_inr in H as (programs & Hprograms & H).
  apply bind_inr in H as (played & Hplayed & H). injection H as <-.
  apply tempo_events_exact in Htempo. apply note_events_exact in Hplayed.
  unfold program_events in Hprograms. rewrite Hn in Hprograms.
  assert (Hp : Forall (fun ev : Z * Msg => forall c, channel_of ev.2 = Some c -> c <= 9)
                      programs).
  { destruct (force_programs_at_start flags).
    - by eapply program_events_of_channels.
    - injection Hprograms as <-. constructor. }
  simpl. constructor; [|constructor].
  apply Forall_app. split.
  { subst tempo. destruct (write_tempo flags); repeat constructor. done. }
  apply Forall_app. split; [|by repeat constructor].
  apply to_delta_Forall with (P := fun m => forall c, channel_of m = Some c -> c <= 9).
  - intros d []; simpl; auto.
  - apply List.Forall_forall. intros ev Hev.
    apply (Permutation_in _ (sort_events_perm _)) in Hev.
    apply in_app_iff in Hev as [Hev|Hev].
    + rewrite List.Forall_forall in Hp. by apply Hp.
    + subst played. apply in_flat_map in Hev as (n & Hin & Hev).
      apply list_elem_of_In, list_elem_of_filter in Hin as [H9 _].
      destruct Hev as [<-|[<-|[]]]; simpl; intros c' [= <-]; done.
Qed.

Lemma warn_over_not_dropped over : warn_over over <> warn_dropped.
Proof. unfold warn_over, warn_dropped. simpl. discriminate. Qed.

End EncoderFacts.

Module EncoderSpec.
Import Py Mido Models MidiIO PyFacts MidoFacts SortFacts EncoderFacts.

(** C3. In the track the encoder writes, absolute ticks ascend and no
    note-off comes after a note-on of the same tick.  For two retained
    notes A and B on one channel and pitch with the end of A at the start
    of B, the note-off of A is written before the note-on of B, at the
    same tick.  When no retained note has a negative tick, the note-on
    and the note-off of every retained note are written at the start
    tick and the end tick of the note. *)
Theorem encoder_writes_note_off_before_note_on p flags mid ws :
  save_project_to_midi p flags = inr (mid, ws) ->
  exists track,
    tracks mid = [track]
    /\ StronglySorted note_order (absolute track)
    /\ (forall A B,
         In A (filter_channels flags (notes p)).1 ->
         In B (filter_channels flags (notes p)).1 ->
         channel A = channel B -> pitch A = pitch B ->
         end_tick A = start_tick B ->
         exists l1 l2 l3 t dA dB,
           absolute track =
             l1 ++ (t, NoteOff dA (channel A) (pitch A) 0)
                :: l2 ++ (t, NoteOn dB (channel B) (pitch B) (velocity B)) :: l3)
    /\ (Forall (fun n => 0 <= start_tick n /\ 0 <= end_tick n)
               (filter_channels flags (notes p)).1 ->
        forall A, In A (filter_channels flags (notes p)).1 ->
          exists dOn dOff,
            In (start_tick A, NoteOn dOn (channel A) (pitch A) (velocity A))
               (absolute track)
            /\ In (end_tick A, NoteOff dOff (channel A) (pitch A) 0) (absolute track)).
Proof.
  intros H. apply save_project_to_midi_inv in H as (_ & track & Htrack & ->).
  exists track. split; [done|].
  apply build_track_shape in Htrack
    as (tempo & programs & played & Ht & Hzero & Hplayed & ->).
  split; [by apply sorted_track_order|]. split.
  - intros A B HA HB _ _ Hend.
    destruct (note_events_in _ _ _ Hplayed HA) as [_ Hoff].
    destruct (note_events_in _ _ _ Hplayed HB) as [Hon _].
    rewrite <- Hend in Hon.
    apply (sorted_track_off_before_on tempo _ (end_tick A));
      [done| |]; apply in_or_app; by right.
  - intros Hpos A HA.
    assert (Hall : Forall (fun ev : Z * Msg => 0 <= ev.1) (programs ++ played)).
    { apply Forall_app. split.
      - eapply Forall_impl; [exact Hzero|]. simpl. intros ev ->. done.
      - eapply Forall_impl; [by apply note_events_ticks|].
        intros ev (n & Hn & Hev). rewrite List.Forall_forall in Hpos.
        destruct (Hpos n Hn). lia. }
    destruct (note_events_in _ _ _ Hplayed HA) as [Hon Hoff].
    destruct (sorted_track_exact tempo (programs ++ played) _ _ Ht Hall
                (in_or_app _ _ _ (or_intror Hon))) as (mOn & HinOn & HmOn).
    destruct (sorted_track_exact tempo (programs ++ played) _ _ Ht Hall
                (in_or_app _ _ _ (or_intror Hoff))) as (mOff & HinOff & HmOff).
    apply set_time_note_on in HmOn. apply set_time_note_off in HmOff.
    exists (time mOn), (time mOff). by rewrite <- HmOn, <- HmOff.
Qed.

Lemma encoder_writes_note_off_before_note_on_witness :
  exists track l1 l2 l3 t dA dB,
    StronglySorted note_order (absolute track)
    /\ absolute track =
         l1 ++ (t, NoteOff dA 3 60 0) :: l2 ++ (t, NoteOn dB 3 60 91) :: l3.
Proof.
  destruct (save_project_to_midi project_back_to_back default_flags)
    as [e|[mid ws]] eqn:E; [vm_compute in E; discriminate E|].
  destruct (encoder_writes_note_off_before_note_on _ _ _ _ E)
    as (track & _ & Hs & Hc & _).
  destruct (Hc (mkNote 0 10 60 90 3 0) (mkNote 10 20 60 91 3 0))
    as (l1 & l2 & l3 & t & dA & dB & Habs);
    try reflexivity; try (vm_compute; tauto).
  exists track, l1, l2, l3, t, dA, dB. split; [exact Hs|exact Habs].
Defined.

(** C8, as the code has it.  The encoder raises nothing when the values
    it writes fit their MIDI fields (the retained notes, the time base
    and, where program changes are written, the entries of the instrument
    map that are not skipped).  Whenever it returns, it returns a file of
    one track with its warnings.  The warning about channels over 9 is
    among them exactly when normalisation is on and some note has a
    channel over 9; the warning about dropped notes exactly when, in
    addition, dropping is on.  There is no other warning, and none at all
    when no note has a channel over 9.  With the warning about dropped
    notes, the note messages of the written track are those of the notes
    on channels up to 9, and no message of the track is on a channel over
    9; without it they are those of all notes. *)
Theorem encoder_returns_channel_warnings (p : MidiProject) (flags : ExportFlags) :
  (values_fit flags p -> exists mid ws, save_project_to_midi p flags = inr (mid, ws))
  /\ forall mid ws,
       save_project_to_midi p flags = inr (mid, ws) ->
       (In (warn_over (channels_over_9 (notes p))) ws <->
          normalize_to_channels_0_9 flags = true
          /\ Exists (fun n => 9 < channel n) (notes p))
       /\ (In warn_dropped ws <->
             normalize_to_channels_0_9 flags = true
             /\ drop_channels_over_9 flags = true
             /\ Exists (fun n => 9 < channel n) (notes p))
       /\ (forall w, In w ws ->
             w = warn_over (channels_over_9 (notes p)) \/ w = warn_dropped)
       /\ (~ Exists (fun n => 9 < channel n) (notes p) -> ws = [])
       /\ exists track,
            mid = mkMidiFile (Models.ticks_per_beat p) [track]
            /\ (In warn_dropped ws ->
                  Permutation (note_messages track)
                    (flat_map messages_of_note
                       (filter (fun n => channel n <= 9) (notes p)))
                  /\ Forall (fun m => forall c, channel_of m = Some c -> c <= 9) track)
            /\ (~ In warn_dropped ws ->
                  Permutation (note_messages track)
                    (flat_map messages_of_note (notes p))).
Proof.
  split; [apply save_project_to_midi_ok|].
  intros mid ws Hsave.
  pose proof (dropped_track_channels _ _ _ _ Hsave) as Hch.
  apply save_project_to_midi_inv in Hsave as (-> & track & Htrack & ->).
  apply note_messages_built in Htrack.
  pose proof (channels_over_9_nil (notes p)) as Hnil.
  pose proof (warn_over_not_dropped (channels_over_9 (notes p))) as Hne.
  revert Htrack Hch. unfold filter_channels.
  destruct (normalize_to_channels_0_9 flags).
  - destruct (channels_over_9 (notes p)) as [|x over] eqn:E.
    + assert (Hno : ~ Exists (fun n => 9 < channel n) (notes p)) by by apply Hnil.
      simpl. intros Htrack _. repeat split; try tauto.
      exists track. repeat split; [tauto|tauto|done].
    + assert (Hex : Exists (fun n => 9 < channel n) (notes p)).
      { destruct (decide (Exists (fun n => 9 < channel n) (notes p))) as [H|H]; [done|].
        apply Hnil in H. discriminate H. }
      destruct (drop_channels_over_9 flags); simpl; intros Htrack Hch.
      * repeat split; try tauto; try (intros; intuition congruence).
        exists track. split; [done|]. split.
        { intros _. split; [done|]. specialize (Hch eq_refl eq_refl).
          by apply Forall_cons in Hch as [Hch _]. }
        intros Hnot. exfalso. apply Hnot. right. by left.
      * repeat split; try tauto; try (intros; intuition congruence).
        exists track. split; [done|]. split; [|done].
        intros [H|[]]. congruence.
  - simpl. intros Htrack _. repeat split; try tauto; try (intros; intuition congruence).
    exists track. repeat split; [tauto|tauto|done].
Qed.

Lemma encoder_returns_channel_warnings_witness :
  exists track ws,
    save_project_to_midi project_back_to_back default_flags =
      inr (mkMidiFile 480 [track], ws)
    /\ In warn_dropped ws
    /\ Permutation (note_messages track)
         [NoteOn 0 3 60 91; NoteOff 0 3 60 0; NoteOn 0 3 60 90; NoteOff 0 3 60 0].
Proof.
  destruct (encoder_returns_channel_warnings project_back_to_back default_flags)
    as [Hret Hall].
  destruct Hret as (mid & ws & Hsave).
  { split; [|split].
    - repeat constructor; simpl; lia.
    - simpl. discriminate.
    - simpl. lia. }
  destruct (Hall mid ws Hsave) as (_ & Hdrop & _ & _ & track & -> & Hyes & _).
  assert (Hin : In warn_dropped ws).
  { apply Hdrop. repeat split; try reflexivity.
    apply List.Exists_exists. exists (mkNote 5 10 61 92 12 0).
    split; [vm_compute; tauto|simpl; lia]. }
  exists track, ws. split; [exact Hsave|]. split; [exact Hin|].
  exact (proj1 (Hyes Hin)).
Defined.

(** C8 as stated fails for a project of the data model: an instrument
    identifier is an opaque key, and one above 127 that is to be written
    as a program number is refused by the message constructor.  Without
    [force_programs_at_start] the same project is written. *)
Lemma encoder_refuses_large_program :
  in_data_model project_large_id
  /\ save_project_to_midi project_large_id (mkFlags true true true true) = inl ValueError
  /\ exists out, save_project_to_midi project_large_id default_flags = inr out.
Proof.
  split; [|split; [vm_compute; reflexivity|eexists; vm_compute; reflexivity]].
  split; [|split; [|split]].
  - repeat constructor; simpl; lia.
  - simpl. lia.
  - reflexivity.
  - intros ch id H. simpl in H. apply lookup_singleton_Some in H as [<- _]. lia.
Qed.

End EncoderSpec.

Module InjectorFacts.
Import Py Mido Injector PyFacts MidoFacts.

Lemma insert_all_after (ins : list Msg) : forall (i : nat) (pre t0 : MidiTrack),
  length pre = i -> insert_all i ins (pre ++ t0) = pre ++ ins ++ t0.
Proof.
  induction ins as [|msg ins IH]; intros i pre t0 Hlen; simpl; [done|].
  unfold list_insert_at. rewrite <- Hlen, take_app_length, drop_app_length.
  replace (pre ++ msg :: t0) with ((pre ++ [msg]) ++ t0) by (by rewrite <- app_assoc).
  rewrite IH by (rewrite length_app; simpl; lia).
  by rewrite <- app_assoc.
Qed.

(** The loop of [insert] calls puts the block in front of the track. *)
Lemma insert_all_prepends (ins : list Msg) (t0 : MidiTrack) :
  insert_all 0 ins t0 = ins ++ t0.
Proof. apply (insert_all_after ins 0%nat [] t0). done. Qed.

Lemma has_tempo_app a b :
  has_meta_set_tempo_at_0 (a ++ b) = has_meta_set_tempo_at_0 a || has_meta_set_tempo_at_0 b.
Proof. apply existsb_app. Qed.

Lemma has_program_app a b ch :
  has_program_change_at_0 (a ++ b) ch =
    has_program_change_at_0 a ch || has_program_change_at_0 b ch.
Proof. apply existsb_app. Qed.

Lemma has_program_new ch program rest :
  has_program_change_at_0 (ProgramChange 0 ch program :: rest) ch = true.
Proof. simpl. by rewrite bool_decide_true. Qed.

Lemma tempo_insert_inv params t0 a :
  tempo_insert params t0 = inr a ->
  (has_meta_set_tempo_at_0 t0 = true /\ a = [])
  \/ (has_meta_set_tempo_at_0 t0 = false
      /\ exists tempo, bpm2tempo (tempo_bpm params) = inr tempo /\ a = [SetTempo 0 tempo]).
Proof.
  unfold tempo_insert. destruct (has_meta_set_tempo_at_0 t0).
  - intros [= <-]. by left.
  - intros H. right. split; [done|].
    apply bind_inr in H as (tempo & Ht & H).
    apply bind_inr in H as (msg & Hm & H). injection H as <-.
    unfold new_set_tempo in Hm. apply bind_inr in Hm as (_ & _ & Hm).
    injection Hm as <-. by exists tempo.
Qed.

Lemma melodic_inserts_cover params t0 chs : forall b,
  melodic_inserts params t0 chs = inr b ->
  forall ch, In ch chs ->
    has_program_change_at_0 t0 ch = true \/ has_program_change_at_0 b ch = true.
Proof.
  induction chs as [|c chs IH]; intros b Hb ch Hin; [done|].
  simpl in Hb. destruct (has_program_change_at_0 t0 c) eqn:E.
  - destruct Hin as [->|Hin]; [by left|]. by eapply IH.
  - apply bind_inr in Hb as (msg & Hm & Hb).
    apply bind_inr in Hb as (rest & Hrest & Hb). injection Hb as <-.
    unfold new_program_change in Hm.
    repeat (apply bind_inr in Hm as (? & _ & Hm)). injection Hm as <-.
    destruct Hin as [->|Hin].
    + right. apply has_program_new.
    + destruct (IH rest Hrest ch Hin) as [H|H]; [by left|right].
      change (ProgramChange 0 c (program_base params + c) :: rest)
        with ([ProgramChange 0 c (program_base params + c)] ++ rest).
      rewrite has_program_app, H. apply orb_true_r.
Qed.

Lemma drum_insert_cover params t0 c d :
  drum_insert params t0 = inr c ->
  drum_midi_channel params = Some d -> 0 <= d <= 15 ->
  has_program_change_at_0 t0 d = true \/ has_program_change_at_0 c d = true.
Proof.
  unfold drum_insert. intros H E Hd. rewrite E in H.
  rewrite range_ok in H by done. simpl in H.
  destruct (has_program_change_at_0 t0 d); [by left|]. simpl in H.
  apply bind_inr in H as (msg & Hm & H). injection H as <-.
  unfold new_program_change in Hm.
  repeat (apply bind_inr in Hm as (? & _ & Hm)). injection Hm as <-.
  right. apply has_program_new.
Qed.

Lemma melodic_inserts_none params t chs :
  (forall ch, In ch chs -> has_program_change_at_0 t ch = true) ->
  melodic_inserts params t chs = inr [].
Proof.
  induction chs as [|c chs IH]; intros H; simpl; [done|].
  rewrite H by (by left). apply IH. intros ch Hch. apply H. by right.
Qed.

Lemma inserts_inv params t0 ins :
  inserts params t0 = inr ins ->
  exists a b c,
    tempo_insert params t0 = inr a
    /\ melodic_inserts params t0 (range (max_melodic_channels params)) = inr b
    /\ drum_insert params t0 = inr c
    /\ ins = a ++ b ++ c.
Proof.
  unfold inserts. intros H.
  apply bind_inr in H as (a & Ha & H).
  apply bind_inr in H as (b & Hb & H).
  apply bind_inr in H as (c & Hc & H). injection H as <-.
  by exists a, b, c.
Qed.

(** After a first run nothing is left to insert. *)
Lemma inserts_after_inserts params t0 ins :
  inserts params t0 = inr ins -> inserts params (ins ++ t0) = inr [].
Proof.
  intros H. apply inserts_inv in H as (a & b & c & Ha & Hb & Hc & ->).
  unfold inserts.
  assert (Htempo : tempo_insert params ((a ++ b ++ c) ++ t0) = inr []).
  { unfold tempo_insert. rewrite !has_tempo_app.
    apply tempo_insert_inv in Ha as [[-> _]|[_ (tempo & _ & ->)]].
    - by rewrite !orb_true_r.
    - done. }
  assert (Hmel : melodic_inserts params ((a ++ b ++ c) ++ t0)
                   (range (max_melodic_channels params)) = inr []).
  { apply melodic_inserts_none. intros ch Hch.
    rewrite !has_program_app.
    destruct (melodic_inserts_cover _ _ _ _ Hb ch Hch) as [->| ->];
      by rewrite ?orb_true_r, ?orb_true_l. }
  assert (Hdrum : drum_insert params ((a ++ b ++ c) ++ t0) = inr []).
  { unfold drum_insert. destruct (drum_midi_channel params) as [d|] eqn:Ed; [|done].
    destruct ((0 <=? d) && (d <=? 15)) eqn:Er; [|done]. simpl.
    apply andb_true_iff in Er as [E1 E2]. apply Z.leb_le in E1, E2.
    rewrite !has_program_app.
    destruct (drum_insert_cover _ _ _ d Hc Ed) as [->| ->]; [lia|..];
      by rewrite ?orb_true_r, ?orb_true_l. }
  rewrite Htempo, Hmel, Hdrum. done.
Qed.

Lemma melodic_inserts_new params t0 chs : forall b,
  melodic_inserts params t0 chs = inr b -> Forall (fresh_in t0) b.
Proof.
  induction chs as [|c chs IH]; intros b Hb; simpl in Hb.
  - injection Hb as <-. constructor.
  - destruct (has_program_change_at_0 t0 c) eqn:E; [by apply IH|].
    apply bind_inr in Hb as (msg & Hm & Hb).
    apply bind_inr in Hb as (rest & Hrest & Hb). injection Hb as <-.
    unfold new_program_change in Hm.
    repeat (apply bind_inr in Hm as (? & _ & Hm)). injection Hm as <-.
    constructor; [exact E|by apply IH].
Qed.

(** No inserted event repeats one the track already has at time 0. *)
Lemma inserts_new params t0 ins :
  inserts params t0 = inr ins -> Forall (fresh_in t0) ins.
Proof.
  intros H. apply inserts_inv in H as (a & b & c & Ha & Hb & Hc & ->).
  apply Forall_app. split; [|apply Forall_app; split].
  - apply tempo_insert_inv in Ha as [[_ ->]|[Hno (tempo & _ & ->)]]; repeat constructor.
    exact Hno.
  - by eapply melodic_inserts_new.
  - unfold drum_insert in Hc. destruct (drum_midi_channel params) as [d|].
    + destruct ((0 <=? d) && (d <=? 15)); simpl in Hc.
      * destruct (has_program_change_at_0 t0 d) eqn:E; simpl in Hc.
        -- injection Hc as <-. constructor.
        -- apply bind_inr in Hc as (msg & Hm & Hc). injection Hc as <-.
           unfold new_program_change in Hm.
           repeat (apply bind_inr in Hm as (? & _ & Hm)). injection Hm as <-.
           repeat constructor. exact E.
      * injection Hc as <-. constructor.
    + injection Hc as <-. constructor.
Qed.

Lemma range_spec (n d : Z) : d ∈ range n <-> 0 <= d < n.
Proof.
  unfold range. rewrite list_elem_of_In, in_map_iff. split.
  - intros (i & <- & Hi). apply in_seq in Hi. lia.
  - intros Hd. exists (Z.to_nat d). split; [lia|]. apply in_seq. lia.
Qed.

Lemma range_NoDup (n : Z) : NoDup (range n).
Proof. unfold range. apply (NoDup_fmap_2 Z.of_nat), NoDup_seq. Qed.

Lemma melodic_inserts_channels params t0 chs : forall b,
  melodic_inserts params t0 chs = inr b ->
  program_channels b = filter (fun ch => has_program_change_at_0 t0 ch = false) chs
  /\ tempo_count b = 0%nat.
Proof.
  induction chs as [|c chs IH]; intros b Hb; simpl in Hb.
  - by injection Hb as <-.
  - destruct (has_program_change_at_0 t0 c) eqn:E.
    + rewrite filter_cons_False by congruence. by apply IH.
    + apply bind_inr in Hb as (msg & Hm & Hb).
      apply bind_inr in Hb as (rest & Hrest & Hb). injection Hb as <-.
      unfold new_program_change in Hm.
      repeat (apply bind_inr in Hm as (? & _ & Hm)). injection Hm as <-.
      rewrite filter_cons_True by done.
      destruct (IH rest Hrest) as [H1 H2]. split.
      * change (program_channels (ProgramChange 0 c (program_base params + c) :: rest))
          with (c :: program_channels rest).
        by rewrite H1.
      * unfold tempo_count in *. by rewrite filter_cons_False.
Qed.

(** With the drum channel apart from the melodic ones, one run inserts
    at most one tempo and at most one program change per channel. *)
Lemma inserts_no_duplicates params t0 ins :
  drum_apart params -> inserts params t0 = inr ins ->
  NoDup (program_channels ins) /\ (tempo_count ins <= 1)%nat.
Proof.
  intros Hapart H. apply inserts_inv in H as (a & b & c & Ha & Hb & Hc & ->).
  apply melodic_inserts_channels in Hb as [Hb1 Hb2].
  assert (Ha' : program_channels a = [] /\ (tempo_count a <= 1)%nat).
  { apply tempo_insert_inv in Ha as [[_ ->]|[_ (tempo & _ & ->)]];
      (split; [done|]); cbv; lia. }
  assert (Hc' : tempo_count c = 0%nat
                /\ (program_channels c = []
                    \/ exists d, drum_midi_channel params = Some d
                                  /\ program_channels c = [d])).
  { unfold drum_insert in Hc. destruct (drum_midi_channel params) as [d|].
    - destruct ((0 <=? d) && (d <=? 15) && negb (has_program_change_at_0 t0 d)).
      + apply bind_inr in Hc as (msg & Hm & Hc). injection Hc as <-.
        unfold new_program_change in Hm.
        repeat (apply bind_inr in Hm as (? & _ & Hm)). injection Hm as <-.
        split; [done|]. right. by exists d.
      + injection Hc as <-. split; [done|by left].
    - injection Hc as <-. split; [done|by left]. }
  destruct Ha' as [Ha1 Ha2]. destruct Hc' as [Hc1 Hc2]. split.
  - unfold program_channels in *. rewrite !omap_app, Ha1, Hb1. simpl.
    apply NoDup_app. split; [apply NoDup_filter, range_NoDup|]. split.
    + intros x Hx Hxc. apply list_elem_of_filter in Hx as [_ Hx]. apply range_spec in Hx.
      destruct Hc2 as [Hc2|(d & Hd & Hc2)]; rewrite Hc2 in Hxc.
      * by apply elem_of_nil in Hxc.
      * apply list_elem_of_singleton in Hxc as ->.
        unfold drum_apart in Hapart. rewrite Hd in Hapart. contradiction.
    + destruct Hc2 as [->|(d & _ & ->)]; [apply NoDup_nil_2|apply NoDup_singleton].
  - unfold tempo_count in *. rewrite !filter_app, !length_app. lia.
Qed.

(** What is inserted: tempo events and program changes of delta time 0. *)
Lemma inserts_shape params t0 ins :
  inserts params t0 = inr ins ->
  Forall (fun m => (exists x, m = SetTempo 0 x) \/ (exists c pr, m = ProgramChange 0 c pr)) ins.
Proof.
  intros H. apply inserts_inv in H as (a & b & c & Ha & Hb & Hc & ->).
  apply Forall_app. split; [|apply Forall_app; split].
  - apply tempo_insert_inv in Ha as [[_ ->]|[_ (tempo & _ & ->)]]; [constructor|].
    constructor; [left; by eexists|constructor].
  - revert b Hb. induction (range (max_melodic_channels params)) as [|ch chs IH];
      intros b Hb; simpl in Hb.
    + injection Hb as <-. constructor.
    + destruct (has_program_change_at_0 t0 ch); [by apply IH|].
      apply bind_inr in Hb as (msg & Hm & Hb).
      apply bind_inr in Hb as (rest & Hrest & Hb). injection Hb as <-.
      unfold new_program_change in Hm.
      repeat (apply bind_inr in Hm as (? & _ & Hm)). injection Hm as <-.
      constructor; [right; by eexists _, _|by apply IH].
  - unfold drum_insert in Hc. destruct (drum_midi_channel params) as [d|].
    + destruct ((0 <=? d) && (d <=? 15) && negb (has_program_change_at_0 t0 d)).
      * apply bind_inr in Hc as (msg & Hm & Hc). injection Hc as <-.
        unfold new_program_change in Hm.
        repeat (apply bind_inr in Hm as (? & _ & Hm)). injection Hm as <-.
        constructor; [right; by eexists _, _|constructor].
      * injection Hc as <-. constructor.
    + injection Hc as <-. constructor.
Qed.

Lemma inserts_no_end params t0 ins :
  inserts params t0 = inr ins -> Forall (fun m => is_end_of_track m = false) ins.
Proof.
  intros H%inserts_shape. eapply Forall_impl; [exact H|].
  by intros m [[x ->]|(c & pr & ->)].
Qed.


(** The inserted block depends on the track through the two tests only. *)
Lemma melodic_inserts_ext params t t' chs :
  (forall ch, has_program_change_at_0 t ch = has_program_change_at_0 t' ch) ->
  melodic_inserts params t chs = melodic_inserts params t' chs.
Proof.
  intros H. induction chs as [|c chs IH]; simpl; [done|].
  by rewrite H, IH.
Qed.

Lemma inserts_ext params t t' :
  has_meta_set_tempo_at_0 t = has_meta_set_tempo_at_0 t' ->
  (forall ch, has_program_change_at_0 t ch = has_program_change_at_0 t' ch) ->
  inserts params t = inserts params t'.
Proof.
  intros Ht Hp. unfold inserts, tempo_insert, drum_insert.
  rewrite Ht, (melodic_inserts_ext params t t' _ Hp).
  destruct (drum_midi_channel params) as [d|]; [|done]. by rewrite (Hp d).
Qed.

(** *** The first track as it is written *)

Lemma fix_not_nil (tr : MidiTrack) : forall a, fix_end_of_track a tr <> [].
Proof.
  induction tr as [|m tr IH]; intros a; [done|].
  destruct m; simpl; done || apply IH.
Qed.

Lemma end_of_track_last_cons (m : Msg) (tr : MidiTrack) :
  tr <> [] ->
  end_of_track_last (m :: tr) = negb (is_end_of_track m) && end_of_track_last tr.
Proof. by destruct tr. Qed.

(** A written track has no [end_of_track] before its last message. *)
Lemma fix_end_last (tr : MidiTrack) : forall a,
  end_of_track_last (fix_end_of_track a tr) = true.
Proof.
  induction tr as [|m tr IH]; intros a; [done|].
  destruct (is_end_of_track m) eqn:E.
  - destruct m; try done. simpl. apply IH.
  - rewrite (fix_cons_keep a m tr E).
    rewrite end_of_track_last_cons by apply fix_not_nil.
    by rewrite is_end_of_track_set_time, E, IH.
Qed.

(** On a track with no [end_of_track] before its last message, a test on
    the messages that no [end_of_track] passes finds in the written track
    what it finds in the track. *)
Lemma fix_existsb (P : Msg -> bool) (tr : MidiTrack) :
  (forall d, P (EndOfTrack d) = false) ->
  end_of_track_last tr = true ->
  existsb P (fix_end_of_track 0 tr) = existsb P tr.
Proof.
  intros HP. induction tr as [|m tr IH]; intros Hlast.
  - simpl. by rewrite HP.
  - destruct tr as [|m' tr].
    + destruct (is_end_of_track m) eqn:E.
      * destruct m; try discriminate E. simpl. by rewrite !HP.
      * rewrite (fix_cons_keep 0 m [] E). simpl.
        by rewrite Z.add_0_l, set_time_time, HP.
    + rewrite end_of_track_last_cons in Hlast by done.
      apply andb_true_iff in Hlast as [E%negb_true_iff Hlast].
      rewrite (fix_cons_keep 0 m _ E), Z.add_0_l, set_time_time.
      change (existsb P (m :: fix_end_of_track 0 (m' :: tr)))
        with (P m || existsb P (fix_end_of_track 0 (m' :: tr))).
      by rewrite IH.
Qed.

Lemma inserts_written params (tr : MidiTrack) :
  end_of_track_last tr = true ->
  inserts params (fix_end_of_track 0 tr) = inserts params tr.
Proof.
  intros Hlast. apply inserts_ext.
  - apply fix_existsb; [|exact Hlast]. intros d. simpl. by destruct (d =? 0).
  - intros ch. apply fix_existsb; [|exact Hlast]. intros d. simpl. by destruct (d =? 0).
Qed.

Lemma end_of_track_last_app (pre tr : MidiTrack) :
  Forall (fun m => is_end_of_track m = false) pre ->
  end_of_track_last tr = true -> end_of_track_last (pre ++ tr) = true.
Proof.
  intros Hpre Hlast. induction Hpre as [|m pre Hm _ IH]; [done|].
  rewrite <- app_comm_cons.
  destruct (pre ++ tr) as [|m' l] eqn:E; [done|].
  rewrite end_of_track_last_cons by done.
  by rewrite Hm, IH.
Qed.

Lemma first_other_tracks (tpb : Z) (t0 : MidiTrack) (others : list MidiTrack) :
  first_track (mkMidiFile tpb (t0 :: others)) = t0
  /\ other_tracks (mkMidiFile tpb (t0 :: others)) = others.
Proof. done. Qed.

(** The file a run writes. *)
Lemma inject_init_events_inv params mid out :
  inject_init_events params mid = inr out ->
  exists ins,
    inserts params (first_track mid) = inr ins
    /\ save (mkMidiFile (ticks_per_beat mid) ((ins ++ first_track mid) :: other_tracks mid))
       = inr out
    /\ out = mkMidiFile (ticks_per_beat mid)
               ((ins ++ fix_end_of_track 0 (first_track mid))
                :: map (fix_end_of_track 0) (other_tracks mid)).
Proof.
  unfold inject_init_events. intros H.
  apply bind_inr in H as (ins & Hins & H).
  exists ins. split; [done|]. rewrite insert_all_prepends in H. split; [done|].
  apply save_inv in H as (_ & _ & ->). simpl.
  by rewrite (fix_app_keep ins) by by eapply inserts_no_end.
Qed.

(** A run that finds nothing to insert in a written file that has a
    track writes it again. *)
Lemma inject_nothing params (mid out : MidiFile) :
  save mid = inr out -> tracks mid <> [] ->
  inserts params (first_track out) = inr [] ->
  inject_init_events params out = inr out.
Proof.
  intros Hsave Hne Hnone. unfold inject_init_events. rewrite Hnone. simpl.
  pose proof (save_saved _ _ Hsave) as Hagain.
  apply save_inv in Hsave as (_ & _ & Hout).
  destruct (tracks mid) as [|t0 others] eqn:E; [done|].
  subst out. simpl in *. exact Hagain.
Qed.

End InjectorFacts.

Module InjectorSpec.
Import Py Mido Injector PyFacts MidoFacts InjectorFacts.

(** C4, as the code has it.  When the first track of the input has no
    [end_of_track] before its last message, as in every file that was
    written by [save], a second run of the injector on the file a first
    run wrote, with the same parameters, finds nothing to insert and
    writes that file again.  The file a run writes is such a file.  What
    the first run inserts goes in front of the first track as it is
    written, and each inserted event is a tempo or a program change of a
    channel for which the track had none at delta time 0; with the drum
    channel apart from the melodic channels, as with the defaults, it
    inserts at most one tempo and at most one program change per
    channel. *)
Theorem inject_init_events_idempotent (params : Params) (mid out : MidiFile) :
  inject_init_events params mid = inr out ->
  (end_of_track_last (first_track mid) = true ->
     inserts params (first_track out) = inr []
     /\ inject_init_events params out = inr out)
  /\ end_of_track_last (first_track out) = true
  /\ exists ins,
       inserts params (first_track mid) = inr ins
       /\ first_track out = ins ++ fix_end_of_track 0 (first_track mid)
       /\ Forall (fresh_in (first_track mid)) ins
       /\ (drum_apart params ->
           NoDup (program_channels ins) /\ (tempo_count ins <= 1)%nat).
Proof.
  intros H. apply inject_init_events_inv in H as (ins & Hins & Hsave & Hout).
  pose proof (inserts_no_end _ _ _ Hins) as Hkeep.
  assert (Hfirst : first_track out = fix_end_of_track 0 (ins ++ first_track mid)).
  { subst out. by rewrite (fix_app_keep ins). }
  split; [|split].
  - intros Hlast.
    assert (Hnone : inserts params (first_track out) = inr []).
    { rewrite Hfirst, inserts_written by (by apply end_of_track_last_app).
      by apply inserts_after_inserts. }
    split; [exact Hnone|]. by apply (inject_nothing _ _ _ Hsave).
  - rewrite Hfirst. apply fix_end_last.
  - exists ins. split; [done|]. split; [by subst out|].
    split; [by eapply inserts_new|]. intros Ha. by eapply inserts_no_duplicates.
Qed.

Lemma inject_init_events_idempotent_witness :
  exists out,
    inject_init_events default_params
      (mkMidiFile 480 [[NoteOn 0 1 60 90; ProgramChange 0 2 5; NoteOff 9 1 60 0;
                        EndOfTrack 0]])
      = inr out
    /\ inserts default_params (first_track out) = inr []
    /\ inject_init_events default_params out = inr out.
Proof.
  eexists. split; [vm_compute; reflexivity|].
  destruct (inject_init_events_idempotent default_params
              (mkMidiFile 480 [[NoteOn 0 1 60 90; ProgramChange 0 2 5; NoteOff 9 1 60 0;
                                EndOfTrack 0]])
              (mkMidiFile 480
                 [[SetTempo 0 500000; ProgramChange 0 0 1; ProgramChange 0 1 2;
                   ProgramChange 0 3 4; ProgramChange 0 4 5; ProgramChange 0 5 6;
                   ProgramChange 0 6 7; ProgramChange 0 7 8; ProgramChange 0 8 9;
                   ProgramChange 0 9 0; NoteOn 0 1 60 90; ProgramChange 0 2 5;
                   NoteOff 9 1 60 0; EndOfTrack 0]]))
    as (Hsecond & _); [vm_compute; reflexivity|].
  apply Hsecond. reflexivity.
Defined.

(** C4 as stated fails in two ways.  With a drum channel that is one of
    the melodic channels, one run on a track without program changes
    inserts two program changes for that channel.  And on a first track
    that has an [end_of_track] before a [set_tempo] of delta time 0, the
    first run keeps the tempo, which [save] then writes with the delta
    time of the removed [end_of_track], so that the second run inserts a
    tempo. *)
Lemma injector_inserts_duplicates :
  (exists out,
     inject_init_events (mkParams 120 1 4 (Some 3))
       (mkMidiFile 480 [[NoteOn 0 0 60 90; NoteOff 10 0 60 0; EndOfTrack 0]]) = inr out
     /\ first_track out =
          [SetTempo 0 500000; ProgramChange 0 0 1; ProgramChange 0 1 2;
           ProgramChange 0 2 3; ProgramChange 0 3 4; ProgramChange 0 3 0;
           NoteOn 0 0 60 90; NoteOff 10 0 60 0; EndOfTrack 0]
     /\ ~ NoDup (program_channels (first_track out)))
  /\ (exists out out2,
        inject_init_events default_params (mkMidiFile 480 [track_with_inner_end]) = inr out
        /\ inserts default_params (first_track out) = inr [SetTempo 0 500000]
        /\ inject_init_events default_params out = inr out2
        /\ out2 <> out
        /\ tempo_count (first_track out) = 1%nat
        /\ tempo_count (first_track out2) = 2%nat).
Proof.
  split.
  - eexists. split; [vm_compute; reflexivity|]. split; [reflexivity|].
    intros H. change (NoDup [0; 1; 2; 3; 3]) in H.
    do 3 apply NoDup_cons in H as [_ H]. apply NoDup_cons in H as [H _].
    apply H. by left.
  - eexists _, _. split; [vm_compute; reflexivity|].
    split; [vm_compute; reflexivity|]. split; [vm_compute; reflexivity|].
    split; [discriminate|]. split; reflexivity.
Qed.

(** C5, as the code has it.  When the first track has no set_tempo of
    delta time 0, the injector puts in front of it a set_tempo made from
    the requested BPM as it is, without clamping; for a requested BPM
    from 30 to 300 the BPM of the written tempo is that value, which is
    its own clamp. *)
Theorem inject_prepends_requested_tempo (params : Params) (mid out : MidiFile) :
  inject_init_events params mid = inr out ->
  has_meta_set_tempo_at_0 (first_track mid) = false ->
  exists tempo rest,
    bpm2tempo (tempo_bpm params) = inr tempo
    /\ first_track out = SetTempo 0 tempo :: rest
    /\ (30 <= tempo_bpm params <= 300 ->
        tempo2bpm_rounded tempo = inr (clamp 30 300 (tempo_bpm params))).
Proof.
  intros H Hno. apply inject_init_events_inv in H as (ins & Hins & _ & ->).
  apply inserts_inv in Hins as (a & b & c & Ha & _ & _ & ->).
  apply tempo_insert_inv in Ha as [[Hyes _]|[_ (tempo & Ht & ->)]]; [congruence|].
  exists tempo, ((b ++ c) ++ fix_end_of_track 0 (first_track mid)).
  split; [done|]. split; [done|].
  intros Hb. apply beat_div_inv in Ht as (_ & _ & ->).
  pose proof (round_div_tempo_range _ Hb) as Hr.
  pose proof float_limit_large as Hl.
  unfold tempo2bpm_rounded. rewrite beat_div_small by lia.
  rewrite bpm_round_trip by done. unfold clamp. f_equal. lia.
Qed.

Lemma inject_prepends_requested_tempo_witness :
  exists tempo rest out,
    inject_init_events (mkParams 140 1 9 (Some 9)) (mkMidiFile 480 [[NoteOn 0 1 60 90]]) = inr out
    /\ first_track out = SetTempo 0 tempo :: rest
    /\ tempo2bpm_rounded tempo = inr 140.
Proof.
  destruct (inject_prepends_requested_tempo (mkParams 140 1 9 (Some 9))
              (mkMidiFile 480 [[NoteOn 0 1 60 90]])
              (mkMidiFile 480
                 [[SetTempo 0 428571; ProgramChange 0 0 1; ProgramChange 0 1 2;
                   ProgramChange 0 2 3; ProgramChange 0 3 4; ProgramChange 0 4 5;
                   ProgramChange 0 5 6; ProgramChange 0 6 7; ProgramChange 0 7 8;
                   ProgramChange 0 8 9; ProgramChange 0 9 0; NoteOn 0 1 60 90;
                   EndOfTrack 0]]))
    as (tempo & rest & _ & Hfirst & Hbpm);
    [vm_compute; reflexivity|vm_compute; reflexivity|].
  exists tempo, rest. eexists. split; [vm_compute; reflexivity|].
  split; [exact Hfirst|]. apply Hbpm. simpl. lia.
Defined.

(** C5 as stated fails: on a first track without any set_tempo a
    requested 500 BPM is written as 120000 microseconds per beat, which
    is 500 BPM and not the clamped 300. *)
Lemma inject_tempo_not_clamped :
  has_set_tempo_at_tick_0 (first_track (mkMidiFile 480 [[NoteOn 0 1 60 90]])) = false
  /\ exists rest,
       inject_init_events (mkParams 500 1 9 (Some 9)) (mkMidiFile 480 [[NoteOn 0 1 60 90]])
         = inr (mkMidiFile 480 [SetTempo 0 120000 :: rest])
       /\ tempo2bpm_rounded 120000 = inr 500
       /\ tempo2bpm_rounded 120000 <> inr (clamp 30 300 500).
Proof.
  split; [reflexivity|]. eexists. split; [vm_compute; reflexivity|].
  split; [reflexivity|]. vm_compute. discriminate.
Qed.

End InjectorSpec.

Module DrumRemapFacts.
Import Py Models DrumRemap SortFacts.

Lemma collect_sound all m item :
  In item all -> sound all m -> sound all (collect m item).
Proof.
  intros Hin Hm. unfold collect. destruct item as [k info]; simpl.
  destruct (eligible info) as [cat|] eqn:E; [|done].
  intros cat' l q Hl Hq.
  destruct (decide (cat = cat')) as [<-|Hne].
  - rewrite lookup_insert_eq in Hl. injection Hl as <-.
    apply in_app_or in Hq as [Hq|[<-|[]]].
    + destruct (m !! cat) as [l0|] eqn:E0; simpl in Hq; [|done]. by eapply Hm.
    + by exists info.
  - rewrite lookup_insert_ne in Hl by done. by eapply Hm.
Qed.

Lemma collect_fold_sound all rs : forall m,
  incl rs all -> sound all m -> sound all (fold_left collect rs m).
Proof.
  induction rs as [|item rs IH]; intros m Hincl Hm; simpl; [done|].
  apply IH.
  - intros x Hx. apply Hincl. by right.
  - apply collect_sound; [apply Hincl; by left|done].
Qed.

Lemma category_notes_sound rs : sound rs (_build_rs_category_to_notes rs).
Proof.
  intros cat l q Hl Hq. unfold _build_rs_category_to_notes in Hl.
  rewrite lookup_fmap in Hl.
  destruct (fold_left collect rs ∅ !! cat) as [l0|] eqn:E; simpl in Hl; [|done].
  injection Hl as <-.
  apply (collect_fold_sound rs rs ∅) with (cat := cat) (l := l0).
  - apply incl_refl.
  - intros c l1 q1 H. by rewrite lookup_empty in H.
  - exact E.
  - apply list_elem_of_In. apply list_elem_of_In in Hq.
    unfold sorted_ints in Hq. by rewrite sort_by_perm in Hq.
Qed.

Lemma preferred_in_category cat m q :
  _preferred_rs_note cat m = Some q -> exists l, m !! cat = Some l /\ In q l.
Proof.
  unfold _preferred_rs_note.
  destruct (m !! cat) as [l|] eqn:E; cbn [default from_option]; [|done].
  destruct l as [|first rest]; [done|].
  intros H. exists (first :: rest). split; [done|]. revert H.
  destruct (assoc cat PREFERRED) as [pref|].
  - unfold id. case_bool_decide as Hp; intros [= <-].
    + by apply list_elem_of_In.
    + by left.
  - unfold id. intros [= <-]. by left.
Qed.

Lemma assign_fold_lookup pref items : forall m p q,
  fold_left (assign pref) items m !! p = Some q ->
  m !! p = Some q \/ exists cat, In (p, cat) items /\ pref !! cat = Some q.
Proof.
  induction items as [|[k cat] items IH]; intros m p q H; simpl in H; [by left|].
  apply IH in H as [H|(c & Hc & Hp)].
  - unfold assign in H. simpl in H.
    destruct (pref !! cat) as [r|] eqn:E; [|by left].
    destruct (decide (k = p)) as [->|Hne].
    + rewrite lookup_insert_eq in H. injection H as <-.
      right. exists cat. split; [by left|done].
    + rewrite lookup_insert_ne in H by done. by left.
  - right. exists c. split; [by right|done].
Qed.

(** Where an entry of the derived mapping comes from. *)
Lemma gm_to_rs_lookup rs p q :
  _build_gm_to_rs rs !! p = Some q ->
  exists cat,
    In (p, cat) GM_NOTE_TO_CATEGORY
    /\ _preferred_rs_note cat (_build_rs_category_to_notes rs) = Some q
    /\ exists info, In (q, info) rs /\ eligible info = Some cat.
Proof.
  unfold _build_gm_to_rs. intros H.
  apply assign_fold_lookup in H as [H|(cat & Hin & Hp)].
  { by rewrite lookup_empty in H. }
  exists cat. split; [done|].
  rewrite map_lookup_imap in Hp.
  destruct (_build_rs_category_to_notes rs !! cat) as [l|] eqn:E; simpl in Hp; [|done].
  split; [done|].
  apply preferred_in_category in Hp as (l' & Hl' & Hq).
  by eapply category_notes_sound.
Qed.


Lemma set_pitch_same n : set_pitch n (pitch n) = n.
Proof. by destruct n. Qed.

Lemma remap_loop_notes gm valid ns : forall c u,
  (remap_loop gm valid ns c u).1 = map (remapped gm) ns.
Proof.
  induction ns as [|n ns IH]; intros c u; simpl; [done|].
  unfold remapped at 1.
  destruct (decide (channel n = 9)) as [H9|H9];
    destruct (decide (channel n ≠ 9)) as [Hne|Hne]; try contradiction.
  - destruct (gm !! pitch n) as [q|].
    + destruct (decide (q ≠ pitch n)) as [Hq|Hq]; simpl; rewrite IH; [done|].
      assert (q = pitch n) as -> by (destruct (decide (q = pitch n)); [done|contradiction]).
      by rewrite set_pitch_same.
    + destruct (decide (pitch n ∈ valid)); simpl; by rewrite IH.
  - simpl. by rewrite IH.
Qed.


Lemma remapped_frame gm n :
  start_tick (remapped gm n) = start_tick n
  /\ end_tick (remapped gm n) = end_tick n
  /\ velocity (remapped gm n) = velocity n
  /\ channel (remapped gm n) = channel n
  /\ track_index (remapped gm n) = track_index n
  /\ (channel n <> 9 -> remapped gm n = n).
Proof.
  unfold remapped. destruct (decide (channel n = 9)); [|done].
  destruct (gm !! pitch n); simpl; repeat split; done.
Qed.

End DrumRemapFacts.

Module DrumRemapSpec.
Import Py Models DrumRemap SortFacts DrumRemapFacts.




(** C9. The remap returns as many notes as it got, in the same order;
    every note keeps its start tick, end tick, velocity, channel and
    track index, and a note whose channel is not 9 is unchanged. *)
Theorem remap_changes_only_channel_9_pitches
    (ns : list NoteEvent) (rs : Drumset) (keep_unmapped : bool) :
  let out := (remap_channel_9_notes_in_place ns rs keep_unmapped).1 in
  length out = length ns
  /\ Forall2 (fun n n' =>
                start_tick n' = start_tick n
                /\ end_tick n' = end_tick n
                /\ velocity n' = velocity n
                /\ channel n' = channel n
                /\ track_index n' = track_index n
                /\ (channel n <> 9 -> n' = n))
             ns out.
Proof.
  intros out. subst out. unfold remap_channel_9_notes_in_place.
  rewrite remap_loop_notes. split; [apply length_map|].
  induction ns as [|n ns IH]; simpl; constructor; [apply remapped_frame|exact IH].
Qed.

End DrumRemapSpec.

(* ===================================================================== *)
(** * Further properties *)
(* ===================================================================== *)

Module ModelsMoreFacts.
Import Py Models SortFacts.

Lemma sorted_ints_perm (l : list Z) : Permutation (sorted_ints l) l.
Proof. apply sort_by_perm. Qed.

Lemma sorted_ints_ascending (l : list Z) : StronglySorted Z.le (sorted_ints l).
Proof.
  pose proof (sort_by_sorted Z.leb) as H.
  eapply StronglySorted_Forall2 with (Q := eq) (l := sorted_ints l).
  - intros x y x' y' Hxy -> ->. apply Z.leb_le. exact Hxy.
  - induction (sorted_ints l); by constructor.
  - apply H.
    + intros x y. rewrite !Z.leb_le. lia.
    + intros x y z. rewrite !Z.leb_le. lia.
Qed.

Lemma sorted_nodup_strict (l : list Z) :
  StronglySorted Z.le l -> NoDup l -> StronglySorted Z.lt l.
Proof.
  induction 1 as [|x l Hl IH Hx]; intros Hnd; [constructor|].
  apply NoDup_cons in Hnd as [Hnotin Hnd].
  constructor; [by apply IH|].
  rewrite List.Forall_forall in *. intros y Hy.
  specialize (Hx y Hy).
  assert (x <> y) by (intros ->; apply Hnotin; by apply list_elem_of_In).
  lia.
Qed.

(** [sorted(s)] lists the members of [s] once each, in ascending order. *)
Lemma sorted_set_spec (s : gset Z) :
  StronglySorted Z.lt (sorted_set s) /\ forall x, In x (sorted_set s) <-> x ∈ s.
Proof.
  unfold sorted_set. split.
  - apply sorted_nodup_strict; [apply sorted_ints_ascending|].
    rewrite sorted_ints_perm. apply NoDup_elements.
  - intros x. rewrite <- list_elem_of_In, sorted_ints_perm. apply elem_of_elements.
Qed.

Lemma filter_filter_comm {A} (P Q : A -> Prop) `{forall x, Decision (P x)}
    `{forall x, Decision (Q x)} (l : list A) :
  filter P (filter Q l) = filter (fun x => P x /\ Q x) l.
Proof. apply list_filter_filter. Qed.

Lemma filter_ext_in {A} (P Q : A -> Prop) `{forall x, Decision (P x)}
    `{forall x, Decision (Q x)} (l : list A) :
  (forall x, In x l -> (P x <-> Q x)) -> filter P l = filter Q l.
Proof.
  induction l as [|x l IH]; intros Hpq; [done|].
  rewrite !filter_cons.
  assert (Hx : P x <-> Q x) by (apply Hpq; by left).
  rewrite IH by (intros y Hy; apply Hpq; by right).
  destruct (decide (P x)), (decide (Q x)); tauto.
Qed.

Lemma filter_none {A} (P : A -> Prop) `{forall x, Decision (P x)} (l : list A) :
  (forall x, In x l -> ~ P x) -> filter P l = [].
Proof.
  induction l as [|x l IH]; intros Hn; [done|].
  rewrite filter_cons_False by (apply Hn; by left).
  apply IH. intros y Hy. apply Hn. by right.
Qed.

Lemma filter_map_channel (f : NoteEvent -> NoteEvent) (c : Z) (ns : list NoteEvent) :
  filter (fun n => channel n = c) (map f ns) =
    map f (filter (fun n => channel (f n) = c) ns).
Proof.
  induction ns as [|n ns IH]; [done|]. simpl.
  rewrite !filter_cons, IH. by destruct (decide (channel (f n) = c)).
Qed.

Lemma delete_channel_twice (ch : Z) (p : MidiProject) :
  delete_channel ch (delete_channel ch p) = delete_channel ch p.
Proof.
  unfold delete_channel, pop. simpl. f_equal.
  - rewrite list_filter_filter. apply filter_ext_in. intros n _. tauto.
  - apply map_eq. intros j. rewrite !lookup_delete. by destruct (decide (ch = j)).
  - apply map_eq. intros j. rewrite !lookup_delete. by destruct (decide (ch = j)).
Qed.

Lemma used_channels_in (p : MidiProject) (c : Z) :
  In c (used_channels p) <-> notes_for_channel c p <> [].
Proof.
  unfold used_channels. rewrite (proj2 (sorted_set_spec _)).
  rewrite elem_of_list_to_set, list_elem_of_In, in_map_iff.
  unfold notes_for_channel. split.
  - intros (n & Hc & Hn) Hnil.
    assert (Hin : n ∈ filter (fun n => channel n = c) (notes p))
      by (apply list_elem_of_filter; split; [done|by apply list_elem_of_In]).
    rewrite Hnil in Hin. by apply elem_of_nil in Hin.
  - intros Hne. destruct (filter (fun n => channel n = c) (notes p)) as [|n l] eqn:E; [done|].
    assert (Hin : n ∈ filter (fun n => channel n = c) (notes p)) by (rewrite E; left).
    apply list_elem_of_filter in Hin as [Hc Hn]. exists n. split; [done|by apply list_elem_of_In].
Qed.

End ModelsMoreFacts.

Module ModelsMore.
Import Py Models ModelsFacts SortFacts ModelsMoreFacts.

(** X1. After [delete_channel ch] the project has no note on [ch], [ch]
    is not a used channel and has neither instrument nor label; the
    notes, instrument and label of every other channel are as before,
    in the same order; deleting again changes nothing. *)
Theorem delete_channel_removes_only_that_channel (ch c : Z) (p : MidiProject) :
  let q := delete_channel ch p in
  notes_for_channel c q = (if decide (c = ch) then [] else notes_for_channel c p)
  /\ ~ In ch (used_channels q)
  /\ channel_instrument_id q !! c =
       (if decide (c = ch) then None else channel_instrument_id p !! c)
  /\ channel_track_name q !! c =
       (if decide (c = ch) then None else channel_track_name p !! c)
  /\ delete_channel ch q = q.
Proof.
  intros q. subst q. unfold delete_channel, notes_for_channel, pop. simpl.
  split; [|split; [|split; [|split]]].
  - rewrite list_filter_filter. destruct (decide (c = ch)) as [->|Hne].
    + apply filter_none. intros n _ [H1 H2]. done.
    + apply filter_ext_in. intros n _. split; [tauto|]. intros H. split; [done|congruence].
  - unfold used_channels. simpl. rewrite (proj2 (sorted_set_spec _)).
    rewrite elem_of_list_to_set, list_elem_of_In, in_map_iff.
    intros (n & Hch & Hn). apply list_elem_of_In, list_elem_of_filter in Hn as [Hn _]. done.
  - rewrite lookup_delete. destruct (decide (ch = c)), (decide (c = ch)); congruence.
  - rewrite lookup_delete. destruct (decide (ch = c)), (decide (c = ch)); congruence.
  - apply delete_channel_twice.
Qed.

(** X2. [used_channels] lists each channel that has a note exactly once,
    in ascending order, and nothing else. *)
Theorem used_channels_sorted_and_complete (p : MidiProject) :
  StronglySorted Z.lt (used_channels p)
  /\ forall c, In c (used_channels p) <-> notes_for_channel c p <> [].
Proof.
  split; [apply sorted_set_spec|]. intros c. apply used_channels_in.
Qed.

(** X3. [merge_channel_into src dst] with [src <> dst] keeps the number
    of notes, leaves no note on [src], puts on [dst] the notes that were
    on [src] or [dst], in their order, and leaves the notes of every
    other channel alone.  The instrument of [src] is dropped and that of
    [dst] kept as it is, also when [dst] has none; [dst] keeps its label
    and takes the label of [src] only when it has none. *)
Theorem merge_channel_into_moves_notes (src dst : Z) (p : MidiProject) :
  src <> dst ->
  let q := merge_channel_into src dst p in
  length (notes q) = length (notes p)
  /\ notes_for_channel src q = []
  /\ notes_for_channel dst q =
       map (fun n => set_channel n dst)
           (filter (fun n => channel n = src \/ channel n = dst) (notes p))
  /\ (forall c, c <> src -> c <> dst -> notes_for_channel c q = notes_for_channel c p)
  /\ channel_instrument_id q !! src = None
  /\ channel_instrument_id q !! dst = channel_instrument_id p !! dst
  /\ channel_track_name q !! src = None
  /\ channel_track_name q !! dst =
       match channel_track_name p !! dst with
       | Some l => Some l
       | None => channel_track_name p !! src
       end.
Proof.
  intros Hne q. subst q. unfold merge_channel_into. rewrite decide_False by done.
  unfold notes_for_channel, pop, merge_labels. simpl.
  assert (Hm : forall n, merge_note src dst n =
                 if decide (channel n = src) then set_channel n dst else n) by done.
  split; [apply length_map|]. split; [|split; [|split]].
  - rewrite filter_map_channel.
    assert (E : filter (fun n => channel (merge_note src dst n) = src) (notes p) = []).
    { apply filter_none. intros n _. rewrite Hm.
      destruct (decide (channel n = src)); simpl; congruence. }
    by rewrite E.
  - rewrite filter_map_channel.
    erewrite (filter_ext_in (fun n => channel (merge_note src dst n) = dst)
                (fun n => channel n = src \/ channel n = dst)).
    + apply map_ext_in. intros n Hn.
      apply list_elem_of_In, list_elem_of_filter in Hn as [Hn _].
      rewrite Hm. destruct (decide (channel n = src)); [done|].
      destruct Hn as [Hn|Hn]; [done|]. destruct n; simpl in *; by subst.
    + intros n _. rewrite Hm. destruct (decide (channel n = src)); simpl; [tauto|].
      split; [tauto|]. intros [H|H]; done.
  - intros c Hc1 Hc2. rewrite filter_map_channel.
    erewrite (filter_ext_in (fun n => channel (merge_note src dst n) = c)
                (fun n => channel n = c)).
    + rewrite <- (map_id (filter _ (notes p))) at 2. apply map_ext_in. intros n Hn.
      apply list_elem_of_In, list_elem_of_filter in Hn as [Hn _].
      rewrite Hm. rewrite decide_False by congruence. done.
    + intros n _. rewrite Hm. destruct (decide (channel n = src)); simpl; [|done].
      split; congruence.
  - split; [apply lookup_delete_eq|]. split; [by apply lookup_delete_ne|].
    unfold pop. split.
    + apply lookup_delete_eq.
    + rewrite lookup_delete_ne by done.
      destruct (channel_track_name p !! src) as [l|] eqn:Es;
        destruct (channel_track_name p !! dst) as [l'|] eqn:Ed; try done.
      by rewrite lookup_insert_eq.
Qed.

Lemma merge_channel_into_moves_notes_witness :
  let p := mkProject 480 [mkNote 0 4 60 90 1 0; mkNote 2 6 62 91 2 0; mkNote 5 9 64 92 3 0]
                     {[ 1 := 11 ]} 120 {[ 1 := "lead"%string ]} ∅ in
  let q := merge_channel_into 1 2 p in
  notes_for_channel 2 q = [mkNote 0 4 60 90 2 0; mkNote 2 6 62 91 2 0]
  /\ channel_instrument_id q !! 2 = None
  /\ channel_track_name q !! 2 = Some "lead"%string.
Proof.
  intros p q. subst q.
  assert (Hne : (1:Z) <> 2) by lia.
  destruct (merge_channel_into_moves_notes 1 2 p Hne)
    as (_ & _ & Hdst & _ & _ & Hid & _ & Hname).
  split; [rewrite Hdst; vm_compute; reflexivity|].
  split; [rewrite Hid; vm_compute; reflexivity|].
  rewrite Hname. vm_compute. reflexivity.
Defined.

(** X4. [swap_channels a b] with [a <> b] puts on [a] the notes that
    were on [b] and on [b] the notes that were on [a], each list in its
    order, and leaves the notes of every other channel and the number of
    notes as they were. *)
Theorem swap_channels_exchanges_notes (a b : Z) (p : MidiProject) :
  a <> b ->
  let q := swap_channels a b p in
  length (notes q) = length (notes p)
  /\ notes_for_channel a q = map (fun n => set_channel n a) (notes_for_channel b p)
  /\ notes_for_channel b q = map (fun n => set_channel n b) (notes_for_channel a p)
  /\ (forall c, c <> a -> c <> b -> notes_for_channel c q = notes_for_channel c p).
Proof.
  intros Hne q. subst q. unfold swap_channels. rewrite decide_False by done.
  unfold notes_for_channel. simpl.
  assert (Hs : forall n, swap_note a b n =
                 if decide (channel n = a) then set_channel n b
                 else if decide (channel n = b) then set_channel n a else n) by done.
  split; [apply length_map|]. split; [|split].
  - rewrite filter_map_channel.
    erewrite (filter_ext_in (fun n => channel (swap_note a b n) = a) (fun n => channel n = b)).
    + apply map_ext_in. intros n Hn.
      apply list_elem_of_In, list_elem_of_filter in Hn as [Hn _].
      rewrite Hs. rewrite decide_False by congruence. by rewrite decide_True.
    + intros n _. rewrite Hs.
      destruct (decide (channel n = a)); simpl; [split; congruence|].
      destruct (decide (channel n = b)); simpl; [done|]. split; congruence.
  - rewrite filter_map_channel.
    erewrite (filter_ext_in (fun n => channel (swap_note a b n) = b) (fun n => channel n = a)).
    + apply map_ext_in. intros n Hn.
      apply list_elem_of_In, list_elem_of_filter in Hn as [Hn _].
      rewrite Hs. by rewrite decide_True.
    + intros n _. rewrite Hs.
      destruct (decide (channel n = a)); simpl; [done|].
      destruct (decide (channel n = b)); simpl; split; congruence.
  - intros c Hc1 Hc2. rewrite filter_map_channel.
    erewrite (filter_ext_in (fun n => channel (swap_note a b n) = c) (fun n => channel n = c)).
    + rewrite <- (map_id (filter _ (notes p))) at 2. apply map_ext_in. intros n Hn.
      apply list_elem_of_In, list_elem_of_filter in Hn as [Hn _].
      rewrite Hs. rewrite !decide_False by congruence. done.
    + intros n _. rewrite Hs.
      destruct (decide (channel n = a)); simpl; [split; congruence|].
      destruct (decide (channel n = b)); simpl; [split; congruence|done].
Qed.

Lemma swap_channels_exchanges_notes_witness :
  let p := mkProject 480 [mkNote 0 4 60 90 1 0; mkNote 2 6 62 91 2 0; mkNote 5 9 64 92 1 0]
                     ∅ 120 ∅ ∅ in
  notes_for_channel 2 (swap_channels 1 2 p) = [mkNote 0 4 60 90 2 0; mkNote 5 9 64 92 2 0].
Proof.
  intros p. assert (Hne : (1:Z) <> 2) by lia.
  destruct (swap_channels_exchanges_notes 1 2 p Hne) as (_ & _ & H & _).
  rewrite H. vm_compute. reflexivity.
Defined.

(** X5. Deleting [dst] after merging [src] into it leaves the project
    that deleting both channels leaves; two deletions can be done in
    either order. *)
Theorem delete_after_merge_deletes_both (src dst : Z) (p : MidiProject) :
  delete_channel dst (merge_channel_into src dst p) =
    delete_channel dst (delete_channel src p)
  /\ delete_channel dst (delete_channel src p) =
       delete_channel src (delete_channel dst p).
Proof.
  split.
  - unfold merge_channel_into. destruct (decide (src = dst)) as [->|Hne].
    + by rewrite delete_channel_twice.
    + unfold delete_channel, merge_labels, pop. simpl. f_equal.
      * induction (notes p) as [|n ns IH]; [done|]. simpl.
        destruct (decide (channel n = src)) as [Hs|Hs].
        -- assert (E : merge_note src dst n = set_channel n dst)
             by (unfold merge_note; by rewrite decide_True).
           rewrite E, filter_cons_False by (simpl; intros H; by apply H).
           rewrite (filter_cons_False (fun n => channel n <> src))
             by (intros H; by apply H).
           exact IH.
        -- assert (E : merge_note src dst n = n)
             by (unfold merge_note; by rewrite decide_False).
           rewrite E, (filter_cons_True (fun n => channel n <> src)) by done.
           rewrite !filter_cons, IH. done.
      * apply map_eq. intros j.
        destruct (channel_track_name p !! src) as [l|] eqn:Es;
          destruct (channel_track_name p !! dst) as [l'|] eqn:Ed;
          rewrite !lookup_delete; repeat case_decide; try done.
        subst. by rewrite lookup_insert_ne.
  - unfold delete_channel, pop. simpl. f_equal.
    + rewrite !list_filter_filter. apply filter_ext_in. intros n _. tauto.
    + apply map_eq. intros j. rewrite !lookup_delete.
      by destruct (decide (dst = j)), (decide (src = j)).
    + apply map_eq. intros j. rewrite !lookup_delete.
      by destruct (decide (dst = j)), (decide (src = j)).
Qed.

End ModelsMore.

Module GuiMore.
Import Py Models ModelsFacts SortFacts ModelsMoreFacts Gui.



(** X7. The filtered copy holds the notes of the channels that are not
    muted, in their order, and nothing of a muted channel; it records the
    muted set and keeps the time base, the tempo, the instruments and the
    labels, also those of muted channels. *)
Theorem filtered_copy_drops_muted_channels (muted : gset Z) (p : MidiProject) (c : Z) :
  let q := _filtered_project_copy muted p in
  notes_for_channel c q = (if decide (c ∈ muted) then [] else notes_for_channel c p)
  /\ (In c (used_channels q) <-> In c (used_channels p) /\ c ∉ muted)
  /\ muted_channels q = muted
  /\ Models.ticks_per_beat q = Models.ticks_per_beat p
  /\ Models.tempo_bpm q = Models.tempo_bpm p
  /\ channel_instrument_id q = channel_instrument_id p
  /\ channel_track_name q = channel_track_name p
  /\ _filtered_project_copy ∅ p =
       mkProject (Models.ticks_per_beat p) (notes p) (channel_instrument_id p)
                 (Models.tempo_bpm p) (channel_track_name p) ∅.
Proof.
  intros q.
  assert (Hnotes : notes_for_channel c q =
                     if decide (c ∈ muted) then [] else notes_for_channel c p).
  { subst q. unfold _filtered_project_copy, notes_for_channel. simpl.
    rewrite list_filter_filter. destruct (decide (c ∈ muted)) as [Hm|Hm].
    - apply filter_none. intros n _ [H1 H2]. by subst.
    - apply filter_ext_in. intros n _. split; [tauto|]. intros H. split; [done|by subst]. }
  split; [exact Hnotes|]. split.
  - rewrite !used_channels_in, Hnotes.
    destruct (decide (c ∈ muted)); tauto.
  - repeat split; try done.
    unfold _filtered_project_copy. f_equal.
    induction (notes p) as [|n ns IH]; [done|].
    rewrite filter_cons_True by set_solver. by rewrite IH.
Qed.

End GuiMore.

Module DecoderMoreFacts.
Import Py Mido Models MidiIO MidiIOWords PyFacts MidoFacts SortFacts DecoderFacts ModelsMoreFacts.

(** *** Labels *)

Lemma label_step_eq (o : option string) (s : gset Z) (m : Msg) :
  label_step (o, s) m =
    (match o with Some x => Some x | None => first_name [m] end,
     track_channels [m] ∪ s).
Proof.
  unfold label_step, track_channels.
  destruct m as [t c n v|t c n v|t c pr|t x|t name|t|t c|t b|t c], o as [x'|]; simpl;
    try destruct (nonempty (strip name)); f_equal; set_solver.
Qed.

Lemma first_name_cons (m : Msg) (tr : MidiTrack) :
  first_name (m :: tr) =
    match first_name [m] with Some x => Some x | None => first_name tr end.
Proof.
  destruct m as [t c n v|t c n v|t c pr|t x|t name|t|t c|t b|t c]; simpl; try done.
  by destruct (nonempty (strip name)).
Qed.

Lemma track_channels_cons (m : Msg) (tr : MidiTrack) :
  track_channels (m :: tr) = track_channels [m] ∪ track_channels tr.
Proof.
  unfold track_channels. simpl. destruct (channel_of m); simpl; set_solver.
Qed.

Lemma label_fold (tr : MidiTrack) : forall (o : option string) (s : gset Z),
  fold_left label_step tr (o, s) =
    (match o with Some x => Some x | None => first_name tr end,
     track_channels tr ∪ s).
Proof.
  induction tr as [|m tr IH]; intros o s.
  - simpl. destruct o; f_equal; unfold track_channels; set_solver.
  - change (fold_left label_step (m :: tr) (o, s))
      with (fold_left label_step tr (label_step (o, s) m)).
    rewrite label_step_eq. rewrite IH.
    rewrite (first_name_cons m tr), (track_channels_cons m tr).
    f_equal; [|set_solver].
    destruct o; [done|]. by destruct (first_name [m]).
Qed.

Lemma setdefault_fold (name : string) (l : list Z) : forall (out : gmap Z string) (ch : Z),
  fold_left (fun o c => setdefault c name o) l out !! ch =
    match out !! ch with
    | Some x => Some x
    | None => if decide (ch ∈ l) then Some name else None
    end.
Proof.
  induction l as [|c l IH]; intros out ch; cbn [fold_left].
  - destruct (out !! ch); [done|]. case_decide as H; [|done]. by apply elem_of_nil in H.
  - rewrite IH. unfold setdefault.
    destruct (out !! c) as [x|] eqn:Ec.
    + destruct (out !! ch) as [y|] eqn:Ech; [done|].
      assert (Hne : ch <> c) by congruence.
      repeat case_decide; set_solver.
    + destruct (decide (c = ch)) as [->|Hne].
      * rewrite lookup_insert_eq, Ec. case_decide; set_solver.
      * rewrite lookup_insert_ne by done. destruct (out !! ch); [done|].
        repeat case_decide; set_solver.
Qed.

Lemma label_track_lookup (out : gmap Z string) (tr : MidiTrack) (ch : Z) :
  label_track out tr !! ch =
    match out !! ch with
    | Some l => Some l
    | None => if decide (ch ∈ track_channels tr) then first_name tr else None
    end.
Proof.
  unfold label_track. rewrite label_fold. simpl.
  destruct (first_name tr) as [name|].
  - rewrite setdefault_fold. destruct (out !! ch); [done|].
    assert (Hiff : ch ∈ sorted_set (track_channels tr ∪ ∅) <-> ch ∈ track_channels tr).
    { rewrite list_elem_of_In, (proj2 (sorted_set_spec _)). set_solver. }
    destruct (decide (ch ∈ sorted_set (track_channels tr ∪ ∅))),
             (decide (ch ∈ track_channels tr)); tauto.
  - destruct (out !! ch); [done|]. by destruct (decide (ch ∈ track_channels tr)).
Qed.

Lemma label_tracks_lookup (trs : list MidiTrack) : forall (out : gmap Z string) (ch : Z),
  fold_left label_track trs out !! ch =
    match out !! ch with
    | Some l => Some l
    | None => label_of ch trs
    end.
Proof.
  induction trs as [|tr trs IH]; intros out ch; simpl.
  - by destruct (out !! ch).
  - rewrite IH, label_track_lookup. destruct (out !! ch); [done|].
    by destruct (decide (ch ∈ track_channels tr)); [destruct (first_name tr)|].
Qed.

End DecoderMoreFacts.

Module DecoderMore.
Import Py Mido Models MidiIO MidiIOWords PyFacts MidoFacts SortFacts DecoderFacts ModelsMoreFacts.
Import DecoderMoreFacts.

(** X8. The label a decoded file gives a channel is the name of the first
    track, in file order, that has a non-blank [track_name] and a message
    with that channel; the name of a track is its first non-blank
    [track_name], stripped of Latin-1 white space.  The messages with a
    channel are the channel messages and the [channel_prefix] meta
    message.  A track never changes a label an earlier track has set. *)
Theorem channel_labels_first_named_track_wins (mid : MidiFile) (ch : Z) :
  _extract_channel_track_names mid !! ch = label_of ch (tracks mid)
  /\ (forall (out : gmap Z string) (tr : MidiTrack),
        label_track out tr !! ch =
          match out !! ch with
          | Some l => Some l
          | None => if decide (ch ∈ track_channels tr) then first_name tr else None
          end)
  /\ (forall tr : MidiTrack,
        ch ∈ track_channels tr <-> exists m, In m tr /\ channel_of m = Some ch)
  /\ (forall t c, channel_of (ChannelPrefix t c) = Some c)
  /\ (forall t b, channel_of (Other t b) = None).
Proof.
  split; [|split; [|split; [|done]]].
  - unfold _extract_channel_track_names. rewrite label_tracks_lookup.
    by rewrite lookup_empty.
  - intros out tr. apply label_track_lookup.
  - intros tr. unfold track_channels.
    rewrite elem_of_list_to_set, list_elem_of_omap.
    split; intros (m & Hm & Hc); exists m; by rewrite ?list_elem_of_In in *.
Qed.

(** A name between a no-break space and a next-line character, on a track
    with a [channel_prefix] for channel 5 and a note on channel 2. *)
Lemma channel_labels_first_named_track_wins_witness :
  let name := String (ascii_of_nat 160) ("Lead" +:+ String (ascii_of_nat 133) " ") in
  let mid := mkMidiFile 480 [[NoteOn 0 7 60 90];
                             [TrackName 0 " "; TrackName 0 name; ChannelPrefix 0 5;
                              NoteOn 0 2 60 90];
                             [TrackName 0 "Bass"; NoteOn 0 2 40 90; NoteOn 0 3 40 90]] in
  _extract_channel_track_names mid !! 5 = Some "Lead"
  /\ _extract_channel_track_names mid !! 2 = Some "Lead"
  /\ _extract_channel_track_names mid !! 3 = Some "Bass"
  /\ _extract_channel_track_names mid !! 7 = None.
Proof.
  intros name mid.
  rewrite (proj1 (channel_labels_first_named_track_wins mid 5)).
  rewrite (proj1 (channel_labels_first_named_track_wins mid 2)).
  rewrite (proj1 (channel_labels_first_named_track_wins mid 3)).
  rewrite (proj1 (channel_labels_first_named_track_wins mid 7)).
  repeat split; vm_compute; reflexivity.
Defined.

(** X9. [_extract_tempo_bpm] returns 120 for a file without [set_tempo].
    Otherwise it reads the first [set_tempo] in file order: for a tempo of
    0 it raises a division by zero (a tempo too large for a float, which
    no message carries, would raise an overflow), and for any other tempo
    it returns the integer nearest to 60000000 / tempo, the even one of
    two that are equally near, clamped to 30..300.  Every value it returns
    is from 30 to 300. *)
Theorem extract_tempo_bpm_value (mid : MidiFile) :
  (first_tempo (concat (tracks mid)) = None -> _extract_tempo_bpm mid = inr 120)
  /\ (forall pre d tempo post,
        concat (tracks mid) = pre ++ SetTempo d tempo :: post ->
        Forall (fun m => match m with SetTempo _ _ => False | _ => True end) pre ->
        first_tempo (concat (tracks mid)) = Some tempo
        /\ (tempo = 0 -> _extract_tempo_bpm mid = inl ZeroDivisionError)
        /\ (float_limit <= Z.abs tempo -> _extract_tempo_bpm mid = inl OverflowError)
        /\ (tempo <> 0 -> Z.abs tempo < float_limit ->
            exists b,
              _extract_tempo_bpm mid = inr (clamp 30 300 b)
              /\ 2 * Z.abs (b * tempo - 60000000) <= Z.abs tempo
              /\ (2 * Z.abs (b * tempo - 60000000) = Z.abs tempo -> Z.even b = true)
              /\ forall b',
                   2 * Z.abs (b' * tempo - 60000000) <= Z.abs tempo ->
                   (2 * Z.abs (b' * tempo - 60000000) = Z.abs tempo -> Z.even b' = true) ->
                   b' = b))
  /\ (forall bpm, _extract_tempo_bpm mid = inr bpm -> 30 <= bpm <= 300)
  /\ (forall e, _extract_tempo_bpm mid = inl e ->
        (e = ZeroDivisionError /\ first_tempo (concat (tracks mid)) = Some 0)
        \/ (e = OverflowError
            /\ exists tempo, first_tempo (concat (tracks mid)) = Some tempo
                             /\ float_limit <= Z.abs tempo)).
Proof.
  unfold _extract_tempo_bpm, tempo2bpm_rounded.
  split; [|split; [|split]].
  - by intros ->.
  - intros pre d tempo post Hcat Hpre.
    assert (Hfirst : first_tempo (concat (tracks mid)) = Some tempo).
    { rewrite Hcat. clear Hcat.
      induction Hpre as [|m pre Hm _ IH]; [done|]. simpl. destruct m; try done. }
    rewrite Hfirst. split; [done|].
    pose proof float_limit_large as Hl.
    split; [by intros ->|]. split.
    + intros Hbig. unfold beat_div.
      destruct (Z.eqb_spec tempo 0) as [->|_]; [simpl in Hbig; lia|].
      destruct (Z.leb_spec float_limit (Z.abs tempo)); [done|lia].
    + intros Hne Hsmall. rewrite beat_div_small by done. simpl.
      exists (round_div 60000000 tempo). split; [done|].
      destruct (round_div_nearest 60000000 tempo Hne) as [Hn He].
      split; [done|]. split; [done|].
      intros b' Hn' He'. by apply (nearest_unique 60000000 tempo).
  - intros bpm. destruct (first_tempo _) as [t|]; [|intros [= <-]; lia].
    destruct (beat_div t); [done|]. simpl. intros [= <-]. unfold clamp. lia.
  - intros e. destruct (first_tempo _) as [t|]; [|done].
    unfold beat_div. destruct (Z.eqb_spec t 0) as [->|Hne]; simpl.
    + intros [= <-]. by left.
    + destruct (Z.leb_spec float_limit (Z.abs t)); simpl; [|done].
      intros [= <-]. right. split; [done|]. by exists t.
Qed.

Lemma extract_tempo_bpm_value_witness :
  _extract_tempo_bpm
    (mkMidiFile 480 [[NoteOn 0 0 60 90; EndOfTrack 0];
                     [SetTempo 5 428571; SetTempo 0 500000; EndOfTrack 0]])
    = inr 140
  /\ _extract_tempo_bpm (mkMidiFile 480 [[SetTempo 0 100000; EndOfTrack 0]]) = inr 300
  /\ _extract_tempo_bpm (mkMidiFile 480 [[NoteOn 0 0 60 90; EndOfTrack 0]]) = inr 120
  /\ _extract_tempo_bpm (mkMidiFile 480 [[SetTempo 0 0; EndOfTrack 0]])
     = inl ZeroDivisionError.
Proof.
  pose proof float_limit_large as Hl.
  split; [|split; [|split]].
  - destruct (extract_tempo_bpm_value
                (mkMidiFile 480 [[NoteOn 0 0 60 90; EndOfTrack 0];
                                 [SetTempo 5 428571; SetTempo 0 500000; EndOfTrack 0]]))
      as (_ & Hval & _).
    destruct (Hval [NoteOn 0 0 60 90; EndOfTrack 0] 5 428571
                [SetTempo 0 500000; EndOfTrack 0])
      as (_ & _ & _ & Hb); [reflexivity|repeat constructor|].
    destruct Hb as (b & -> & _ & _ & Huniq); [lia|lia|].
    rewrite <- (Huniq 140); [reflexivity|lia|lia].
  - destruct (extract_tempo_bpm_value (mkMidiFile 480 [[SetTempo 0 100000; EndOfTrack 0]]))
      as (_ & Hval & _).
    destruct (Hval [] 0 100000 [EndOfTrack 0]) as (_ & _ & _ & Hb);
      [reflexivity|constructor|].
    destruct Hb as (b & -> & _ & _ & Huniq); [lia|lia|].
    rewrite <- (Huniq 600); [reflexivity|lia|lia].
  - apply (extract_tempo_bpm_value (mkMidiFile 480 [[NoteOn 0 0 60 90; EndOfTrack 0]])).
    reflexivity.
  - destruct (extract_tempo_bpm_value (mkMidiFile 480 [[SetTempo 0 0; EndOfTrack 0]]))
      as (_ & Hval & _).
    apply (Hval [] 0 0 [EndOfTrack 0]); [reflexivity|constructor|reflexivity].
Defined.

End DecoderMore.

Module DecoderSoundFacts.
Import Py Mido Models MidiIO MidiIOWords PyFacts MidoFacts DecoderFacts.

(** *** The accumulated notes are only appended to *)

Lemma close_note_acc_app t now ch p a pre ns :
  close_note t now ch p a (pre ++ ns) =
    mkDecode (abs_tick (close_note t now ch p a ns))
             (active (close_note t now ch p a ns))
             (pre ++ acc_notes (close_note t now ch p a ns)).
Proof.
  unfold close_note.
  destruct (active_get (ch, p) a) as [[|[start vel] rest]|]; simpl; try done.
  destruct (start <? now); [|done]. by rewrite app_assoc.
Qed.

Lemma decode_msg_acc_app t pre st m :
  decode_msg t (mkDecode (abs_tick st) (active st) (pre ++ acc_notes st)) m =
    mkDecode (abs_tick (decode_msg t st m)) (active (decode_msg t st m))
             (pre ++ acc_notes (decode_msg t st m)).
Proof.
  unfold decode_msg.
  destruct m as [d c n v|d c n v| | | | | | |]; simpl; try done.
  - destruct (0 <? v); [done|]. destruct (v =? 0); [|done].
    apply close_note_acc_app.
  - apply close_note_acc_app.
Qed.

Lemma decode_fold_acc_app t pre tr : forall st,
  fold_left (decode_msg t) tr (mkDecode (abs_tick st) (active st) (pre ++ acc_notes st)) =
    mkDecode (abs_tick (fold_left (decode_msg t) tr st))
             (active (fold_left (decode_msg t) tr st))
             (pre ++ acc_notes (fold_left (decode_msg t) tr st)).
Proof.
  induction tr as [|m tr IH]; intros st; simpl; [done|].
  rewrite decode_msg_acc_app. apply IH.
Qed.

Lemma decode_track_app t tr ns :
  decode_track t tr ns = ns ++ decode_track t tr [].
Proof.
  unfold decode_track.
  pose proof (decode_fold_acc_app t ns tr (mkDecode 0 [] [])) as H.
  simpl in H. rewrite app_nil_r in H. rewrite H. simpl. by rewrite app_assoc.
Qed.

(** *** The pending note-ons *)

Lemma pendings_append_in (key : Z * Z) (x : Pending) (a : Active) y :
  In y (pendings (active_append key x a)) <-> In y (pendings a) \/ y = (key, x).
Proof.
  unfold pendings. induction a as [|[k l] a IH]; simpl.
  - intuition.
  - destruct (decide (k = key)) as [->|Hk]; simpl.
    + rewrite !in_app_iff, map_app, in_app_iff. simpl. intuition.
    + rewrite !in_app_iff, IH. intuition.
Qed.

Lemma pendings_append_length (key : Z * Z) (x : Pending) (a : Active) :
  length (pendings (active_append key x a)) = S (length (pendings a)).
Proof.
  unfold pendings. induction a as [|[k l] a IH]; simpl; [done|].
  destruct (decide (k = key)) as [->|Hk]; simpl.
  - rewrite !length_app, !length_map, length_app. simpl. lia.
  - rewrite !length_app, IH. lia.
Qed.

Lemma pendings_pop (key : Z * Z) (x : Pending) (rest : list Pending) (a : Active) :
  active_get key a = Some (x :: rest) ->
  In (key, x) (pendings a)
  /\ (forall y, In y (pendings (active_set key rest a)) -> In y (pendings a))
  /\ length (pendings a) = S (length (pendings (active_set key rest a))).
Proof.
  unfold pendings. induction a as [|[k l] a IH]; simpl; [done|].
  destruct (decide (k = key)) as [->|Hk]; simpl.
  - intros [= ->]. simpl. split; [by left|]. split; [|done].
    intros y [Hy|Hy]%in_app_iff; right; apply in_app_iff; auto.
  - intros H. destruct (IH H) as (H1 & H2 & H3). split; [|split].
    + apply in_app_iff. by right.
    + intros y [Hy|Hy]%in_app_iff; apply in_app_iff; auto.
    + rewrite !length_app. lia.
Qed.

(** *** One message *)

Lemma decode_msg_tick t st m : abs_tick (decode_msg t st m) = abs_tick st + time m.
Proof.
  unfold decode_msg, close_note.
  destruct m as [d c n v|d c n v| | | | | | |]; simpl; try done.
  - destruct (0 <? v); [done|]. destruct (v =? 0); [|done].
    by destruct (active_get (c, n) (active st)) as [[|[start vel] rest]|].
  - by destruct (active_get (c, n) (active st)) as [[|[start vel] rest]|].
Qed.

Lemma close_note_steps t now ch p a ns :
  let st' := close_note t now ch p a ns in
  (forall y, In y (pendings (active st')) -> In y (pendings a))
  /\ (forall n, In n (acc_notes st') ->
        In n ns
        \/ (track_index n = t /\ channel n = ch /\ pitch n = p /\ end_tick n = now
            /\ In ((ch, p), (start_tick n, velocity n)) (pendings a)))
  /\ (length (acc_notes st') + length (pendings (active st'))
      <= length ns + length (pendings a))%nat.
Proof.
  unfold close_note.
  destruct (active_get (ch, p) a) as [[|[start vel] rest]|] eqn:E; simpl;
    try (split; [done|split; [by left|lia]]).
  destruct (pendings_pop _ _ _ _ E) as (H1 & H2 & H3).
  split; [done|]. split.
  - intros n. destruct (start <? now); [|by left].
    intros [Hn|Hn]%in_app_iff; [by left|]. right.
    destruct Hn as [<-|[]]. simpl. done.
  - destruct (start <? now); rewrite ?length_app; simpl; lia.
Qed.

Lemma decode_msg_steps t st m :
  let st' := decode_msg t st m in
  (forall y, In y (pendings (active st')) ->
     In y (pendings (active st))
     \/ (exists d, m = NoteOn d y.1.1 y.1.2 y.2.2)
        /\ y.2.1 = abs_tick st + time m /\ 0 < y.2.2)
  /\ (forall n, In n (acc_notes st') ->
        In n (acc_notes st)
        \/ (track_index n = t /\ end_tick n = abs_tick st + time m
            /\ closing_key m = Some (channel n, pitch n)
            /\ In ((channel n, pitch n), (start_tick n, velocity n))
                  (pendings (active st))))
  /\ (length (acc_notes st') + length (pendings (active st'))
      <= length (acc_notes st) + length (pendings (active st))
         + (if is_sounding_note_on m then 1 else 0))%nat.
Proof.
  unfold decode_msg.
  destruct m as [d c n v|d c n v| | | | | | |]; simpl;
    try (split; [by left|split; [by left|lia]]).
  - destruct (Z.ltb_spec 0 v) as [Hv|Hv]; simpl.
    + split; [|split; [by left|]].
      * intros y [Hy| ->]%pendings_append_in; [by left|]. right. simpl. eauto.
      * rewrite pendings_append_length. lia.
    + destruct (Z.eqb_spec v 0) as [->|Hv0]; simpl;
        [|split; [by left|split; [by left|lia]]].
      destruct (close_note_steps t (abs_tick st + d) c n (active st) (acc_notes st))
        as (H1 & H2 & H3).
      split; [intros y Hy; left; by apply H1|]. split; [|simpl in *; lia].
      intros x Hx. destruct (H2 x Hx) as [?|(? & <- & <- & ? & ?)]; [by left|].
      right. done.
  - destruct (close_note_steps t (abs_tick st + d) c n (active st) (acc_notes st))
      as (H1 & H2 & H3).
    split; [intros y Hy; left; by apply H1|]. split; [|simpl in *; lia].
    intros x Hx. destruct (H2 x Hx) as [?|(? & <- & <- & ? & ?)]; [by left|].
    right. done.
Qed.

(** *** A track *)

Lemma final_tick_from tr : forall T,
  fold_left (fun t m => t + time m) tr T = T + final_tick tr.
Proof.
  unfold final_tick. induction tr as [|m tr IH]; intros T; simpl; [lia|].
  rewrite IH, (IH (0 + time m)). lia.
Qed.

Lemma decode_fold_tick t tr : forall st,
  abs_tick (fold_left (decode_msg t) tr st) = abs_tick st + final_tick tr.
Proof.
  induction tr as [|m tr IH]; intros st; simpl.
  - unfold final_tick. simpl. lia.
  - rewrite IH, decode_msg_tick.
    change (final_tick (m :: tr))
      with (fold_left (fun t m => t + time m) tr (0 + time m)).
    rewrite (final_tick_from tr (0 + time m)). lia.
Qed.

Lemma decode_fold_sound t tr : forall st,
  let st' := fold_left (decode_msg t) tr st in
  (forall y, In y (pendings (active st')) ->
     In y (pendings (active st))
     \/ (exists d, In (y.2.1, NoteOn d y.1.1 y.1.2 y.2.2)
                      (absolute_from (abs_tick st) tr))
        /\ 0 < y.2.2)
  /\ (forall n, In n (acc_notes st') ->
        In n (acc_notes st)
        \/ (track_index n = t
            /\ (exists m, In (end_tick n, m) (absolute_from (abs_tick st) tr)
                          /\ closing_key m = Some (channel n, pitch n))
            /\ (In ((channel n, pitch n), (start_tick n, velocity n))
                   (pendings (active st))
                \/ (exists d, In (start_tick n,
                                  NoteOn d (channel n) (pitch n) (velocity n))
                                 (absolute_from (abs_tick st) tr))
                   /\ 0 < velocity n)))
  /\ (length (acc_notes st') + length (pendings (active st'))
      <= length (acc_notes st) + length (pendings (active st)) + note_on_count tr)%nat.
Proof.
  induction tr as [|m tr IH]; intros st; cbn [fold_left absolute_from].
  - split; [by left|]. split; [by left|]. unfold note_on_count. simpl. lia.
  - destruct (IH (decode_msg t st m)) as (I1 & I2 & I3).
    destruct (decode_msg_steps t st m) as (S1 & S2 & S3).
    rewrite decode_msg_tick in I1, I2.
    split; [|split].
    + intros y Hy. destruct (I1 y Hy) as [Hy'|([d Hd] & Hv)].
      * destruct (S1 y Hy') as [?|([d ->] & Ht & Hv)]; [by left|].
        right. split; [|done]. exists d. left. simpl in *. by rewrite Ht.
      * right. split; [|done]. exists d. by right.
    + intros n Hn. destruct (I2 n Hn) as [Hn'|(Ht & (m' & Hm' & Hk) & Hs)].
      * destruct (S2 n Hn') as [?|(Ht & He & Hk & Hp)]; [by left|].
        right. split; [done|]. split; [|by left].
        exists m. split; [|done]. left. by rewrite He.
      * right. split; [done|]. split; [exists m'; split; [by right|done]|].
        destruct Hs as [Hs|([d Hd] & Hv)].
        -- destruct (S1 _ Hs) as [?|([d Hd] & Ht' & Hv)]; [by left|].
           right. split; [|done]. exists d. left. simpl in *. by rewrite Ht', Hd.
        -- right. split; [|done]. exists d. by right.
    + assert (Hc : note_on_count (m :: tr)
                   = ((if is_sounding_note_on m then 1 else 0) + note_on_count tr)%nat).
      { unfold note_on_count, MidiTrack. rewrite filter_cons.
        destruct (is_sounding_note_on m) eqn:E.
        - by rewrite decide_True.
        - by rewrite decide_False. }
      rewrite Hc. lia.
Qed.

Lemma note_on_count_cons m tr :
  note_on_count (m :: tr)
    = ((if is_sounding_note_on m then 1 else 0) + note_on_count tr)%nat.
Proof.
  unfold note_on_count, MidiTrack. rewrite filter_cons.
  destruct (is_sounding_note_on m) eqn:E.
  - by rewrite decide_True.
  - by rewrite decide_False.
Qed.

Lemma decode_fold_unclosed t tr : forall st,
  Forall (fun m => closing_key m = None) tr ->
  acc_notes (fold_left (decode_msg t) tr st) = acc_notes st
  /\ length (pendings (active (fold_left (decode_msg t) tr st)))
     = (length (pendings (active st)) + note_on_count tr)%nat.
Proof.
  induction tr as [|m tr IH]; intros st Hall.
  - simpl. unfold note_on_count. simpl. split; [done|lia].
  - inversion Hall as [|? ? Hm Htr]; subst.
    cbn [fold_left]. destruct (IH (decode_msg t st m) Htr) as [-> ->].
    rewrite note_on_count_cons. unfold decode_msg.
    destruct m as [d c n v|d c n v| | | | | | |]; simpl in *; try (split; [done|lia]);
      try discriminate.
    destruct (Z.ltb_spec 0 v) as [Hv|Hv]; simpl.
    + rewrite pendings_append_length. split; [done|lia].
    + destruct (v =? 0); [discriminate|]. simpl. split; [done|lia].
Qed.

Lemma close_stuck_pendings t final a :
  close_stuck t final a =
    map (fun y : (Z * Z) * Pending =>
           mkNote y.2.1 (Z.max (y.2.1 + 1) final) y.1.2 y.2.2 y.1.1 t)
        (pendings a).
Proof.
  unfold close_stuck, pendings. induction a as [|[[c p] l] a IH]; simpl; [done|].
  rewrite map_app, IH. f_equal. rewrite map_map. apply map_ext. by intros [s v].
Qed.

Lemma absolute_from_bounds tr : forall T x,
  Forall (fun m => 0 <= time m) tr ->
  In x (absolute_from T tr) -> T <= x.1 <= T + final_tick tr.
Proof.
  induction tr as [|m tr IH]; intros T x Hall Hx; [done|].
  apply Forall_cons in Hall as [Hm Hall].
  assert (Hf : 0 <= final_tick tr).
  { clear -Hall. induction Hall as [|m' tr' Hm' _ IH']; [done|].
    change (final_tick (m' :: tr'))
      with (fold_left (fun t m => t + time m) tr' (0 + time m')).
    rewrite final_tick_from. lia. }
  change (final_tick (m :: tr)) with (fold_left (fun t m => t + time m) tr (0 + time m)).
  rewrite final_tick_from.
  destruct Hx as [<-|Hx]; simpl; [lia|].
  specialize (IH _ _ Hall Hx). lia.
Qed.

End DecoderSoundFacts.

Module DecoderSound.
Import Py Mido Models MidiIO MidiIOWords PyFacts MidoFacts DecoderFacts DecoderSoundFacts.

(** X10. The tracks of a file are decoded independently of each other:
    the notes of a file are the notes of its first track decoded alone,
    then those of its second track, and so on, each with the index of its
    track; a note-on that is pending at the end of a track is closed
    there and never by a message of a later track. *)
Theorem tracks_are_decoded_independently (trs : list MidiTrack) (t : Z)
    (ns : list NoteEvent) :
  decode_tracks t trs ns =
    ns ++ concat (imap (fun i tr => decode_track (t + Z.of_nat i) tr []) trs).
Proof.
  revert t ns.
  induction trs as [|tr trs IH]; intros t ns; simpl.
  - by rewrite app_nil_r.
  - rewrite IH, decode_track_app, <- app_assoc. f_equal.
    rewrite Z.add_0_r. f_equal. f_equal.
    apply imap_ext. intros i x _. simpl. f_equal. lia.
Qed.

(** X11. Every note the decoder makes of a track comes from a note-on of
    that track: it carries the index of the track, and the track has a
    [note_on] of the note's channel, pitch and velocity, which is
    positive, at the absolute tick where the note starts.  The note ends
    either at the absolute tick of a message of the track that closes its
    channel and pitch (a [note_off], or a [note_on] of velocity 0), or, if
    it was never closed, at the later of the end of the track and one tick
    after its start. *)
Theorem decoded_note_has_its_note_on (t : Z) (tr : MidiTrack) (n : NoteEvent) :
  In n (decode_track t tr []) ->
  track_index n = t
  /\ 0 < velocity n
  /\ (exists d, In (start_tick n, NoteOn d (channel n) (pitch n) (velocity n))
                   (absolute tr))
  /\ ((exists m, In (end_tick n, m) (absolute tr)
                 /\ closing_key m = Some (channel n, pitch n))
      \/ end_tick n = Z.max (start_tick n + 1) (final_tick tr)).
Proof.
  unfold decode_track, absolute.
  destruct (decode_fold_sound t tr (mkDecode 0 [] [])) as (H1 & H2 & _).
  simpl in H1, H2.
  intros [Hn|Hn]%in_app_iff.
  - destruct (H2 n Hn) as [[]|(Ht & Hm & [[]|(Hd & Hv)])].
    split; [done|]. split; [done|]. split; [done|]. by left.
  - rewrite close_stuck_pendings in Hn. apply in_map_iff in Hn.
    destruct Hn as (y & <- & Hy). simpl.
    destruct (H1 y Hy) as [[]|(Hd & Hv)].
    split; [done|]. split; [done|]. split; [done|]. right.
    rewrite decode_fold_tick. simpl. done.
Qed.

Lemma decoded_note_has_its_note_on_witness :
  let n := mkNote 3 10 60 90 2 5 in
  track_index n = 5
  /\ 0 < velocity n
  /\ (exists d, In (start_tick n, NoteOn d (channel n) (pitch n) (velocity n))
                   (absolute [NoteOn 3 2 60 90; NoteOff 7 2 60 0]))
  /\ ((exists m, In (end_tick n, m) (absolute [NoteOn 3 2 60 90; NoteOff 7 2 60 0])
                 /\ closing_key m = Some (channel n, pitch n))
      \/ end_tick n = Z.max (start_tick n + 1)
                            (final_tick [NoteOn 3 2 60 90; NoteOff 7 2 60 0])).
Proof.
  apply (decoded_note_has_its_note_on 5 [NoteOn 3 2 60 90; NoteOff 7 2 60 0]
           (mkNote 3 10 60 90 2 5)).
  vm_compute. by left.
Defined.

(** X12. The decoder makes at most one note for each [note_on] of positive
    velocity: a track with [k] such messages decodes to at most [k] notes,
    and to exactly [k] when it has no closing message at all. *)
Theorem decoder_makes_at_most_one_note_per_note_on (t : Z) (tr : MidiTrack) :
  (length (decode_track t tr []) <= note_on_count tr)%nat
  /\ (Forall (fun m => closing_key m = None) tr ->
      length (decode_track t tr []) = note_on_count tr).
Proof.
  unfold decode_track. split.
  - destruct (decode_fold_sound t tr (mkDecode 0 [] [])) as (_ & _ & H).
    rewrite length_app, close_stuck_pendings, length_map. simpl in H. lia.
  - intros Hall.
    destruct (decode_fold_unclosed t tr (mkDecode 0 [] []) Hall) as [H1 H2].
    rewrite length_app, close_stuck_pendings, length_map, H1, H2. simpl. lia.
Qed.

Lemma decoder_makes_at_most_one_note_per_note_on_witness :
  length (decode_track 0 [NoteOn 0 0 60 90; NoteOn 4 0 60 91; ProgramChange 0 0 5] [])
    = note_on_count [NoteOn 0 0 60 90; NoteOn 4 0 60 91; ProgramChange 0 0 5].
Proof.
  apply (decoder_makes_at_most_one_note_per_note_on 0
           [NoteOn 0 0 60 90; NoteOn 4 0 60 91; ProgramChange 0 0 5]).
  repeat constructor.
Defined.

(** X13. In a track whose delta times are all 0 or more, as in every file
    that is read, each decoded note lies inside the track: it starts at
    tick 0 or later, ends after it starts and no later than the end of
    the track (or one tick after its start, for a note that is pending
    when the track ends at its start tick), and has a positive velocity.
    Its [duration] is its end tick less its start tick, which is 1 or
    more. *)
Theorem decoded_notes_lie_inside_the_track (t : Z) (tr : MidiTrack) (n : NoteEvent) :
  Forall (fun m => 0 <= time m) tr ->
  In n (decode_track t tr []) ->
  sounding n
  /\ end_tick n <= Z.max (start_tick n + 1) (final_tick tr)
  /\ duration n = end_tick n - start_tick n
  /\ 1 <= duration n.
Proof.
  intros Hall Hn.
  assert (Hpos : start_tick n < end_tick n).
  { pose proof (decode_track_positive t tr [] (List.Forall_nil _)) as Hp.
    rewrite List.Forall_forall in Hp. by apply Hp. }
  unfold decode_track in Hn.
  destruct (decode_fold_sound t tr (mkDecode 0 [] [])) as (H1 & H2 & _).
  simpl in H1, H2. unfold sounding, duration.
  apply in_app_iff in Hn as [Hn|Hn].
  - destruct (H2 n Hn) as [[]|(_ & (m & Hm & _) & [[]|([d Hon] & Hv)])].
    apply (absolute_from_bounds tr 0 _ Hall) in Hon, Hm. simpl in Hon, Hm.
    split; [split; [done|lia]|]. split; lia.
  - rewrite close_stuck_pendings in Hn. apply in_map_iff in Hn as (y & <- & Hy).
    simpl in *. destruct (H1 y Hy) as [[]|([d Hon] & Hv)].
    apply (absolute_from_bounds tr 0 _ Hall) in Hon. simpl in Hon.
    rewrite decode_fold_tick. simpl.
    split; [split; [done|lia]|]. split; lia.
Qed.

Lemma decoded_notes_lie_inside_the_track_witness :
  let n := mkNote 3 10 60 90 2 5 in
  sounding n
  /\ end_tick n <= Z.max (start_tick n + 1) (final_tick [NoteOn 3 2 60 90; NoteOff 7 2 60 0])
  /\ duration n = end_tick n - start_tick n
  /\ 1 <= duration n.
Proof.
  apply (decoded_notes_lie_inside_the_track 5 [NoteOn 3 2 60 90; NoteOff 7 2 60 0]
           (mkNote 3 10 60 90 2 5)).
  - repeat constructor; simpl; lia.
  - vm_compute. by left.
Defined.

End DecoderSound.

Module RoundTripFacts.
Import Py Mido Models MidiIO MidiIOWords PyFacts MidoFacts SortFacts DecoderFacts EncoderFacts.
Import DecoderMoreFacts DecoderSoundFacts.

(** *** [active] as a map from keys to stacks *)

Lemma active_get_append_ne (k k' : Z * Z) (x : Pending) (a : Active) :
  k <> k' -> active_get k' (active_append k x a) = active_get k' a.
Proof.
  intros Hne. induction a as [|[k0 l] a IH]; simpl.
  - by rewrite decide_False.
  - destruct (decide (k0 = k)) as [->|Hk]; simpl.
    + by rewrite !decide_False.
    + destruct (decide (k0 = k')); [done|]. apply IH.
Qed.

Lemma active_get_set_ne (k k' : Z * Z) (l : list Pending) (a : Active) :
  k <> k' -> active_get k' (active_set k l a) = active_get k' a.
Proof.
  intros Hne. induction a as [|[k0 l0] a IH]; simpl; [done|].
  destruct (decide (k0 = k)) as [->|Hk]; simpl.
  - by rewrite !decide_False.
  - destruct (decide (k0 = k')); [done|]. apply IH.
Qed.

Lemma active_set_keys (k : Z * Z) (l : list Pending) (a : Active) :
  map fst (active_set k l a) = map fst a.
Proof.
  induction a as [|[k0 l0] a IH]; simpl; [done|].
  destruct (decide (k0 = k)); simpl; [done|]. by rewrite IH.
Qed.

Lemma active_append_keys_in (k k' : Z * Z) (x : Pending) (a : Active) :
  k' ∈ map fst (active_append k x a) -> k' ∈ map fst a \/ k' = k.
Proof.
  induction a as [|[k0 l0] a IH]; simpl.
  - intros ->%list_elem_of_singleton. by right.
  - destruct (decide (k0 = k)); simpl; [tauto|].
    rewrite !elem_of_cons. intros [?|H]; [tauto|]. destruct (IH H); tauto.
Qed.

Lemma active_append_keys_NoDup (k : Z * Z) (x : Pending) (a : Active) :
  NoDup (map fst a) -> NoDup (map fst (active_append k x a)).
Proof.
  induction a as [|[k0 l0] a IH]; simpl.
  - intros _. apply NoDup_singleton.
  - intros [Hnotin Hnd']%NoDup_cons.
    destruct (decide (k0 = k)) as [->|Hk]; simpl; [by apply NoDup_cons|].
    apply NoDup_cons. split; [|by apply IH].
    intros [H|H]%active_append_keys_in; [done|congruence].
Qed.

Lemma active_get_in (k : Z * Z) (l : list Pending) (a : Active) :
  NoDup (map fst a) -> In (k, l) a -> active_get k a = Some l.
Proof.
  induction a as [|[k0 l0] a IH]; simpl; [done|].
  intros [Hnotin Hnd']%NoDup_cons.
  intros [[= -> ->]|Hin].
  - by rewrite decide_True.
  - destruct (decide (k0 = k)) as [->|Hk]; [|by apply IH].
    exfalso. apply Hnotin. apply list_elem_of_In, in_map_iff. by exists (k, l).
Qed.

Lemma stacks_agree_nil (a : Active) : stacks_agree a [] -> pendings a = [].
Proof.
  intros [Hnd Hget].
  assert (Hall : forall k l, In (k, l) a -> l = []).
  { intros k l Hin. specialize (Hget k).
    by rewrite (active_get_in k l a Hnd Hin) in Hget. }
  clear Hnd Hget. unfold pendings.
  induction a as [|[k l] a IH]; simpl; [done|].
  rewrite (Hall k l) by (by left). simpl. apply IH.
  intros k' l' Hin. apply (Hall k'). by right.
Qed.

Lemma stacks_agree_append (a : Active) (opened : list NoteEvent) (n : NoteEvent) :
  stacks_agree a opened ->
  stacks_agree (active_append (note_key n) (pending_of n) a) (opened ++ [n]).
Proof.
  intros [Hnd Hget]. split; [by apply active_append_keys_NoDup|].
  intros k. rewrite filter_app, map_app.
  destruct (decide (note_key n = k)) as [<-|Hk].
  - rewrite active_get_append. simpl. rewrite Hget.
    rewrite filter_cons, decide_True by done. done.
  - rewrite active_get_append_ne by done. rewrite Hget.
    rewrite filter_cons, decide_False by done. simpl. by rewrite app_nil_r.
Qed.

Lemma filter_head_split {A} (P : A -> Prop) `{forall x, Decision (P x)}
    (l : list A) (x : A) (rest : list A) :
  filter P l = x :: rest ->
  exists pre post, l = pre ++ x :: post /\ Forall (fun y => ~ P y) pre /\ P x
                   /\ rest = filter P post.
Proof.
  induction l as [|y l IH]; [done|].
  rewrite filter_cons. destruct (decide (P y)) as [Hy|Hy].
  - intros [= -> <-]. exists [], l. done.
  - intros (pre & post & -> & Hpre & Hx & ->)%IH.
    exists (y :: pre), post. split; [done|]. split; [by constructor|done].
Qed.

Lemma filter_none_of {A} (P : A -> Prop) `{forall x, Decision (P x)} (l : list A) :
  Forall (fun y => ~ P y) l -> filter P l = [].
Proof.
  induction 1 as [|y l Hy _ IH]; [done|].
  by rewrite filter_cons, decide_False.
Qed.

Lemma stacks_agree_pop (a : Active) (pre post : list NoteEvent) (n : NoteEvent) :
  stacks_agree a (pre ++ n :: post) ->
  Forall (fun y => note_key y <> note_key n) pre ->
  exists rest,
    active_get (note_key n) a = Some (pending_of n :: rest)
    /\ stacks_agree (active_set (note_key n) rest a) (pre ++ post).
Proof.
  intros [Hnd Hget] Hpre.
  pose proof (Hget (note_key n)) as Hn.
  rewrite filter_app, filter_cons, decide_True in Hn by done.
  rewrite (filter_none_of _ pre Hpre) in Hn. simpl in Hn.
  destruct (active_get (note_key n) a) as [l|] eqn:E; [|done]. simpl in Hn. subst l.
  eexists. split; [done|]. split; [by rewrite active_set_keys|].
  intros k. destruct (decide (note_key n = k)) as [<-|Hk].
  - rewrite (active_get_set _ _ _ _ E). simpl.
    by rewrite filter_app, (filter_none_of _ pre Hpre).
  - rewrite active_get_set_ne by done. rewrite Hget.
    by rewrite !filter_app, filter_cons, decide_False.
Qed.

(** *** Permutations of the events that are left *)

Lemma fifo_consistent_incl (l l' : list NoteEvent) :
  (forall x, In x l' -> In x l) -> fifo_consistent l -> fifo_consistent l'.
Proof. intros Hincl Hl a b Ha Hb. apply Hl; auto. Qed.

Lemma Forall_incl {A} (P : A -> Prop) (l l' : list A) :
  (forall x, In x l' -> In x l) -> Forall P l -> Forall P l'.
Proof. rewrite !List.Forall_forall. auto. Qed.

Lemma sorted_drop_middle {A} (R : A -> A -> Prop) (pre post : list A) (x : A) :
  StronglySorted R (pre ++ x :: post) -> StronglySorted R (pre ++ post).
Proof.
  induction pre as [|y pre IH]; simpl; intros Hs; inversion Hs as [|? ? Hs' Hall]; subst.
  - done.
  - constructor; [by apply IH|].
    apply List.Forall_forall. intros z Hz. rewrite List.Forall_forall in Hall.
    apply Hall. rewrite in_app_iff in *. simpl. tauto.
Qed.

Lemma sorted_snoc {A} (R : A -> A -> Prop) (l : list A) (x : A) :
  StronglySorted R l -> Forall (fun y => R y x) l -> StronglySorted R (l ++ [x]).
Proof.
  induction l as [|y l IH]; simpl; intros Hs Hall.
  - constructor; constructor.
  - inversion Hs as [|? ? Hs' Hy]; subst. inversion Hall as [|? ? Hyx Hall']; subst.
    constructor; [by apply IH|].
    apply Forall_app. split; [done|]. by constructor.
Qed.

(** *** One message of the written track *)

Lemma decode_msg_note_on t st d ch p v :
  0 < v ->
  decode_msg t st (NoteOn d ch p v) =
    mkDecode (abs_tick st + d) (active_append (ch, p) (abs_tick st + d, v) (active st))
             (acc_notes st).
Proof. intros Hv. unfold decode_msg. simpl. by rewrite (proj2 (Z.ltb_lt 0 v) Hv). Qed.

Lemma decode_msg_no_note t st m :
  is_note_on m = false -> is_note_off m = false ->
  decode_msg t st m = mkDecode (abs_tick st + time m) (active st) (acc_notes st).
Proof. by destruct m. Qed.

(** *** The sorted events, decoded *)

Lemma decode_sorted t : forall S st opened later others,
  StronglySorted (fun x y => event_leb x y = true) S ->
  Permutation S (map note_off_event opened ++ map note_on_event later
                 ++ map note_off_event later ++ others) ->
  Forall no_note others ->
  Forall (fun n => 0 < velocity n /\ start_tick n < end_tick n) (opened ++ later) ->
  fifo_consistent (opened ++ later) ->
  StronglySorted (fun a b => start_tick a <= start_tick b) opened ->
  Forall (fun o => start_tick o <= abs_tick st) opened ->
  Forall (fun ev : Z * Msg => abs_tick st <= ev.1) S ->
  stacks_agree (active st) opened ->
  let st' := fold_left (decode_msg t) (to_delta (abs_tick st) S) st in
  Permutation (acc_notes st') (acc_notes st ++ map (on_track t) (opened ++ later))
  /\ pendings (active st') = [].
Proof.
  induction S as [|[tick msg] S IH];
    intros st opened later others Hsorted Hperm Hothers Hnotes Hfifo Hopen Hstart Hticks Hagree.
  - apply Permutation_nil in Hperm.
    apply app_eq_nil in Hperm as [HO Hperm]. apply app_eq_nil in Hperm as [HF _].
    apply map_eq_nil in HO, HF. subst. simpl.
    rewrite app_nil_r. split; [done|by apply stacks_agree_nil].
  - inversion Hsorted as [|? ? Hsorted' Hhead]; subst.
    inversion Hticks as [|? ? Htick Hticks']; subst. simpl in Htick.
    rewrite List.Forall_forall in Hhead.
    assert (Hin : In (tick, msg) (map note_off_event opened ++ map note_on_event later
                                  ++ map note_off_event later ++ others)).
    { eapply Permutation_in; [exact Hperm|by left]. }
    assert (Hlater : forall ev, In ev S -> tick <= ev.1).
    { intros ev Hev. specialize (Hhead ev Hev). apply event_leb_spec in Hhead.
      simpl in Hhead. lia. }
    assert (Hrest_in : forall ev, ev <> (tick, msg) ->
              In ev (map note_off_event opened ++ map note_on_event later
                     ++ map note_off_event later ++ others) -> In ev S).
    { intros ev Hne Hev. apply Permutation_sym in Hperm.
      destruct (Permutation_in _ Hperm Hev) as [?|?]; [congruence|done]. }
    cbn [to_delta fold_left].
    replace (Z.max 0 (tick - abs_tick st)) with (tick - abs_tick st) by lia.
    rewrite !in_app_iff in Hin.
    assert (Hcase :
      (exists n, In n opened /\ (tick, msg) = note_off_event n)
      \/ (exists n, In n later /\ (tick, msg) = note_on_event n)
      \/ In (tick, msg) others).
    { destruct Hin as [Hin|[Hin|[Hin|Hin]]].
      - apply in_map_iff in Hin as (n & Hn & Hin). left. by exists n.
      - apply in_map_iff in Hin as (n & Hn & Hin). right. left. by exists n.
      - exfalso. apply in_map_iff in Hin as (n & Hn & Hin).
        injection Hn as Ht Hm. subst tick msg.
        assert (Hon : In (note_on_event n) S).
        { apply Hrest_in; [done|]. rewrite !in_app_iff. right. left.
          by apply in_map. }
        specialize (Hhead _ Hon). apply event_leb_spec in Hhead. simpl in Hhead.
        rewrite List.Forall_forall in Hnotes.
        destruct (Hnotes n) as [_ Hlen]; [apply in_app_iff; by right|].
        destruct Hhead as [?|[? Hoff]]; lia.
      - by right; right. }
    destruct Hcase as [(n & Hn & Hev)|[(n & Hn & Hev)|Hev]].
    + (* a note-off: the oldest open note of the key ends here *)
      injection Hev as -> ->.
      destruct (filter (fun y => note_key y = note_key n) opened) as [|n1 rest] eqn:Ef.
      { exfalso. assert (Hn' : n ∈ filter (fun y => note_key y = note_key n) opened).
        { apply list_elem_of_filter. split; [done|by apply list_elem_of_In]. }
        rewrite Ef in Hn'. by apply elem_of_nil in Hn'. }
      apply filter_head_split in Ef as (pre & post & -> & Hpre & Hk1 & ->).
      assert (Hn' := Hn). rewrite in_app_iff in Hn'. simpl in Hn'.
      assert (Hend : end_tick n1 = end_tick n).
      { assert (H1 : start_tick n1 <= start_tick n).
        { apply in_app_iff in Hn as [Hn|[->|Hn]]; [|lia|].
          - exfalso. rewrite List.Forall_forall in Hpre. by apply (Hpre n Hn).
          - apply StronglySorted_app_1_r in Hopen.
            inversion Hopen as [|? ? _ Hall]; subst.
            rewrite List.Forall_forall in Hall. by apply Hall. }
        assert (H2 : end_tick n1 <= end_tick n).
        { unfold note_key in Hk1. injection Hk1 as Hc Hp.
          apply Hfifo; try done; rewrite !in_app_iff; simpl; tauto. }
        destruct (decide (note_off_event n1 = note_off_event n)) as [E|E].
        - by injection E.
        - assert (Hoff : In (note_off_event n1) S).
          { apply Hrest_in; [done|]. rewrite !in_app_iff. left.
            apply in_map. rewrite in_app_iff. simpl. tauto. }
          specialize (Hlater _ Hoff). simpl in Hlater. lia. }
      assert (Hev : note_off_event n = note_off_event n1).
      { unfold note_off_event. unfold note_key in Hk1. injection Hk1 as -> ->.
        by rewrite Hend. }
      destruct (stacks_agree_pop _ _ _ _ Hagree) as (rest & Hget & Hagree').
      { eapply Forall_impl; [exact Hpre|]. intros y Hy. by rewrite Hk1. }
      assert (Hlen : start_tick n1 < end_tick n).
      { rewrite List.Forall_forall in Hnotes.
        destruct (Hnotes n1) as [_ ?]; [rewrite !in_app_iff; simpl; tauto|]. lia. }
      set (st1 := decode_msg t st (set_time (end_tick n - abs_tick st)
                                     (NoteOff 0 (channel n) (pitch n) 0))).
      assert (Hst1 : st1 = mkDecode (end_tick n) (active_set (note_key n1) rest (active st))
                                    (acc_notes st ++ [on_track t n1])).
      { unfold st1, decode_msg, close_note. simpl.
        replace (abs_tick st + (end_tick n - abs_tick st)) with (end_tick n) by lia.
        change (channel n, pitch n) with (note_key n). rewrite <- Hk1, Hget.
        unfold pending_of. rewrite (proj2 (Z.ltb_lt _ _) Hlen).
        unfold on_track. unfold note_key in Hk1. injection Hk1 as -> ->.
        by rewrite Hend. }
      change (end_tick n) with (abs_tick (mkDecode (end_tick n)
                (active_set (note_key n1) rest (active st))
                (acc_notes st ++ [on_track t n1]))) at 2.
      rewrite Hst1.
      destruct (IH (mkDecode (end_tick n) (active_set (note_key n1) rest (active st))
                             (acc_notes st ++ [on_track t n1]))
                   (pre ++ post) later others) as (I1 & I2); simpl; try done.
      * apply Permutation_cons_inv with (a := note_off_event n).
        etransitivity; [exact Hperm|].
        rewrite !map_app. simpl. rewrite <- !app_assoc. simpl.
        rewrite <- Hev. symmetry. apply Permutation_cons_app. done.
      * eapply Forall_incl; [|exact Hnotes].
        intros x. rewrite !in_app_iff. simpl. tauto.
      * eapply fifo_consistent_incl; [|exact Hfifo].
        intros x. rewrite !in_app_iff. simpl. tauto.
      * by eapply sorted_drop_middle.
      * apply List.Forall_forall. intros o Ho.
        rewrite List.Forall_forall in Hstart.
        assert (start_tick o <= abs_tick st)
          by (apply Hstart; rewrite in_app_iff in *; simpl; tauto).
        lia.
      * apply List.Forall_forall. intros ev Hev'. by apply Hlater.
      * split; [|done].
        etransitivity; [exact I1|]. simpl. rewrite <- !app_assoc.
        apply Permutation_app_head. rewrite !map_app. simpl.
        apply Permutation_cons_app. done.
    + (* a note-on: one more open note *)
      injection Hev as -> ->.
      apply in_split in Hn as (F1 & F2 & ->).
      assert (Hv : 0 < velocity n).
      { rewrite List.Forall_forall in Hnotes.
        destruct (Hnotes n) as [? _]; [rewrite !in_app_iff; simpl; tauto|]. done. }
      cbn [set_time]. rewrite decode_msg_note_on by done.
      replace (abs_tick st + (start_tick n - abs_tick st)) with (start_tick n) by lia.
      change (start_tick n) with (abs_tick (mkDecode (start_tick n)
                (active_append (note_key n) (pending_of n) (active st))
                (acc_notes st))) at 1.
      destruct (IH (mkDecode (start_tick n)
                      (active_append (note_key n) (pending_of n) (active st))
                      (acc_notes st))
                   (opened ++ [n]) (F1 ++ F2) others) as (I1 & I2); simpl; try done.
      * apply Permutation_cons_inv with (a := note_on_event n).
        etransitivity; [exact Hperm|].
        assert (HF : Permutation (F1 ++ n :: F2) (n :: F1 ++ F2))
          by (symmetry; apply Permutation_middle).
        rewrite HF. simpl. rewrite <- Permutation_middle. constructor.
        rewrite (map_app note_off_event opened [n]). simpl.
        rewrite <- (app_assoc (map note_off_event opened)). simpl.
        apply Permutation_app_head. symmetry. apply Permutation_middle.
      * eapply Forall_incl; [|exact Hnotes].
        intros x. rewrite !in_app_iff. simpl. rewrite ?in_app_iff. tauto.
      * eapply fifo_consistent_incl; [|exact Hfifo].
        intros x. rewrite !in_app_iff. simpl. rewrite ?in_app_iff. tauto.
      * apply sorted_snoc; [done|].
        eapply Forall_impl; [exact Hstart|]. intros o Ho. simpl in *. lia.
      * apply Forall_app. split.
        -- eapply Forall_impl; [exact Hstart|]. intros o Ho. simpl in *. lia.
        -- constructor; [lia|constructor].
      * apply List.Forall_forall. intros ev Hev'. by apply Hlater.
      * by apply stacks_agree_append.
      * split; [|done].
        etransitivity; [exact I1|].
        apply Permutation_app_head, Permutation_map.
        rewrite <- app_assoc. apply Permutation_app_head. simpl.
        apply Permutation_middle.
    + (* another event *)
      apply in_split in Hev as (G1 & G2 & ->).
      assert (Hno : no_note (tick, msg)).
      { rewrite List.Forall_forall in Hothers. apply Hothers.
        rewrite in_app_iff. simpl. tauto. }
      destruct Hno as [Hon Hoff]. simpl in Hon, Hoff.
      rewrite decode_msg_no_note
        by (by rewrite ?is_note_on_set_time, ?is_note_off_set_time).
      rewrite time_set_time.
      replace (abs_tick st + (tick - abs_tick st)) with tick by lia.
      change tick with (abs_tick (mkDecode tick (active st) (acc_notes st))) at 1.
      destruct (IH (mkDecode tick (active st) (acc_notes st))
                   opened later (G1 ++ G2)) as (I1 & I2); simpl; try done.
      * apply Permutation_cons_inv with (a := (tick, msg)).
        etransitivity; [exact Hperm|].
        rewrite !app_assoc. symmetry. apply Permutation_cons_app.
        by rewrite ?app_assoc.
      * eapply Forall_incl; [|exact Hothers].
        intros x. rewrite !in_app_iff. simpl. tauto.
      * eapply Forall_impl; [exact Hstart|]. intros o Ho. simpl in *. lia.
      * apply List.Forall_forall. intros ev Hev'. by apply Hlater.
Qed.

(** *** The track the encoder writes *)

(** The written track: the tempo, if it is written, then the program
    changes and the notes' events in the order of [sort_events]. *)
Lemma written_track p flags mid ws :
  save_project_to_midi p flags = inr (mid, ws) ->
  exists programs,
    Forall (fun ev => exists c pr, ev = (0, ProgramChange 0 c pr)) programs
    /\ mid = mkMidiFile (Models.ticks_per_beat p)
       [(if write_tempo flags
         then [SetTempo 0 (round_div 60000000 (clamp 30 300 (tempo_bpm p)))]
         else [])
        ++ to_delta 0 (sort_events
             (programs ++ flat_map (fun n => [note_on_event n; note_off_event n])
                                   (filter_channels flags (notes p)).1))
        ++ [EndOfTrack 0]].
Proof.
  intros H. apply save_project_to_midi_inv in H as (_ & track & Htrack & ->).
  unfold build_track in Htrack.
  apply bind_inr in Htrack as (tempo & Htempo & H).
  apply bind_inr in H as (programs & Hprograms & H).
  apply bind_inr in H as (played & Hplayed & H). injection H as <-.
  exists programs. split; [by eapply program_events_shape|].
  by rewrite (tempo_events_exact _ _ _ Htempo), (note_events_exact _ _ Hplayed).
Qed.

Lemma first_tempo_none (tr : MidiTrack) :
  Forall (fun m => match m with SetTempo _ _ => False | _ => True end) tr ->
  first_tempo tr = None.
Proof. induction 1 as [|m tr Hm _ IH]; [done|]. by destruct m. Qed.

Lemma first_name_none (tr : MidiTrack) :
  Forall (fun m => match m with TrackName _ _ => False | _ => True end) tr ->
  first_name tr = None.
Proof. induction 1 as [|m tr Hm _ IH]; [done|]. by destruct m. Qed.

(** The messages of the written track after the tempo. *)
Lemma written_body_kinds (programs : list (Z * Msg)) (ns : list NoteEvent) (last : Z) :
  Forall (fun ev => exists c pr, ev = (0, ProgramChange 0 c pr)) programs ->
  Forall (fun m => match m with
                   | NoteOn _ _ _ _ | NoteOff _ _ _ _ | ProgramChange _ _ _
                   | EndOfTrack _ => True
                   | _ => False
                   end)
         (to_delta last (sort_events
            (programs ++ flat_map (fun n => [note_on_event n; note_off_event n]) ns))
          ++ [EndOfTrack 0]).
Proof.
  intros Hp. apply Forall_app. split; [|by repeat constructor].
  apply to_delta_Forall with
    (P := fun m => match m with
                   | NoteOn _ _ _ _ | NoteOff _ _ _ _ | ProgramChange _ _ _
                   | EndOfTrack _ => True
                   | _ => False
                   end); [by intros d []|].
  apply List.Forall_forall. intros ev Hev.
  apply (Permutation_in _ (sort_events_perm _)) in Hev.
  apply in_app_iff in Hev as [Hev|Hev].
  - rewrite List.Forall_forall in Hp. by destruct (Hp ev Hev) as (c & pr & ->).
  - apply in_flat_map in Hev as (n & _ & [<-|[<-|[]]]); done.
Qed.

(** The tempo that is read from a written track. *)
Lemma written_tempo_bpm (tpb bpm : Z) (write : bool) (body : MidiTrack) :
  Forall (fun m => match m with SetTempo _ _ => False | _ => True end) body ->
  _extract_tempo_bpm
    (mkMidiFile tpb
       [(if write then [SetTempo 0 (round_div 60000000 (clamp 30 300 bpm))] else [])
        ++ body])
  = inr (if write then clamp 30 300 bpm else 120).
Proof.
  intros Hbody. unfold _extract_tempo_bpm. cbn [tracks concat]. rewrite app_nil_r.
  destruct write.
  - cbn [app first_tempo]. unfold tempo2bpm_rounded.
    assert (Hb : 30 <= clamp 30 300 bpm <= 300) by (unfold clamp; lia).
    pose proof (round_div_tempo_range _ Hb) as Hr.
    pose proof float_limit_large as Hl.
    rewrite beat_div_small by lia.
    simpl. rewrite (bpm_round_trip _ Hb). f_equal. unfold clamp. lia.
  - cbn [app]. by rewrite first_tempo_none.
Qed.

(** The notes that are read from a written track. *)
Lemma decode_written_track (write : bool) (x : Z) (programs : list (Z * Msg))
    (ns : list NoteEvent) :
  Forall (fun ev => exists c pr, ev = (0, ProgramChange 0 c pr)) programs ->
  Forall sounding ns -> fifo_consistent ns ->
  Permutation
    (decode_track 0
       ((if write then [SetTempo 0 x] else [])
        ++ to_delta 0 (sort_events
             (programs ++ flat_map (fun n => [note_on_event n; note_off_event n]) ns))
        ++ [EndOfTrack 0]) [])
    (map (on_track 0) ns).
Proof.
  intros Hprograms Hsound Hfifo. unfold decode_track.
  rewrite !fold_left_app.
  set (st0 := fold_left (decode_msg 0) _ (mkDecode 0 [] [])).
  assert (Hst0 : st0 = mkDecode 0 [] []) by (unfold st0; by destruct write).
  rewrite Hst0. clear st0 Hst0.
  destruct (decode_sorted 0
              (sort_events (programs
                 ++ flat_map (fun n => [note_on_event n; note_off_event n]) ns))
              (mkDecode 0 [] []) [] ns programs) as (H1 & H2).
  - apply sort_events_sorted.
  - rewrite sort_events_perm, note_events_perm. simpl.
    rewrite (Permutation_app_comm programs). by rewrite <- app_assoc.
  - eapply Forall_impl; [exact Hprograms|]. by intros ev (c & pr & ->).
  - simpl. eapply Forall_impl; [exact Hsound|]. intros n (? & ? & ?). split; [done|lia].
  - done.
  - constructor.
  - constructor.
  - apply List.Forall_forall. intros ev Hev. simpl.
    apply (Permutation_in _ (sort_events_perm _)) in Hev.
    apply in_app_iff in Hev as [Hev|Hev].
    + rewrite List.Forall_forall in Hprograms.
      by destruct (Hprograms ev Hev) as (c & pr & ->).
    + rewrite List.Forall_forall in Hsound.
      apply in_flat_map in Hev as (n & Hn & Hev).
      destruct (Hsound n Hn) as (? & ? & ?).
      destruct Hev as [<-|[<-|[]]]; simpl; lia.
  - split; [constructor|done].
  - simpl in H1, H2. cbn [fold_left].
    rewrite decode_msg_no_note by done. cbn [acc_notes active abs_tick].
    rewrite close_stuck_pendings, H2. simpl. by rewrite app_nil_r.
Qed.

End RoundTripFacts.

Module RoundTrip.
Import Py Mido Models MidiIO MidiIOWords PyFacts MidoFacts SortFacts DecoderFacts EncoderFacts.
Import DecoderMoreFacts DecoderSoundFacts RoundTripFacts.

(** X14. A file the encoder has written can always be read, and what is
    read back is: the time base of the project; the tempo of the project
    clamped to 30..300 BPM if the tempo was written and 120 BPM otherwise;
    no instrument of any channel, also when the program changes were
    written; no channel label; no muted channel. *)
Theorem written_file_loads (p : MidiProject) (flags : ExportFlags)
    (mid : MidiFile) (ws : list string) :
  save_project_to_midi p flags = inr (mid, ws) ->
  exists q,
    load_midi_as_notes mid = inr q
    /\ Models.ticks_per_beat q = Models.ticks_per_beat p
    /\ Models.tempo_bpm q
       = (if write_tempo flags then clamp 30 300 (Models.tempo_bpm p) else 120)
    /\ channel_instrument_id q = ∅
    /\ channel_track_name q = ∅
    /\ muted_channels q = ∅.
Proof.
  intros Hsave.
  destruct (written_track _ _ _ _ Hsave) as (programs & Hprograms & ->).
  pose proof (written_body_kinds programs (filter_channels flags (notes p)).1 0 Hprograms)
    as Hbody.
  unfold load_midi_as_notes.
  rewrite written_tempo_bpm by (eapply Forall_impl; [exact Hbody|]; by intros []).
  simpl. eexists. split; [done|]. simpl.
  split; [done|]. split; [done|]. split; [done|]. split; [|done].
  apply map_eq. intros ch. unfold _extract_channel_track_names.
  rewrite label_tracks_lookup, !lookup_empty. cbn [tracks label_of].
  rewrite first_name_none; [by destruct (decide _)|].
  apply Forall_app. split.
  - destruct (write_tempo flags); by repeat constructor.
  - eapply Forall_impl; [exact Hbody|]. by intros [].
Qed.

Lemma written_file_loads_witness :
  exists q,
    load_midi_as_notes
      (mkMidiFile 480
         [[SetTempo 0 200000; ProgramChange 0 3 7; NoteOn 0 3 60 90; NoteOff 10 3 60 0;
           EndOfTrack 0]]) = inr q
    /\ Models.ticks_per_beat q = 480
    /\ Models.tempo_bpm q = 300
    /\ channel_instrument_id q = ∅
    /\ channel_track_name q = ∅
    /\ muted_channels q = ∅.
Proof.
  apply (written_file_loads
           (mkProject 480 [mkNote 0 10 60 90 3 2] {[ 3 := 7 ]} 500 {[ 3 := "Lead"%string ]} {[ 3 ]})
           (mkFlags true true true true) _ []).
  vm_compute. reflexivity.
Defined.

(** X15. Writing then reading gives the notes back.  If the notes the
    encoder retains all have a positive velocity, start at tick 0 or later
    and have a positive length, and among those of one channel and pitch a
    note that starts no later than another ends no later, then the file
    the encoder writes decodes to exactly those notes, each as often as
    the project has it and all on track 0; their order in the decoded
    list can differ from the order of the project. *)
Theorem written_notes_read_back (p : MidiProject) (flags : ExportFlags)
    (mid : MidiFile) (ws : list string) :
  save_project_to_midi p flags = inr (mid, ws) ->
  Forall sounding (filter_channels flags (notes p)).1 ->
  fifo_consistent (filter_channels flags (notes p)).1 ->
  exists q,
    load_midi_as_notes mid = inr q
    /\ Permutation (notes q) (map (on_track 0) (filter_channels flags (notes p)).1).
Proof.
  intros Hsave Hsound Hfifo.
  destruct (written_track _ _ _ _ Hsave) as (programs & Hprograms & ->).
  pose proof (written_body_kinds programs (filter_channels flags (notes p)).1 0 Hprograms)
    as Hbody.
  unfold load_midi_as_notes.
  rewrite written_tempo_bpm by (eapply Forall_impl; [exact Hbody|]; by intros []).
  simpl. eexists. split; [done|]. cbn [notes].
  by apply decode_written_track.
Qed.

Lemma written_notes_read_back_witness :
  exists q,
    load_midi_as_notes
      (mkMidiFile 480
         [[SetTempo 0 428571; NoteOn 0 3 60 90; NoteOn 5 3 60 91; NoteOff 5 3 60 0;
           NoteOff 10 3 60 0; EndOfTrack 0]]) = inr q
    /\ Permutation (notes q)
         (map (on_track 0) [mkNote 5 20 60 91 3 4; mkNote 0 10 60 90 3 2]).
Proof.
  apply (written_notes_read_back
           (mkProject 480 [mkNote 5 20 60 91 3 4; mkNote 0 10 60 90 3 2] ∅ 140 ∅ ∅)
           default_flags _ []).
  - vm_compute. reflexivity.
  - repeat constructor; simpl; lia.
  - intros a b [<-|[<-|[]]] [<-|[<-|[]]]; simpl; lia.
Defined.

End RoundTrip.

Module EncoderMoreFacts.
Import Py Mido Models MidiIO MidiIOWords PyFacts MidoFacts SortFacts EncoderFacts RoundTripFacts.

Lemma note_events_inv_ok ns : forall evs,
  note_events ns = inr evs -> Forall note_ok ns.
Proof.
  induction ns as [|n ns IH]; intros evs H; simpl in H; [constructor|].
  apply bind_inr in H as (on & Hon & H).
  apply bind_inr in H as (off & Hoff & H).
  apply bind_inr in H as (rest & Hrest & H).
  constructor; [|by eapply IH].
  unfold new_note_on in Hon.
  apply bind_inr in Hon as (? & Hc%check_inr & Hon).
  apply bind_inr in Hon as (? & Hp%check_inr & Hon).
  apply bind_inr in Hon as (? & Hv%check_inr & Hon).
  unfold channel_ok, data_byte_ok in *.
  apply range_ok_iff in Hc, Hp, Hv. done.
Qed.

(** The entries of the instrument map that are written as program
    changes fit; the others are skipped. *)
Lemma program_events_of_inv normalize items : forall evs,
  program_events_of normalize items = inr evs ->
  Forall (fun it : Z * Z => (normalize = true /\ 9 < it.1)
                            \/ (0 <= it.1 <= 15 /\ 0 <= it.2 <= 127)) items.
Proof.
  induction items as [|[ch pr] items IH]; intros evs H; simpl in H; [constructor|].
  destruct (normalize && (9 <? ch)) eqn:E.
  - constructor; [|by eapply IH]. left.
    apply andb_true_iff in E as [-> E%Z.ltb_lt]. done.
  - apply bind_inr in H as (msg & Hmsg & H).
    apply bind_inr in H as (rest & Hrest & H).
    constructor; [|by eapply IH]. right.
    unfold new_program_change in Hmsg.
    apply bind_inr in Hmsg as (? & Hc%check_inr & Hmsg).
    apply bind_inr in Hmsg as (? & Hp%check_inr & Hmsg).
    unfold channel_ok, data_byte_ok in *.
    apply range_ok_iff in Hc, Hp. done.
Qed.

End EncoderMoreFacts.

Module EncoderMore.
Import Py Mido Models MidiIO MidiIOWords PyFacts MidoFacts SortFacts EncoderFacts RoundTripFacts.
Import EncoderMoreFacts.



(** X17. The encoder returns exactly when every value it writes fits its
    MIDI field: each retained note has a channel from 0 to 15 and a pitch
    and a velocity from 0 to 127 (a note that is dropped may have any);
    when the program changes are written, each entry of the instrument map
    that is not skipped has a channel from 0 to 15 and an id from 0 to 127;
    and the time base fits the signed 16-bit header field.  The start and
    end ticks and the tempo of the project are never a reason to fail. *)
Theorem encoder_returns_iff_values_fit (p : MidiProject) (flags : ExportFlags) :
  (exists mid ws, save_project_to_midi p flags = inr (mid, ws))
  <-> (Forall note_ok (filter_channels flags (notes p)).1
       /\ (force_programs_at_start flags = true ->
           forall ch pr, channel_instrument_id p !! ch = Some pr ->
             (normalize_to_channels_0_9 flags = true /\ 9 < ch)
             \/ (0 <= ch <= 15 /\ 0 <= pr <= 127))
       /\ -32768 <= Models.ticks_per_beat p <= 32767).
Proof.
  split.
  - intros (mid & ws & Hsave). unfold save_project_to_midi in Hsave.
    destruct (filter_channels flags (notes p)) as [ns w]; simpl in *.
    apply bind_inr in Hsave as (track & Htrack & H).
    apply bind_inr in H as (mid' & Hmid & H).
    rewrite (save_built_track _ _ _ _ _ Htrack) in Hmid.
    unfold build_track in Htrack.
    apply bind_inr in Htrack as (tempo & Htempo & Ht).
    apply bind_inr in Ht as (programs & Hprograms & Ht).
    apply bind_inr in Ht as (played & Hplayed & Ht).
    split; [by eapply note_events_inv_ok|]. split.
    + intros Hforce ch pr Hlook. unfold program_events in Hprograms.
      rewrite Hforce in Hprograms. apply program_events_of_inv in Hprograms.
      rewrite List.Forall_forall in Hprograms.
      apply (Hprograms (ch, pr)).
      apply list_elem_of_In. rewrite sort_by_perm. by apply elem_of_map_to_list.
    + unfold short_ok in Hmid.
      destruct ((-32768 <=? Models.ticks_per_beat p) && (Models.ticks_per_beat p <=? 32767))
        eqn:E; [|done].
      by apply range_ok_iff in E.
  - intros (Hnotes & Hprog & Htpb).
    destruct (build_track_ok flags p) as [track Htrack]; [done|].
    unfold save_project_to_midi.
    destruct (filter_channels flags (notes p)) as [ns w]; simpl in *.
    rewrite Htrack. simpl. rewrite (save_built_track _ _ _ _ _ Htrack).
    unfold short_ok. rewrite range_ok by done. simpl. by eexists _, _.
Qed.

Lemma encoder_returns_iff_values_fit_witness :
  exists mid ws,
    save_project_to_midi
      (mkProject 480 [mkNote (-7) (-9) 60 90 3 0; mkNote 0 1 200 90 12 0] {[ 12 := 500 ]}
                 100000 ∅ ∅)
      (mkFlags true true true true) = inr (mid, ws).
Proof.
  apply encoder_returns_iff_values_fit. split; [|split].
  - repeat constructor; simpl; lia.
  - intros _ ch pr Hlook. left. split; [done|]. simpl in Hlook.
    apply lookup_singleton_Some in Hlook as [<- _]. lia.
  - simpl. lia.
Defined.

End EncoderMore.

Module InjectorMoreFacts.
Import Py Mido Models MidiIO MidiIOWords Injector PyFacts MidoFacts DecoderFacts InjectorFacts.
Import DecoderSoundFacts RoundTripFacts EncoderMoreFacts.

(** *** The block that is inserted *)

Lemma melodic_inserts_exact params t0 chs : forall b,
  melodic_inserts params t0 chs = inr b ->
  b = map (fun ch => ProgramChange 0 ch (program_base params + ch))
          (filter (fun ch => has_program_change_at_0 t0 ch = false) chs).
Proof.
  induction chs as [|c chs IH]; intros b Hb; simpl in Hb.
  - by injection Hb as <-.
  - destruct (has_program_change_at_0 t0 c) eqn:E.
    + rewrite filter_cons_False by congruence. by apply IH.
    + apply bind_inr in Hb as (msg & Hm & Hb).
      apply bind_inr in Hb as (rest & Hrest & Hb). injection Hb as <-.
      unfold new_program_change in Hm.
      repeat (apply bind_inr in Hm as (? & _ & Hm)). injection Hm as <-.
      rewrite filter_cons_True by done. simpl. by rewrite (IH rest Hrest).
Qed.


Lemma drum_insert_returns params t0 :
  exists c, drum_insert params t0 = inr c
            /\ Forall (fun m => exists ch pr, m = ProgramChange 0 ch pr) c.
Proof.
  unfold drum_insert. destruct (drum_midi_channel params) as [d|]; [|by eexists].
  destruct ((0 <=? d) && (d <=? 15)) eqn:E; simpl; [|by eexists].
  destruct (has_program_change_at_0 t0 d); simpl; [by eexists|].
  unfold new_program_change, check, channel_ok, data_byte_ok. rewrite E. simpl.
  eexists. split; [done|]. repeat constructor. by eexists _, _.
Qed.


Lemma inserts_silent params t0 ins :
  inserts params t0 = inr ins -> Forall silent ins.
Proof.
  intros H. apply inserts_inv in H as (a & b & c & Ha & Hb & Hc & ->).
  apply Forall_app. split; [|apply Forall_app; split].
  - apply tempo_insert_inv in Ha as [[_ ->]|[_ (tempo & _ & ->)]]; by repeat constructor.
  - rewrite (melodic_inserts_exact _ _ _ _ Hb). apply Forall_map.
    apply List.Forall_forall. intros ch _. done.
  - destruct (drum_insert_returns params t0) as (c' & Hc' & Hall).
    rewrite Hc in Hc'. injection Hc' as <-.
    eapply Forall_impl; [exact Hall|]. by intros m (ch & pr & ->).
Qed.

(** *** Silent messages and the decoder *)

Lemma decode_msg_silent t st m : silent m -> decode_msg t st m = st.
Proof.
  intros (Ht & Hon & Hoff). rewrite decode_msg_no_note by done.
  rewrite Ht, Z.add_0_r. by destruct st.
Qed.

Lemma decode_fold_silent t ins : forall st,
  Forall silent ins -> fold_left (decode_msg t) ins st = st.
Proof.
  induction ins as [|m ins IH]; intros st Hall; [done|].
  apply Forall_cons in Hall as [Hm Hall]. simpl.
  rewrite decode_msg_silent by done. by apply IH.
Qed.

Lemma decode_track_silent_prefix t ins tr ns :
  Forall silent ins -> decode_track t (ins ++ tr) ns = decode_track t tr ns.
Proof.
  intros Hall. unfold decode_track. rewrite fold_left_app.
  by rewrite (decode_fold_silent t ins _ Hall).
Qed.

Lemma decode_track_silent t ins ns : Forall silent ins -> decode_track t ins ns = ns.
Proof.
  intros Hall. unfold decode_track. rewrite (decode_fold_silent t ins _ Hall).
  simpl. by rewrite app_nil_r.
Qed.

Lemma decode_tracks_injected ins mid :
  Forall silent ins ->
  decode_tracks 0 ((ins ++ first_track mid) :: other_tracks mid) []
    = decode_tracks 0 (tracks mid) [].
Proof.
  intros Hall. unfold first_track, other_tracks.
  destruct (tracks mid) as [|t0 others]; simpl.
  - rewrite app_nil_r. by apply decode_track_silent.
  - by rewrite decode_track_silent_prefix.
Qed.

(** *** The decoder on a written track *)

Lemma decode_msg_shift t (T a : Z) (act : Active) (ns : list NoteEvent) (m : Msg) :
  decode_msg t (mkDecode T act ns) (set_time (a + time m) m)
  = decode_msg t (mkDecode (T + a) act ns) m.
Proof.
  unfold decode_msg. rewrite time_set_time. cbn [abs_tick active acc_notes].
  replace (T + (a + time m)) with (T + a + time m) by lia.
  by destruct m.
Qed.

(** Removing an [end_of_track] moves no other message in time. *)
Lemma decode_fold_fix t (tr : MidiTrack) : forall (a T : Z) act ns,
  fold_left (decode_msg t) (fix_end_of_track a tr) (mkDecode T act ns)
  = fold_left (decode_msg t) tr (mkDecode (T + a) act ns).
Proof.
  induction tr as [|m tr IH]; intros a T act ns; [done|].
  destruct (is_end_of_track m) eqn:E.
  - destruct m; try discriminate E.
    cbn [fix_end_of_track fold_left]. rewrite IH.
    unfold decode_msg at 2. cbn [abs_tick active acc_notes Mido.time].
    by rewrite Z.add_assoc.
  - rewrite (fix_cons_keep a m tr E). cbn [fold_left].
    rewrite decode_msg_shift.
    destruct (decode_msg t (mkDecode (T + a) act ns) m) as [T' act' ns'].
    by rewrite IH, Z.add_0_r.
Qed.

Lemma decode_track_fix t (tr : MidiTrack) (ns : list NoteEvent) :
  decode_track t (fix_end_of_track 0 tr) ns = decode_track t tr ns.
Proof. unfold decode_track. by rewrite decode_fold_fix, Z.add_0_r. Qed.

Lemma decode_tracks_fix (trs : list MidiTrack) : forall t ns,
  decode_tracks t (map (fix_end_of_track 0) trs) ns = decode_tracks t trs ns.
Proof.
  induction trs as [|tr trs IH]; intros t ns; [done|].
  simpl. by rewrite decode_track_fix, IH.
Qed.

(** The written file decodes to the notes of the input. *)
Lemma injection_decodes params (mid out : MidiFile) :
  inject_init_events params mid = inr out ->
  decode_tracks 0 (tracks out) [] = decode_tracks 0 (tracks mid) [].
Proof.
  intros H. apply inject_init_events_inv in H as (ins & Hins & Hsave & _).
  apply save_inv in Hsave as (_ & _ & ->). cbn [tracks].
  rewrite decode_tracks_fix. apply decode_tracks_injected. by eapply inserts_silent.
Qed.

(** *** When the file with the inserted block can be written *)


Lemma tempo_count_fix (tr : MidiTrack) : forall a,
  tempo_count (fix_end_of_track a tr) = tempo_count tr.
Proof.
  unfold tempo_count. induction tr as [|m tr IH]; intros a; [done|].
  destruct (is_end_of_track m) eqn:E.
  - destruct m; try discriminate E. simpl.
    rewrite (filter_cons_False _ (EndOfTrack _)) by done. apply IH.
  - rewrite (fix_cons_keep a m tr E). unfold MidiTrack. rewrite !filter_cons.
    assert (Hs : is_set_tempo (set_time (a + time m) m) = is_set_tempo m) by by destruct m.
    rewrite Hs. destruct (decide (is_set_tempo m = true)); simpl; by rewrite IH.
Qed.

(** *** The loop of the package-level injector *)

Lemma insert_programs_from params (k : nat) : forall (i : nat) (pre rest r : MidiTrack),
  length pre = S i ->
  Package.insert_programs params (map Z.of_nat (seq i k)) (pre ++ rest) = inr r ->
  r = pre
      ++ map (fun ch => ProgramChange 0 ch (Package.program_base params + ch))
             (map Z.of_nat (seq i k))
      ++ rest.
Proof.
  induction k as [|k IH]; intros i pre rest r Hlen H; simpl in H.
  - by injection H as <-.
  - apply bind_inr in H as (pc & Hpc & H).
    unfold new_program_change in Hpc.
    repeat (apply bind_inr in Hpc as (? & _ & Hpc)). injection Hpc as <-.
    replace (Z.to_nat (1 + Z.of_nat i)) with (length pre) in H by lia.
    unfold list_insert_at in H. rewrite take_app_length, drop_app_length in H.
    replace (pre ++ ProgramChange 0 (Z.of_nat i) (Package.program_base params + Z.of_nat i)
                 :: rest)
      with ((pre ++ [ProgramChange 0 (Z.of_nat i)
                       (Package.program_base params + Z.of_nat i)]) ++ rest) in H
      by (by rewrite <- app_assoc).
    apply IH in H; [|rewrite length_app; simpl; lia].
    rewrite H. simpl. by rewrite <- app_assoc.
Qed.

Lemma insert_programs_as_melodic (bpm base n : Z) (d : option Z) (t0 : MidiTrack)
    (k : nat) : forall (i : nat) (pre rest : MidiTrack),
  length pre = S i ->
  (forall ch, In ch (map Z.of_nat (seq i k)) -> has_program_change_at_0 t0 ch = false) ->
  Package.insert_programs (Package.mkParams bpm base n) (map Z.of_nat (seq i k))
                          (pre ++ rest)
  = let* b := melodic_inserts (mkParams bpm base n d) t0 (map Z.of_nat (seq i k)) in
    ret (pre ++ b ++ rest).
Proof.
  induction k as [|k IH]; intros i pre rest Hlen Hno; [done|].
  cbn [seq map Package.insert_programs melodic_inserts].
  rewrite (Hno (Z.of_nat i)) by (by left).
  cbn [Package.program_base program_base].
  destruct (new_program_change (Z.of_nat i) (base + Z.of_nat i) 0) as [e|pc]; [done|].
  cbn [bind].
  replace (Z.to_nat (1 + Z.of_nat i)) with (length pre) by lia.
  unfold list_insert_at. rewrite take_app_length, drop_app_length.
  replace (pre ++ pc :: rest) with ((pre ++ [pc]) ++ rest) by (by rewrite <- app_assoc).
  rewrite IH.
  - destruct (melodic_inserts _ t0 (map Z.of_nat (seq (S i) k))) as [e|b]; [done|].
    simpl. by rewrite <- app_assoc.
  - rewrite length_app. simpl. lia.
  - intros ch Hch. apply Hno. by right.
Qed.

Lemma tempo_count_cons_tempo t x tr :
  tempo_count (SetTempo t x :: tr) = S (tempo_count tr).
Proof. unfold tempo_count. by rewrite filter_cons_True. Qed.

Lemma tempo_count_programs (f : Z -> Z) (chs : list Z) (tr : MidiTrack) :
  tempo_count (map (fun ch => ProgramChange 0 ch (f ch)) chs ++ tr) = tempo_count tr.
Proof.
  unfold tempo_count. induction chs as [|c chs IH]; simpl; [done|].
  by rewrite filter_cons_False.
Qed.

End InjectorMoreFacts.

Module InjectorMore.
Import Py Mido Models MidiIO MidiIOWords Injector PyFacts MidoFacts DecoderFacts InjectorFacts.
Import DecoderSoundFacts RoundTripFacts EncoderMoreFacts InjectorMoreFacts.

(** X18. Injecting the initial events changes no note: the file that is
    written decodes to the notes of the input file, in the same order and
    on the same tracks.  Every message that is inserted has delta time 0
    and is neither a note-on nor a note-off; all are put in front of the
    first track, and a file without tracks gets one track that holds the
    inserted messages.  The time base is kept, and every track is written
    as [save] writes it: a first track that ends with its only
    [end_of_track] follows the inserted messages as it is. *)
Theorem injection_keeps_every_note (params : Params) (mid out : MidiFile) :
  inject_init_events params mid = inr out ->
  decode_tracks 0 (tracks out) [] = decode_tracks 0 (tracks mid) []
  /\ Mido.ticks_per_beat out = Mido.ticks_per_beat mid
  /\ exists ins,
       Forall silent ins
       /\ tracks out = (ins ++ fix_end_of_track 0 (first_track mid))
                       :: map (fix_end_of_track 0) (other_tracks mid)
       /\ tracks out = map (fix_end_of_track 0)
                           ((ins ++ first_track mid) :: other_tracks mid)
       /\ forall body d,
            first_track mid = body ++ [EndOfTrack d] ->
            Forall (fun m => is_end_of_track m = false) body ->
            first_track out = ins ++ first_track mid.
Proof.
  intros H. pose proof (injection_decodes _ _ _ H) as Hdecode.
  apply inject_init_events_inv in H as (ins & Hins & Hsave & ->).
  pose proof (inserts_silent _ _ _ Hins) as Hsilent.
  pose proof (inserts_no_end _ _ _ Hins) as Hkeep.
  assert (Hmap : (ins ++ fix_end_of_track 0 (first_track mid))
                 :: map (fix_end_of_track 0) (other_tracks mid)
                 = map (fix_end_of_track 0) ((ins ++ first_track mid) :: other_tracks mid)).
  { simpl. by rewrite (fix_app_keep ins). }
  split; [exact Hdecode|]. cbn [tracks Mido.ticks_per_beat]. split; [done|].
  - exists ins. split; [done|]. split; [done|]. split; [done|].
    intros body d Hbody Hall. cbn [first_track tracks].
    by rewrite Hbody, fix_ends_once.
Qed.

Lemma injection_keeps_every_note_witness :
  decode_tracks 0
    [[SetTempo 0 500000; ProgramChange 0 0 1; ProgramChange 0 1 2; ProgramChange 0 9 0;
      NoteOn 3 1 60 90; NoteOff 7 1 60 0; EndOfTrack 0];
     [NoteOn 0 2 64 80; NoteOn 2 2 65 80; EndOfTrack 0]] []
  = decode_tracks 0 [[NoteOn 3 1 60 90; NoteOff 7 1 60 0; EndOfTrack 0];
                     [NoteOn 0 2 64 80; EndOfTrack 2; NoteOn 0 2 65 80]] [].
Proof.
  apply (injection_keeps_every_note (mkParams 120 1 2 (Some 9))
           (mkMidiFile 480 [[NoteOn 3 1 60 90; NoteOff 7 1 60 0; EndOfTrack 0];
                            [NoteOn 0 2 64 80; EndOfTrack 2; NoteOn 0 2 65 80]])
           (mkMidiFile 480
              [[SetTempo 0 500000; ProgramChange 0 0 1; ProgramChange 0 1 2;
                ProgramChange 0 9 0; NoteOn 3 1 60 90; NoteOff 7 1 60 0; EndOfTrack 0];
               [NoteOn 0 2 64 80; NoteOn 2 2 65 80; EndOfTrack 0]])).
  vm_compute. reflexivity.
Defined.



(** X20. The injector of the package itself, [midi_editor.inject_init_events],
    has no guard: when it returns, the first track of the file it writes
    is a [set_tempo] of the requested BPM, then a program change for each
    channel below [max_melodic_channels] in ascending order, then the
    first track of the input as [save] writes it; the other tracks are
    written as [save] writes them.  So each run adds one more tempo event,
    and running it twice does not give what one run gives. *)
Theorem package_injector_always_inserts (params : Package.Params) (mid out : MidiFile) :
  Package.inject_init_events params mid = inr out ->
  (exists tempo,
     bpm2tempo (Package.tempo_bpm params) = inr tempo
     /\ tracks out =
          (SetTempo 0 tempo
           :: map (fun ch => ProgramChange 0 ch (Package.program_base params + ch))
                  (range (Package.max_melodic_channels params))
           ++ fix_end_of_track 0 (first_track mid))
          :: map (fix_end_of_track 0) (other_tracks mid))
  /\ tempo_count (first_track out) = S (tempo_count (first_track mid))
  /\ forall out2, Package.inject_init_events params out = inr out2 -> out2 <> out.
Proof.
  assert (Hshape : forall mid out,
            Package.inject_init_events params mid = inr out ->
            exists tempo,
              bpm2tempo (Package.tempo_bpm params) = inr tempo
              /\ tracks out =
                   (SetTempo 0 tempo
                    :: map (fun ch => ProgramChange 0 ch (Package.program_base params + ch))
                           (range (Package.max_melodic_channels params))
                    ++ fix_end_of_track 0 (first_track mid))
                   :: map (fix_end_of_track 0) (other_tracks mid)).
  { clear mid out. intros mid out H. unfold Package.inject_init_events in H.
    apply bind_inr in H as (tempo & Htempo & H).
    apply bind_inr in H as (tempo_msg & Hmsg & H).
    apply bind_inr in H as (t0 & Ht0 & H).
    unfold new_set_tempo in Hmsg. apply bind_inr in Hmsg as (_ & _ & Hmsg).
    injection Hmsg as <-.
    unfold list_insert_at in Ht0. rewrite take_0, drop_0 in Ht0. simpl in Ht0.
    apply (insert_programs_from params _ 0%nat [SetTempo 0 tempo]) in Ht0; [|done].
    apply save_inv in H as (_ & _ & ->). subst t0. exists tempo. split; [done|].
    cbn [tracks map]. f_equal.
    change ([SetTempo 0 tempo] ++ ?l) with (SetTempo 0 tempo :: l).
    rewrite app_comm_cons, fix_app_keep; [done|].
    constructor; [done|]. apply Forall_map. by apply List.Forall_forall. }
  assert (Hcount : forall tempo tr,
            tempo_count
              (SetTempo 0 tempo
               :: map (fun ch => ProgramChange 0 ch (Package.program_base params + ch))
                      (range (Package.max_melodic_channels params))
               ++ fix_end_of_track 0 tr)
            = S (tempo_count tr)).
  { intros tempo tr.
    by rewrite tempo_count_cons_tempo, tempo_count_programs, tempo_count_fix. }
  intros H. destruct (Hshape _ _ H) as (tempo & Htempo & Hout).
  split; [by exists tempo|].
  assert (Hfirst : tempo_count (first_track out) = S (tempo_count (first_track mid))).
  { unfold first_track at 1. rewrite Hout. apply Hcount. }
  split; [exact Hfirst|].
  intros out2 H2 ->. destruct (Hshape _ _ H2) as (tempo2 & _ & Hout2).
  apply (f_equal (fun trs => tempo_count (match trs with [] => [] | t :: _ => t end)))
    in Hout2.
  rewrite Hcount in Hout2.
  change (tempo_count (first_track out) = S (tempo_count (first_track out))) in Hout2.
  lia.
Qed.

Lemma package_injector_always_inserts_witness :
  tempo_count
    (first_track
       (mkMidiFile 480
          [[SetTempo 0 500000; ProgramChange 0 0 1; ProgramChange 0 1 2;
            SetTempo 0 400000; NoteOn 0 0 60 90; NoteOff 5 0 60 0; EndOfTrack 0]]))
  = S (tempo_count
         (first_track
            (mkMidiFile 480 [[SetTempo 0 400000; NoteOn 0 0 60 90; NoteOff 5 0 60 0;
                              EndOfTrack 0]]))).
Proof.
  apply (package_injector_always_inserts (Package.mkParams 120 1 2)
           (mkMidiFile 480 [[SetTempo 0 400000; NoteOn 0 0 60 90; NoteOff 5 0 60 0;
                             EndOfTrack 0]])).
  vm_compute. reflexivity.
Defined.

(** X21. The two injectors of the repository agree where the guard of the
    newer one finds nothing: for a first track that has no [set_tempo] of
    delta time 0 and no program change of delta time 0 on a channel below
    [max_melodic_channels], the package-level injector and the guarded
    injector called without a drum channel write the same file, or fail
    with the same error. *)
Theorem injectors_agree_on_a_clean_track (bpm base n : Z) (mid : MidiFile) :
  has_meta_set_tempo_at_0 (first_track mid) = false ->
  (forall ch, 0 <= ch < n -> has_program_change_at_0 (first_track mid) ch = false) ->
  Package.inject_init_events (Package.mkParams bpm base n) mid
  = inject_init_events (mkParams bpm base n None) mid.
Proof.
  intros Htempo Hno.
  unfold Package.inject_init_events, inject_init_events, inserts, tempo_insert, drum_insert.
  rewrite Htempo. cbn [Package.tempo_bpm tempo_bpm Package.max_melodic_channels
                       max_melodic_channels drum_midi_channel].
  destruct (bpm2tempo bpm) as [e|tempo]; [done|]. cbn [bind].
  destruct (new_set_tempo tempo 0) as [e|tempo_msg]; [done|]. cbn [bind ret].
  unfold list_insert_at at 1. rewrite take_0, drop_0.
  change ([] ++ tempo_msg :: first_track mid) with ([tempo_msg] ++ first_track mid).
  unfold range.
  rewrite (insert_programs_as_melodic bpm base n None (first_track mid) _ 0%nat) by
    (try done; intros ch Hch%list_elem_of_In%range_spec; by apply Hno).
  fold (range n).
  destruct (melodic_inserts _ (first_track mid) (range n)) as [e|b]; [done|].
  cbn [bind ret]. rewrite insert_all_prepends.
  by rewrite app_nil_r, <- !app_assoc.
Qed.

Lemma injectors_agree_on_a_clean_track_witness :
  Package.inject_init_events (Package.mkParams 120 1 9)
    (mkMidiFile 480 [[SetTempo 5 400000; NoteOn 0 0 60 90]])
  = inject_init_events (mkParams 120 1 9 None)
      (mkMidiFile 480 [[SetTempo 5 400000; NoteOn 0 0 60 90]]).
Proof.
  apply (injectors_agree_on_a_clean_track 120 1 9
           (mkMidiFile 480 [[SetTempo 5 400000; NoteOn 0 0 60 90]])).
  - reflexivity.
  - intros ch _. reflexivity.
Defined.

End InjectorMore.

Module PreviewFacts.
Import Py Mido Models MidiIO MidiIOWords Injector Gui.
Import PyFacts MidoFacts SortFacts DecoderFacts EncoderFacts InjectorFacts.
Import DecoderSoundFacts RoundTripFacts EncoderMoreFacts InjectorMoreFacts.

Lemma has_program_none (tr : MidiTrack) (ch : Z) :
  Forall (fun m => is_program_change m = false) tr ->
  has_program_change_at_0 tr ch = false.
Proof.
  induction 1 as [|m tr Hm _ IH]; [done|].
  simpl. rewrite Hm, IH. by rewrite andb_false_r.
Qed.

(** The track that is written for the preview: the tempo, then the events
    of the notes, and no program change. *)
Lemma preview_track (p : MidiProject) (mid : MidiFile) (ws : list string) :
  save_project_to_midi p preview_flags = inr (mid, ws) ->
  exists body,
    mid = mkMidiFile (Models.ticks_per_beat p)
            [SetTempo 0 (round_div 60000000 (clamp 30 300 (Models.tempo_bpm p)))
             :: body ++ [EndOfTrack 0]]
    /\ Forall (fun m => is_program_change m = false) body
    /\ Forall (fun m => is_end_of_track m = false) body
    /\ Forall (fun m => 0 <= time m) body
    /\ short_ok (Models.ticks_per_beat p) = true.
Proof.
  intros Hsave. unfold save_project_to_midi in Hsave.
  destruct (filter_channels preview_flags (notes p)) as [ns w]; simpl in Hsave.
  apply bind_inr in Hsave as (track & Htrack & H).
  apply bind_inr in H as (mid' & Hmid & H). injection H as <- <-.
  rewrite (save_built_track _ _ _ _ _ Htrack) in Hmid.
  destruct (short_ok (Models.ticks_per_beat p)) eqn:Eh; [|done]. injection Hmid as <-.
  unfold build_track in Htrack.
  apply bind_inr in Htrack as (tempo & Htempo & H).
  apply bind_inr in H as (programs & Hprograms & H).
  apply bind_inr in H as (played & Hplayed & H). injection H as <-.
  apply tempo_events_exact in Htempo. apply note_events_exact in Hplayed.
  injection Hprograms as <-. simpl in Htempo. subst tempo played. simpl.
  eexists. split; [done|].
  assert (Hall : forall P : Msg -> Prop,
            (forall d m, P m -> P (set_time d m)) ->
            (forall n, P (note_on_event n).2 /\ P (note_off_event n).2) ->
            Forall P (to_delta 0 (sort_events
                        (flat_map (fun n => [note_on_event n; note_off_event n]) ns)))).
  { intros P Hset Hnote. apply to_delta_Forall; [exact Hset|].
    apply List.Forall_forall. intros ev Hev.
    apply (Permutation_in _ (sort_events_perm _)) in Hev.
    apply in_flat_map in Hev as (n & _ & [<-|[<-|[]]]); apply Hnote. }
  split; [|split; [|split; [apply to_delta_nonneg|done]]].
  - apply Hall; [by intros d []|done].
  - apply Hall; [by intros d []|done].
Qed.

(** What the injector does to a written preview file, whatever the BPM
    it is called with. *)
Lemma inject_preview_track (bpm tpb x : Z) (body : MidiTrack) :
  Forall (fun m => is_program_change m = false) body ->
  Forall (fun m => is_end_of_track m = false) body ->
  Forall (fun m => 0 <= time m) body ->
  short_ok tpb = true ->
  inject_init_events (mkParams bpm 1 9 (Some 9))
    (mkMidiFile tpb [SetTempo 0 x :: body ++ [EndOfTrack 0]])
  = inr (mkMidiFile tpb
           [map (fun ch => ProgramChange 0 ch (1 + ch)) (range 9)
            ++ [ProgramChange 0 9 0] ++ SetTempo 0 x :: body ++ [EndOfTrack 0]]).
Proof.
  intros Hbody Hend Htimes Hh.
  assert (Hno : forall ch,
            has_program_change_at_0 (SetTempo 0 x :: body ++ [EndOfTrack 0]) ch = false).
  { intros ch. apply has_program_none. constructor; [done|].
    apply Forall_app. split; [done|]. by repeat constructor. }
  unfold inject_init_events, inserts, tempo_insert, drum_insert. cbn [first_track tracks].
  cbn [has_meta_set_tempo_at_0 existsb time is_meta is_set_tempo Z.eqb andb orb].
  cbn [bind ret max_melodic_channels drum_midi_channel].
  change (range 9) with [0; 1; 2; 3; 4; 5; 6; 7; 8].
  assert (Hm : melodic_inserts (mkParams bpm 1 9 (Some 9))
                 (SetTempo 0 x :: body ++ [EndOfTrack 0])
                 [0; 1; 2; 3; 4; 5; 6; 7; 8]
               = inr (map (fun ch => ProgramChange 0 ch (1 + ch))
                          [0; 1; 2; 3; 4; 5; 6; 7; 8])).
  { cbn [melodic_inserts]. rewrite !Hno. reflexivity. }
  rewrite Hm, Hno. cbn [bind ret].
  change (if (0 <=? 9) && (9 <=? 15) && negb false
          then let* msg := new_program_change 9 0 0 in ret [msg]
          else ret [])
    with (@inr exn (list Msg) [ProgramChange 0 9 0]).
  cbn [bind ret]. rewrite insert_all_prepends.
  cbn [other_tracks tracks Mido.ticks_per_beat].
  set (ins := map (fun ch => ProgramChange 0 ch (1 + ch)) [0; 1; 2; 3; 4; 5; 6; 7; 8]).
  replace (([] ++ ins ++ [ProgramChange 0 9 0]) ++ SetTempo 0 x :: body ++ [EndOfTrack 0])
    with ((ins ++ ProgramChange 0 9 0 :: SetTempo 0 x :: body) ++ [EndOfTrack 0])
    by (by rewrite app_nil_l, <- !app_assoc).
  rewrite save_one_track, Hh; [| | |done].
  - by rewrite <- !app_assoc.
  - apply Forall_app. split; [by repeat constructor|]. by repeat constructor.
  - apply Forall_app. split; [by repeat constructor|]. by repeat constructor.
Qed.

Lemma filter_filter_and {A} (P Q : A -> Prop)
    `{forall x, Decision (P x)} `{forall x, Decision (Q x)} (l : list A) :
  filter P (filter Q l) = filter (fun x => Q x /\ P x) l.
Proof.
  induction l as [|x l IH]; [done|].
  rewrite !filter_cons. destruct (decide (Q x)) as [Hq|Hq].
  - rewrite filter_cons. destruct (decide (P x)) as [Hp|Hp].
    + rewrite decide_True by done. by rewrite IH.
    + rewrite decide_False by tauto. done.
  - rewrite decide_False by tauto. done.
Qed.

End PreviewFacts.

Module Preview.
Import Py Mido Models MidiIO MidiIOWords Injector Gui.
Import PyFacts MidoFacts SortFacts DecoderFacts EncoderFacts InjectorFacts.
Import DecoderSoundFacts RoundTripFacts EncoderMoreFacts InjectorMoreFacts PreviewFacts.

(** X22. The file of the preview is the file the encoder writes for the
    un-muted copy of the project, with ten program changes put in front of
    its track: channels 0 to 8 to the programs 1 to 9, then channel 9 to
    program 0.  The encoder has written the tempo of the project, so the
    injector inserts none: the BPM the injector is called with has no
    effect on the preview.  The preview fails exactly when the encoder
    does, with its error. *)
Theorem preview_is_written_file_with_programs (bpm : Z) (muted : gset Z) (p : MidiProject) :
  preview_midi bpm muted p =
    match save_project_to_midi (_filtered_project_copy muted p) preview_flags with
    | inl e => inl e
    | inr (written, ws) =>
        inr (mkMidiFile (Mido.ticks_per_beat written)
               [map (fun ch => ProgramChange 0 ch (1 + ch)) (range 9)
                ++ [ProgramChange 0 9 0] ++ first_track written],
             ws)
    end
  /\ forall bpm', preview_midi bpm' muted p = preview_midi bpm muted p.
Proof.
  assert (Hgen : forall b,
    preview_midi b muted p =
      match save_project_to_midi (_filtered_project_copy muted p) preview_flags with
      | inl e => inl e
      | inr (written, ws) =>
          inr (mkMidiFile (Mido.ticks_per_beat written)
                 [map (fun ch => ProgramChange 0 ch (1 + ch)) (range 9)
                  ++ [ProgramChange 0 9 0] ++ first_track written],
               ws)
      end).
  { intros b. unfold preview_midi.
    destruct (save_project_to_midi (_filtered_project_copy muted p) preview_flags)
      as [e|[written ws']] eqn:E; [done|].
    destruct (preview_track _ _ _ E) as (body & -> & Hbody & Hend & Htimes & Hh).
    cbn [bind fst snd]. by rewrite inject_preview_track. }
  split; [apply Hgen|]. intros bpm'. by rewrite !Hgen.
Qed.

(** X23. What the preview plays.  If the notes of the project on channels
    up to 9 that are not muted all have a positive velocity, start at tick
    0 or later and have a positive length, and are stacked first in, first
    out on each channel and pitch, then the file of the preview decodes to
    exactly these notes: no muted note, no note of a channel over 9, and
    none lost or added by the injection. *)
Theorem preview_plays_the_unmuted_notes (bpm : Z) (muted : gset Z) (p : MidiProject)
    (mid : MidiFile) (ws : list string) :
  preview_midi bpm muted p = inr (mid, ws) ->
  Forall sounding (filter (fun n => channel n ∉ muted /\ channel n <= 9) (notes p)) ->
  fifo_consistent (filter (fun n => channel n ∉ muted /\ channel n <= 9) (notes p)) ->
  Permutation (decode_tracks 0 (tracks mid) [])
              (map (on_track 0)
                   (filter (fun n => channel n ∉ muted /\ channel n <= 9) (notes p))).
Proof.
  intros Hprev Hsound Hfifo. unfold preview_midi in Hprev.
  apply bind_inr in Hprev as ([written ws'] & Hsave & H).
  apply bind_inr in H as (injected & Hinj & H). injection H as <- <-.
  simpl in Hinj.
  assert (Hkept : (filter_channels preview_flags (notes (_filtered_project_copy muted p))).1
                  = filter (fun n => channel n ∉ muted /\ channel n <= 9) (notes p)).
  { rewrite filter_channels_dropped by done. simpl. apply filter_filter_and. }
  destruct (written_track _ _ _ _ Hsave) as (programs & Hprograms & ->).
  rewrite Hkept in *.
  rewrite (injection_decodes _ _ _ Hinj).
  cbn [tracks decode_tracks]. by apply decode_written_track.
Qed.

Lemma preview_plays_the_unmuted_notes_witness :
  let p := mkProject 480
             [mkNote 0 10 60 90 3 2; mkNote 0 10 61 90 5 0; mkNote 2 4 62 90 12 0]
             ∅ 140 ∅ ∅ in
  let mid := mkMidiFile 480
     [[ProgramChange 0 0 1; ProgramChange 0 1 2; ProgramChange 0 2 3; ProgramChange 0 3 4;
       ProgramChange 0 4 5; ProgramChange 0 5 6; ProgramChange 0 6 7; ProgramChange 0 7 8;
       ProgramChange 0 8 9; ProgramChange 0 9 0; SetTempo 0 428571;
       NoteOn 0 3 60 90; NoteOff 10 3 60 0; EndOfTrack 0]] in
  Permutation (decode_tracks 0 (tracks mid) [])
    (map (on_track 0)
         (filter (fun n => channel n ∉ ({[ 5 ]} : gset Z) /\ channel n <= 9) (notes p))).
Proof.
  intros p mid.
  apply (preview_plays_the_unmuted_notes 77 {[ 5 ]} p mid [warn_over [12]; warn_dropped]).
  - vm_compute. reflexivity.
  - vm_compute. repeat constructor; discriminate.
  - vm_compute. intros a b [<-|[]] [<-|[]]; simpl; discriminate.
Defined.

End Preview.

Module DrumRemapMoreFacts.
Import Py Models DrumRemap DrumRemapWords SortFacts DrumRemapFacts ModelsMoreFacts.

(** *** The loop and what it returns *)

Lemma remapped_pitch_changes gm n :
  pitch (remapped gm n) <> pitch n
  <-> channel n = 9 /\ exists q, gm !! pitch n = Some q /\ q <> pitch n.
Proof.
  unfold remapped. destruct (decide (channel n = 9)) as [H9|H9].
  - destruct (gm !! pitch n) as [q|]; simpl.
    + split; [intros H; split; [done|]; by exists q|]. by intros (_ & q' & [= <-] & H).
    + split; [done|]. by intros (_ & q' & [=] & _).
  - split; [done|]. by intros [? _].
Qed.

Lemma report_skip (P : NoteEvent -> Z -> Prop) (n : NoteEvent) (ns : list NoteEvent)
    (u : gset Z) (x : Z) :
  ~ P n x ->
  (x ∈ u \/ (exists m, In m ns /\ P m x)) <-> (x ∈ u \/ exists m, In m (n :: ns) /\ P m x).
Proof.
  intros Hn. split.
  - intros [?|(m & Hm & ?)]; [by left|]. right. exists m. split; [by right|done].
  - intros [?|(m & [<-|Hm] & ?)]; [by left|done|]. right. by exists m.
Qed.

Lemma report_add (P : NoteEvent -> Z -> Prop) (n : NoteEvent) (ns : list NoteEvent)
    (u : gset Z) (x : Z) :
  (P n x <-> x = pitch n) ->
  (x ∈ {[pitch n]} ∪ u \/ (exists m, In m ns /\ P m x))
  <-> (x ∈ u \/ exists m, In m (n :: ns) /\ P m x).
Proof.
  intros Hn. rewrite elem_of_union, elem_of_singleton. split.
  - intros [[Hx|?]|(m & Hm & ?)]; [|by left|].
    + right. exists n. split; [by left|by apply Hn].
    + right. exists m. split; [by right|done].
  - intros [?|(m & [<-|Hm] & Hp)]; [tauto| |].
    + left. left. by apply Hn.
    + right. by exists m.
Qed.

Lemma remap_loop_report gm valid ns : forall c u,
  (remap_loop gm valid ns c u).2.1
    = c + Z.of_nat (length (filter (fun n => pitch (remapped gm n) <> pitch n) ns))
  /\ forall x, x ∈ (remap_loop gm valid ns c u).2.2
       <-> x ∈ u \/ exists n, In n ns /\ channel n = 9 /\ pitch n = x
                              /\ gm !! x = None /\ x ∉ valid.
Proof.
  induction ns as [|n ns IH]; intros c u.
  - simpl. split; [lia|]. intros x. split; [by left|]. by intros [?|(n & [] & _)].
  - rewrite filter_cons. cbn [remap_loop].
    destruct (decide (channel n ≠ 9)) as [Hne|Heq].
    + rewrite decide_False by (rewrite remapped_pitch_changes; tauto).
      destruct (IH c u) as [H1 H2]. split; [exact H1|].
      intros x. cbn [leave snd]. rewrite H2.
      apply (report_skip (fun m x => channel m = 9 /\ pitch m = x
                                      /\ gm !! x = None /\ x ∉ valid)).
      tauto.
    + assert (H9 : channel n = 9) by (destruct (decide (channel n = 9)); [done|contradiction]).
      destruct (gm !! pitch n) as [q|] eqn:E.
      * destruct (decide (q ≠ pitch n)) as [Hq|Hq].
        -- rewrite decide_True by (rewrite remapped_pitch_changes; eauto).
           destruct (IH (c + 1) u) as [H1 H2]. cbn [leave snd fst].
           split; [rewrite H1; simpl; lia|].
           intros x. rewrite H2.
           apply (report_skip (fun m x => channel m = 9 /\ pitch m = x
                                           /\ gm !! x = None /\ x ∉ valid)).
           intros (_ & <- & Hnone & _). congruence.
        -- assert (Hqe : q = pitch n)
             by (destruct (decide (q = pitch n)); [done|contradiction]).
           rewrite decide_False
             by (rewrite remapped_pitch_changes; intros (_ & q' & Hq' & ?); congruence).
           destruct (IH c u) as [H1 H2]. cbn [leave snd fst]. split; [exact H1|].
           intros x. rewrite H2.
           apply (report_skip (fun m x => channel m = 9 /\ pitch m = x
                                           /\ gm !! x = None /\ x ∉ valid)).
           intros (_ & <- & Hnone & _). congruence.
      * rewrite (decide_False (P := pitch (remapped gm n) <> pitch n))
          by (rewrite remapped_pitch_changes; intros (_ & q' & Hq' & ?); congruence).
        destruct (decide (pitch n ∈ valid)) as [Hv|Hv].
        -- destruct (IH c u) as [H1 H2]. cbn [leave snd fst]. split; [exact H1|].
           intros x. rewrite H2.
           apply (report_skip (fun m x => channel m = 9 /\ pitch m = x
                                           /\ gm !! x = None /\ x ∉ valid)).
           intros (_ & <- & _ & Hnv). contradiction.
        -- destruct (IH c ({[pitch n]} ∪ u)) as [H1 H2]. cbn [leave snd fst].
           split; [exact H1|].
           intros x. rewrite H2.
           apply (report_add (fun m x => channel m = 9 /\ pitch m = x
                                          /\ gm !! x = None /\ x ∉ valid)).
           split; [by intros (_ & <- & _)|]. by intros ->.
Qed.

(** *** The category lists *)

Lemma collect_fold_lookup rs : forall (m : gmap string (list Z)) (cat : string),
  fold_left collect rs m !! cat =
    match collected cat rs with
    | [] => m !! cat
    | k :: ks => Some (default [] (m !! cat) ++ k :: ks)
    end.
Proof.
  unfold collected, Drumset.
  induction rs as [|[k info] rs IH]; intros m cat; [done|].
  cbn [fold_left]. rewrite IH, filter_cons. unfold collect. cbn [fst snd].
  destruct (eligible info) as [c|] eqn:E.
  - destruct (decide (c = cat)) as [->|Hne].
    + rewrite decide_True by done. rewrite lookup_insert_eq. cbn [map fst default from_option].
      destruct (map fst (filter _ rs)) as [|k' ks]; [done|].
      unfold id. by rewrite <- app_assoc.
    + rewrite decide_False by congruence. by rewrite lookup_insert_ne.
  - rewrite decide_False by congruence. done.
Qed.

Lemma category_notes_lookup rs cat :
  _build_rs_category_to_notes rs !! cat =
    match collected cat rs with
    | [] => None
    | k :: ks => Some (sorted_ints (k :: ks))
    end.
Proof.
  unfold _build_rs_category_to_notes. rewrite lookup_fmap, collect_fold_lookup.
  rewrite lookup_empty. by destruct (collected cat rs).
Qed.

Lemma collected_in rs cat k :
  In k (collected cat rs) <-> exists info, In (k, info) rs /\ eligible info = Some cat.
Proof.
  unfold collected. rewrite in_map_iff. split.
  - intros ([k' info] & <- & Hin). apply list_elem_of_In, list_elem_of_filter in Hin as [He Hin].
    exists info. split; [by apply list_elem_of_In|done].
  - intros (info & Hin & He). exists (k, info). split; [done|].
    apply list_elem_of_In, list_elem_of_filter. split; [done|by apply list_elem_of_In].
Qed.

Lemma sorted_head_least (l : list Z) (first : Z) (rest : list Z) :
  sorted_ints l = first :: rest ->
  In first l /\ (forall k, In k l -> first <= k)
  /\ (forall k, In k l <-> In k (first :: rest)).
Proof.
  intros E. pose proof (sorted_ints_perm l) as Hp. pose proof (sorted_ints_ascending l) as Hs.
  rewrite E in Hp, Hs.
  assert (Hiff : forall k, In k l <-> In k (first :: rest)).
  { intros k. split; intros H.
    - eapply Permutation_in; [symmetry; exact Hp|exact H].
    - eapply Permutation_in; [exact Hp|exact H]. }
  split; [apply Hiff; by left|]. split; [|done].
  intros k Hk. apply Hiff in Hk as [<-|Hk]; [lia|].
  inversion Hs as [|? ? _ Hall]; subst. rewrite List.Forall_forall in Hall. by apply Hall.
Qed.

(** The choice of [_preferred_rs_note] among the collected notes of a
    category. *)
Lemma preferred_collected rs cat q :
  _preferred_rs_note cat (_build_rs_category_to_notes rs) = Some q
  <-> In q (collected cat rs)
      /\ (assoc cat PREFERRED = Some q
          \/ ((forall pref, assoc cat PREFERRED = Some pref -> ~ In pref (collected cat rs))
              /\ forall k, In k (collected cat rs) -> q <= k)).
Proof.
  unfold _preferred_rs_note. rewrite category_notes_lookup.
  destruct (collected cat rs) as [|k0 ks0]; cbn [default from_option].
  { split; [done|]. by intros [[] _]. }
  unfold id.
  destruct (sorted_ints (k0 :: ks0)) as [|first rest] eqn:Es.
  { pose proof (sorted_ints_perm (k0 :: ks0)) as Hp. rewrite Es in Hp.
    by apply Permutation_nil in Hp. }
  destruct (sorted_head_least _ _ _ Es) as (Hfirst & Hleast & Hiff).
  destruct (assoc cat PREFERRED) as [pref|] eqn:Ea.
  - case_bool_decide as Hp.
    + apply list_elem_of_In, Hiff in Hp. split.
      * intros [= <-]. split; [done|by left].
      * intros (Hq & [[= ->]|[Hno _]]); [done|]. exfalso. by apply (Hno pref).
    + rewrite list_elem_of_In, <- Hiff in Hp. split.
      * intros [= <-]. split; [done|]. right. split; [by intros ? [= <-]|done].
      * intros (Hq & [[= ->]|[_ Hq']]); [contradiction|].
        f_equal. specialize (Hleast q Hq). specialize (Hq' first Hfirst). lia.
  - split.
    + intros [= <-]. split; [done|]. right. split; [done|done].
    + intros (Hq & [[=]|[_ Hq']]).
      f_equal. specialize (Hleast q Hq). specialize (Hq' first Hfirst). lia.
Qed.

(** The choice of [_preferred_rs_note] among the collected notes of a
    category. *)
Lemma preferred_spec rs cat q :
  _preferred_rs_note cat (_build_rs_category_to_notes rs) = Some q
  <-> (exists info, In (q, info) rs /\ eligible info = Some cat)
      /\ (assoc cat PREFERRED = Some q
          \/ ((forall pref info, assoc cat PREFERRED = Some pref ->
                 In (pref, info) rs -> eligible info <> Some cat)
              /\ forall k info, In (k, info) rs -> eligible info = Some cat -> q <= k)).
Proof.
  rewrite preferred_collected, collected_in.
  assert (Hrw : (forall pref info, assoc cat PREFERRED = Some pref ->
                   In (pref, info) rs -> eligible info <> Some cat)
                <-> (forall pref, assoc cat PREFERRED = Some pref ->
                       ~ In pref (collected cat rs))).
  { split.
    - intros H pref Hp (info & Hin & He)%collected_in. by eapply H.
    - intros H pref info Hp Hin He. apply (H pref Hp). apply collected_in. by exists info. }
  assert (Hrw2 : (forall k info, In (k, info) rs -> eligible info = Some cat -> q <= k)
                 <-> (forall k, In k (collected cat rs) -> q <= k)).
  { split.
    - intros H k (info & Hin & He)%collected_in. by eapply H.
    - intros H k info Hin He. apply H. apply collected_in. by exists info. }
  by rewrite Hrw, Hrw2.
Qed.

(** *** The derived mapping *)

Lemma assoc_in {V} (items : list (Z * V)) (p : Z) (v : V) :
  NoDup (map fst items) -> (assoc p items = Some v <-> In (p, v) items).
Proof.
  induction items as [|[k c] items IH]; simpl; [done|].
  intros [Hnotin Hnd]%NoDup_cons.
  destruct (decide (k = p)) as [->|Hne].
  - split; [intros [= ->]; by left|].
    intros [[= ->]|Hin]; [done|]. exfalso. apply Hnotin.
    apply list_elem_of_In, in_map_iff. by exists (p, v).
  - rewrite (IH Hnd). split; [by right|]. by intros [[= ? ?]|?].
Qed.

Lemma assign_fold_spec pref items : forall (m : gmap Z Z) (p : Z),
  NoDup (map fst items) ->
  fold_left (assign pref) items m !! p =
    match assoc p items with
    | Some cat => match pref !! cat with Some q => Some q | None => m !! p end
    | None => m !! p
    end.
Proof.
  induction items as [|[k c] items IH]; intros m p Hnd; [done|].
  simpl in Hnd. apply NoDup_cons in Hnd as [Hnotin Hnd].
  cbn [fold_left assoc]. rewrite (IH _ _ Hnd). unfold assign. cbn [fst snd].
  destruct (decide (k = p)) as [->|Hne].
  - assert (Hnone : assoc p items = None).
    { destruct (assoc p items) as [v|] eqn:E; [|done]. exfalso. apply Hnotin.
      apply assoc_in in E; [|done]. apply list_elem_of_In, in_map_iff. by exists (p, v). }
    rewrite Hnone. destruct (pref !! c) as [q|]; [by rewrite lookup_insert_eq|done].
  - destruct (pref !! c) as [q|]; [|done].
    rewrite lookup_insert_ne by done. done.
Qed.

Lemma gm_categories_NoDup : NoDup (map fst GM_NOTE_TO_CATEGORY).
Proof. simpl. repeat (apply NoDup_cons; split; [set_solver|]). apply NoDup_nil_2. Qed.

Lemma gm_to_rs_spec rs p :
  _build_gm_to_rs rs !! p =
    match assoc p GM_NOTE_TO_CATEGORY with
    | Some cat => _preferred_rs_note cat (_build_rs_category_to_notes rs)
    | None => None
    end.
Proof.
  unfold _build_gm_to_rs. rewrite assign_fold_spec by apply gm_categories_NoDup.
  destruct (assoc p GM_NOTE_TO_CATEGORY) as [cat|]; [|by rewrite lookup_empty].
  rewrite map_lookup_imap, lookup_empty.
  destruct (_build_rs_category_to_notes rs !! cat) as [l|] eqn:E; simpl.
  - by destruct (_preferred_rs_note cat (_build_rs_category_to_notes rs)).
  - unfold _preferred_rs_note. by rewrite E.
Qed.

End DrumRemapMoreFacts.

Module DrumRemapMore.
Import Py Models DrumRemap DrumRemapWords SortFacts DrumRemapFacts ModelsMoreFacts DrumRemapMoreFacts.

(** X24. What the remapper returns.  The changed count is the number of
    notes whose pitch after the call differs from their pitch before it.
    The unmapped set holds exactly the pitches of the channel-9 notes
    that have no entry in the derived mapping and are no key of the
    drumset.  [keep_unmapped] changes neither the notes nor what is
    returned. *)
Theorem remap_reports_changed_and_unmapped (ns : list NoteEvent) (rs : Drumset)
    (keep_unmapped : bool) :
  let r := remap_channel_9_notes_in_place ns rs keep_unmapped in
  r.2.1 = Z.of_nat (length (filter
            (fun n => pitch (remapped (_build_gm_to_rs rs) n) <> pitch n) ns))
  /\ (forall x, x ∈ r.2.2 <->
        exists n, In n ns /\ channel n = 9 /\ pitch n = x
                  /\ _build_gm_to_rs rs !! x = None /\ ~ In x (map fst rs))
  /\ r = remap_channel_9_notes_in_place ns rs (negb keep_unmapped).
Proof.
  unfold remap_channel_9_notes_in_place. cbn zeta.
  destruct (remap_loop_report (_build_gm_to_rs rs) (list_to_set (map fst rs)) ns 0 ∅)
    as [H1 H2].
  split; [rewrite H1; lia|]. split; [|done].
  intros x. rewrite H2. split.
  - intros [H|(n & Hn & H9 & Hp & Hnone & Hv)]; [by apply elem_of_empty in H|].
    exists n. repeat split; try done.
    intros Hin. apply Hv. apply elem_of_list_to_set. by apply list_elem_of_In.
  - intros (n & Hn & H9 & Hp & Hnone & Hv). right.
    exists n. repeat split; try done.
    intros Hin. apply Hv. apply elem_of_list_to_set in Hin. by apply list_elem_of_In.
Qed.

(** X25. After the call every note on channel 9 has a pitch that is a key
    of the drumset, or its pitch is in the returned unmapped set and is
    the pitch it had.  A pitch that the call has written is the key of an
    entry that carries a name and a category and is no empty slot. *)
Theorem remapped_drums_are_drumset_keys_or_reported (ns : list NoteEvent) (rs : Drumset)
    (keep_unmapped : bool) (i : nat) (n n' : NoteEvent) :
  ns !! i = Some n ->
  (remap_channel_9_notes_in_place ns rs keep_unmapped).1 !! i = Some n' ->
  channel n' = 9 ->
  (In (pitch n') (map fst rs)
   \/ (pitch n' ∈ (remap_channel_9_notes_in_place ns rs keep_unmapped).2.2
       /\ pitch n' = pitch n))
  /\ (pitch n' <> pitch n ->
      exists info cat, In (pitch n', info) rs /\ eligible info = Some cat).
Proof.
  intros Hn Hn' H9.
  pose proof (proj2 (remap_loop_report (_build_gm_to_rs rs) (list_to_set (map fst rs))
                        ns 0 ∅)) as Hun.
  change (remap_loop (_build_gm_to_rs rs) (list_to_set (map fst rs)) ns 0 ∅)
    with (remap_channel_9_notes_in_place ns rs keep_unmapped) in Hun.
  unfold remap_channel_9_notes_in_place in Hn'. cbn zeta in Hn'.
  rewrite remap_loop_notes in Hn'.
  change (map (remapped (_build_gm_to_rs rs)) ns)
    with (remapped (_build_gm_to_rs rs) <$> ns) in Hn'.
  rewrite list_lookup_fmap, Hn in Hn'. injection Hn' as <-.
  destruct (remapped_frame (_build_gm_to_rs rs) n) as (_ & _ & _ & Hc & _).
  rewrite Hc in H9. unfold remapped. rewrite decide_True by done.
  destruct (_build_gm_to_rs rs !! pitch n) as [q|] eqn:E; simpl.
  - apply gm_to_rs_lookup in E as (cat & _ & _ & info & Hin & He).
    split; [|intros _; by exists info, cat].
    left. apply in_map_iff. by exists (q, info).
  - split; [|done].
    destruct (decide (pitch n ∈ map fst rs)) as [Hv|Hv]; [left; by apply list_elem_of_In|].
    right. split; [|done]. apply Hun. right. exists n.
    repeat split; try done.
    + by eapply list_elem_of_In, list_elem_of_lookup_2.
    + intros Hin. apply Hv. by apply elem_of_list_to_set in Hin.
Qed.

Lemma remapped_drums_are_drumset_keys_or_reported_witness :
  let n := mkNote 0 10 35 90 9 0 in
  let n' := mkNote 0 10 36 90 9 0 in
  (In (pitch n') (map fst plain_drumset)
   \/ (pitch n' ∈ (remap_channel_9_notes_in_place [n] plain_drumset true).2.2
       /\ pitch n' = pitch n))
  /\ (pitch n' <> pitch n ->
      exists info cat, In (pitch n', info) plain_drumset /\ eligible info = Some cat).
Proof.
  intros n n'.
  apply (remapped_drums_are_drumset_keys_or_reported [n] plain_drumset true 0 n n').
  - reflexivity.
  - vm_compute. reflexivity.
  - reflexivity.
Defined.

(** X26. The derived mapping.  A pitch has an entry exactly when the GM
    table gives it a category and the drumset has a collected entry of
    that category (one with a name and a category that is no empty slot).
    Its target is then the preferred note number of the category if the
    drumset has collected that number under the category, and otherwise
    the lowest note number collected under the category. *)
Theorem drum_mapping_prefers_then_lowest (rs : Drumset) (p q : Z) :
  _build_gm_to_rs rs !! p = Some q
  <-> exists cat,
        In (p, cat) GM_NOTE_TO_CATEGORY
        /\ (exists info, In (q, info) rs /\ eligible info = Some cat)
        /\ (assoc cat PREFERRED = Some q
            \/ ((forall pref info, assoc cat PREFERRED = Some pref ->
                   In (pref, info) rs -> eligible info <> Some cat)
                /\ forall k info, In (k, info) rs -> eligible info = Some cat -> q <= k)).
Proof.
  rewrite gm_to_rs_spec. split.
  - destruct (assoc p GM_NOTE_TO_CATEGORY) as [cat|] eqn:E; [|done].
    intros H. exists cat. split; [by apply assoc_in; [apply gm_categories_NoDup|]|].
    by apply preferred_spec.
  - intros (cat & Hin & H). apply assoc_in in Hin; [|apply gm_categories_NoDup].
    rewrite Hin. by apply preferred_spec.
Qed.

Lemma drum_mapping_prefers_then_lowest_witness :
  _build_gm_to_rs plain_drumset !! 42 = Some 46.
Proof.
  apply drum_mapping_prefers_then_lowest. exists "hihat"%string.
  split; [simpl; tauto|]. split.
  - eexists. split; [right; right; right; left; reflexivity|]. vm_compute. reflexivity.
  - right. split.
    + intros pref info [= <-] [[=]|[[=]|[[=]|[[=]|[]]]]].
    + intros k info [[= <- <-]|[[= <- <-]|[[= <- <-]|[[= <- <-]|[]]]]];
        vm_compute; congruence.
Defined.

End DrumRemapMore.
